(** * utils/datasets.py : label cache, geometry kernel, mosaic, cutout

    A shallow embedding of the dataset pipeline of [utils/datasets.py].

    Conventions of the embedding.
    - Python [int] is [Z]; sizes of files are [N].
    - numpy float arrays and Python floats are exact rationals [Q]; an
      equality of float values is [Qeq] ([==]).  Rounding error of binary
      floating point, [nan] and [inf] are outside of the model.
    - A Python exception is the [Err] branch of [result].
    - The file system, the pickled cache and what is printed are the
      explicit [World] that construction threads through.
    - The ambient generator of [random] is an explicit stream of raw draws.
    - OpenCV's interpolation kernels and libm's trigonometry are interfaces
      ([Cv2], [MathLib]); the pickled size of a cache is [Pickle]. *)

From Stdlib Require Import ZArith QArith Qround Qminmax Qabs Lia Lqa String List Sorted.
From stdpp Require Import base option list gmap strings.

Open Scope Z_scope.

(** ** Exceptions and results *)

Inductive exn :=
| AssertionError (msg : string)
| TypeError (msg : string)
| KeyError (key : string)
| ValueError (msg : string)
| IndexError
| ZeroDivisionError
| OSError (path : string)
| CvError (msg : string).

Inductive result (A : Type) :=
| Ok (a : A)
| Err (e : exn).
Arguments Ok {A} a.
Arguments Err {A} e.

#[global] Instance result_ret : MRet result := fun A a => Ok a.
#[global] Instance result_bind : MBind result := fun A B f m =>
  match m with
  | Ok a => f a
  | Err e => Err e
  end.

Definition py_assert (b : bool) (msg : string) : result unit :=
  if b then Ok tt else Err (AssertionError msg).

Definition is_ok {A} (r : result A) : bool :=
  match r with Ok _ => true | Err _ => false end.

(** ** Numbers *)

(** [1e-16], the guard that the source adds to denominators. *)
Definition eps16 : Q := 1 # 10000000000000000.

(** Python's [round] on a float: to the nearest integer, ties to even. *)
Definition py_round (x : Q) : Z :=
  let f := Qfloor x in
  let d := (x - inject_Z f)%Q in
  if Qlt_le_dec d (1 # 2) then f
  else if Qlt_le_dec (1 # 2) d then f + 1
  else if Z.even f then f else f + 1.

(** Python's [int] on a float: truncation towards zero. *)
Definition py_int (x : Q) : Z :=
  if Qlt_le_dec x 0 then Qceiling x else Qfloor x.

Definition Qclip (lo hi x : Q) : Q := Qmin (Qmax x lo) hi.

Definition Qltb (x y : Q) : bool := negb (Qle_bool y x).

(** ** Label arrays *)

(** A 2-D label array is its list of rows; [shape[0]] is the number of rows
    and [shape[1]] the length of a row. *)
Definition LabelArr := list (list Q).

(** [np.zeros((0, 5))] *)
Definition zeros_0_5 : LabelArr := [].

Definition row_eqb (r1 r2 : list Q) : bool :=
  (length r1 =? length r2)%nat && forallb (fun p => Qeq_bool p.1 p.2) (zip r1 r2).

(** [np.unique(l, axis=0).shape[0]]: the number of distinct rows. *)
Fixpoint unique_rows (l : LabelArr) : nat :=
  match l with
  | [] => 0
  | r :: rest =>
      if existsb (row_eqb r) rest then unique_rows rest
      else S (unique_rows rest)
  end.

(** ** Rasters *)

Definition pixel := (Z * Z * Z)%type.

(** An image of [rows] x [cols] pixels; [px y x] is read inside the
    bounds only. *)
Record Image := mkImage { rows : Z; cols : Z; px : Z -> Z -> pixel }.

Definition gray114 : pixel := (114, 114, 114).

(** ** The world: files, and what was printed *)

(** A value of the cache dictionary: the integer under ["hash"], or the
    entry of an image, [None] when its scan failed. *)
Inductive centry :=
| CHash (h : N)
| CItem (v : option (LabelArr * (Z * Z))).

(** A whitespace-separated field of a label file. *)
Inductive token :=
| Num (q : Q)
| Junk.

Inductive content :=
| CImage (raster : option Image) (exif_orientation : option Z)
| CText (lines : list (list token))
| CCache (c : gmap string centry).

Record file := mkFile { fsize : N; fcontent : content }.

Inductive event :=
| Progress (desc : string)
| Warning (img : string) (e : exn)
| Printed (s : string).

Record World := mkWorld { fs : gmap string file; out : list event }.

(** The number of bytes [paddle.save] writes for a cache. *)
Class Pickle := pickle_size : gmap string centry -> N.

(** [os.path.isfile] *)
Definition isfile (fs : gmap string file) (p : string) : bool :=
  bool_decide (is_Some (fs !! p)).

(** [os.path.getsize] of a path that is a file. *)
Definition getsize (fs : gmap string file) (p : string) : N :=
  from_option fsize 0%N (fs !! p).

(** [get_hash]: [sum(os.path.getsize(f) for f in files if os.path.isfile(f))] *)
Fixpoint get_hash (fs : gmap string file) (files : list string) : N :=
  match files with
  | [] => 0
  | f :: rest =>
      if isfile fs f then (getsize fs f + get_hash fs rest)%N
      else get_hash fs rest
  end.

(** [Image.open(img)] followed by [image.verify()]. *)
Definition Image_open_verify (fs : gmap string file) (p : string)
  : result (Image * option Z) :=
  match fs !! p with
  | Some (mkFile _ (CImage (Some r) o)) => Ok (r, o)
  | _ => Err (OSError p)
  end.

(** [exif_size]: PIL's [(width, height)], swapped for orientations 6 and 8. *)
Definition exif_size (image : Image * option Z) : Z * Z :=
  let s := (cols image.1, rows image.1) in
  match image.2 with
  | Some 6 => (s.2, s.1)
  | Some 8 => (s.2, s.1)
  | _ => s
  end.

(** [np.array([x.split() for x in lines], dtype=np.float32)] *)
Definition parse_row (r : list token) : option (list Q) :=
  mapM (fun t => match t with Num q => Some q | Junk => None end) r.

Definition np_array (lines : list (list token)) : result LabelArr :=
  match mapM parse_row lines with
  | None => Err (ValueError "could not convert string to float")
  | Some rs =>
      match rs with
      | [] => Ok []
      | r :: rest =>
          if forallb (fun r' => (length r' =? length r)%nat) rest then Ok rs
          else Err (ValueError "inhomogeneous shape")
      end
  end.

Definition read_label (fs : gmap string file) (label : string) : result LabelArr :=
  match fs !! label with
  | Some (mkFile _ (CText lines)) => np_array lines
  | _ => Err (OSError label)
  end.

(** The body of the [try] in [cache_labels]. *)
Definition scan_file (fs : gmap string file) (img label : string)
  : result (LabelArr * (Z * Z)) :=
  image ← Image_open_verify fs img;
  let shape := exif_size image in
  _ ← py_assert ((9 <? shape.1) && (9 <? shape.2)) "image size <10 pixels";
  l ← (if isfile fs label then read_label fs label else Ok []);
  let l := if (length l =? 0)%nat then zeros_0_5 else l in
  Ok (l, shape).

(** The [for img, label in pbar] loop: a failure of the body is caught,
    recorded as [None] and printed. *)
Fixpoint cache_labels_loop (fs : gmap string file) (pairs : list (string * string))
    (x : gmap string centry) (o : list event) : gmap string centry * list event :=
  match pairs with
  | [] => (x, o)
  | (img, label) :: rest =>
      match scan_file fs img label with
      | Ok v => cache_labels_loop fs rest (<[img := CItem (Some v)]> x) o
      | Err e => cache_labels_loop fs rest (<[img := CItem None]> x) (o ++ [Warning img e])
      end
  end.

(** [paddle.save(obj=x, path=path)] *)
Definition paddle_save `{Pickle} (x : gmap string centry) (path : string)
    (fs : gmap string file) : gmap string file :=
  <[path := mkFile (pickle_size x) (CCache x)]> fs.

(** [paddle.load(path=path)] *)
Definition paddle_load (fs : gmap string file) (path : string)
  : result (gmap string centry) :=
  match fs !! path with
  | Some (mkFile _ (CCache c)) => Ok c
  | _ => Err (OSError path)
  end.

(** [LoadImagesAndLabels.cache_labels] *)
Definition cache_labels `{Pickle} (img_files label_files : list string)
    (path : string) (w : World) : gmap string centry * World :=
  let o := out w ++ [Progress "Scanning images"] in
  let '(x, o) := cache_labels_loop (fs w) (zip img_files label_files) ∅ o in
  let x := <["hash" := CHash (get_hash (fs w) (label_files ++ img_files))]> x in
  (x, mkWorld (paddle_save x path (fs w)) o).

(** Lines 325-331 of [__init__]: load the cache, or scan. *)
Definition load_or_scan `{Pickle} (img_files label_files : list string)
    (cache_path : string) (w : World) : result (gmap string centry) * World :=
  if isfile (fs w) cache_path then
    match paddle_load (fs w) cache_path with
    | Err e => (Err e, w)
    | Ok cache =>
        match cache !! "hash" with
        | None => (Err (KeyError "hash"), w)
        | Some (CHash h) =>
            if (h =? get_hash (fs w) (label_files ++ img_files))%N
            then (Ok cache, w)
            else let '(c, w') := cache_labels img_files label_files cache_path w in
                 (Ok c, w')
        | Some (CItem _) =>
            let '(c, w') := cache_labels img_files label_files cache_path w in
            (Ok c, w')
        end
    end
  else
    let '(c, w') := cache_labels img_files label_files cache_path w in
    (Ok c, w').

(** ** OpenCV: decoding and resizing *)

Inductive interp := INTER_AREA | INTER_LINEAR.

(** The 3x3 matrices of the geometry kernel, row by row. *)
Definition Mat3 := (Q * Q * Q * (Q * Q * Q) * (Q * Q * Q))%type.

(** The pixel values OpenCV computes: its resampling kernels are not part
    of this repository.  The shape of every result is fixed below. *)
Class Cv2 := {
  cv2_resize_px : Image -> Z * Z -> interp -> Z -> Z -> pixel;
  cv2_warp_px : Image -> Mat3 -> bool -> Z * Z -> Z -> Z -> pixel
}.

(** [cv2.resize(img, (w, h), interpolation=...)] *)
Definition cv2_resize `{Cv2} (img : Image) (dsize : Z * Z) (i : interp) : result Image :=
  if (0 <? dsize.1) && (0 <? dsize.2)
  then Ok (mkImage dsize.2 dsize.1 (cv2_resize_px img dsize i))
  else Err (CvError "resize: dsize is empty").

(** [cv2.imread(path)]: [None] when the file is missing or can not be decoded. *)
Definition cv2_imread (fs : gmap string file) (path : string) : option Image :=
  match fs !! path with
  | Some (mkFile _ (CImage (Some r) _)) => Some r
  | _ => None
  end.

(** ** The dataset object *)

Record Hyp := mkHyp {
  degrees : Q; translate : Q; scale : Q; shear : Q; perspective : Q;
  hsv_h : Q; hsv_s : Q; hsv_v : Q; flipud : Q; fliplr : Q; mixup : Q
}.

Record Args := mkArgs {
  a_img_files : list string;
  a_label_files : list string;
  a_cache_path : string;
  a_img_size : Z;
  a_batch_size : Z;
  a_augment : bool;
  a_hyp : option Hyp;
  a_rect : bool;
  a_image_weights : bool;
  a_cache_images : bool;
  a_single_cls : bool;
  a_stride : Z;
  a_pad : Q
}.

Record Dataset := mkDataset {
  n : nat;
  batch : list Z;
  img_size : Z;
  augment : bool;
  hyp : option Hyp;
  image_weights : bool;
  rect : bool;
  mosaic : bool;
  mosaic_border : Z * Z;
  stride : Z;
  img_files : list string;
  label_files : list string;
  shapes : list (Q * Q);
  labels : list LabelArr;
  batch_shapes : option (list (Z * Z));
  imgs : list (option Image);
  img_hw0 : list (option (Z * Z));
  img_hw : list (option (Z * Z))
}.

(** The counters of the label loop, shown in the progress bar. *)
Record Stats := mkStats { nm : nat; nf : nat; ne : nat; ns : nat; nd : nat }.

Definition index_error {A} (o : option A) : result A :=
  match o with
  | Some a => Ok a
  | None => Err IndexError
  end.

(** [load_image(self, index)], reading the file system [fs]. *)
Definition load_image `{Cv2} (fs : gmap string file) (self : Dataset) (index : nat)
  : result (Image * (Z * Z) * (Z * Z)) :=
  img ← index_error (imgs self !! index);
  match img with
  | None =>
      path ← index_error (img_files self !! index);
      match cv2_imread fs path with
      | None => Err (AssertionError ("Image Not Found " +:+ path))
      | Some img =>
          let '(h0, w0) := (rows img, cols img) in
          if Z.max h0 w0 =? 0 then Err ZeroDivisionError else
          let r := (inject_Z (img_size self) / inject_Z (Z.max h0 w0))%Q in
          if Qeq_bool r 1 then Ok (img, (h0, w0), (rows img, cols img))
          else
            let interp := if Qltb r 1 && negb (augment self)
                          then INTER_AREA else INTER_LINEAR in
            img ← cv2_resize img (py_int (inject_Z w0 * r), py_int (inject_Z h0 * r)) interp;
            Ok (img, (h0, w0), (rows img, cols img))
      end
  | Some img =>
      hw0 ← index_error (img_hw0 self !! index);
      hw ← index_error (img_hw self !! index);
      match hw0, hw with
      | Some hw0, Some hw => Ok (img, hw0, hw)
      | _, _ => Err (TypeError "cannot unpack non-iterable NoneType object")
      end
  end.

(** ** Rectangular batch shapes (lines 335-355) *)

(** [ar.argsort()]: the indices in ascending order of their key; equal keys
    keep their order. *)
Fixpoint insert_by (ar : list Q) (i : nat) (sorted : list nat) : list nat :=
  match sorted with
  | [] => [i]
  | j :: rest =>
      if Qle_bool (default 0%Q (ar !! i)) (default 0%Q (ar !! j))
      then i :: j :: rest
      else j :: insert_by ar i rest
  end.

Definition argsort (ar : list Q) : list nat :=
  foldr (insert_by ar) [] (seq 0 (length ar)).

(** [[l[i] for i in irect]] *)
Definition take_idx {A} (l : list A) (irect : list nat) : list A :=
  omap (fun i => l !! i) irect.

Fixpoint Qlist_min (l : list Q) : option Q :=
  match l with
  | [] => None
  | x :: rest => Some (from_option (Qmin x) x (Qlist_min rest))
  end.

Fixpoint Qlist_max (l : list Q) : option Q :=
  match l with
  | [] => None
  | x :: rest => Some (from_option (Qmax x) x (Qlist_max rest))
  end.

(** [ar[bi == i]] *)
Definition select_batch (bi : list Z) (ar : list Q) (i : Z) : list Q :=
  omap (fun p => if (p.1 =? i) then Some p.2 else None) (zip bi ar).

(** The body of [for i in range(nb)]: the relative shape of batch [i]. *)
Definition batch_rel_shape (ari : list Q) : result (Q * Q) :=
  match Qlist_min ari, Qlist_max ari with
  | Some mini, Some maxi =>
      if Qltb maxi 1 then Ok (maxi, 1%Q)
      else if Qltb 1 mini then Ok (1%Q, (1 / mini)%Q)
      else Ok (1%Q, 1%Q)
  | _, _ => Err (ValueError "zero-size array to reduction operation")
  end.

(** [np.ceil(np.array(shapes) * img_size / stride + pad).astype(np.int) * stride] *)
Definition to_batch_shape (img_size stride : Z) (pad : Q) (s : Q * Q) : Z * Z :=
  let f := fun v : Q =>
    Qceiling (v * inject_Z img_size / inject_Z stride + pad) * stride in
  (f s.1, f s.2).

(** [bi = np.floor(np.arange(n) / batch_size).astype(np.int)] *)
Definition batch_index (n : nat) (batch_size : Z) : list Z :=
  map (fun i => Z.of_nat i / batch_size) (seq 0 n).

Definition rect_batch_shapes (shapes : list (Q * Q)) (bi : list Z) (nb : Z)
    (img_size stride : Z) (pad : Q) : result (list nat * list (Z * Z)) :=
  let ar := map (fun s => (s.2 / s.1)%Q) shapes in
  let irect := argsort ar in
  let ar := take_idx ar irect in
  rel ← mapM (fun i => batch_rel_shape (select_batch bi ar i)) (seqZ 0 nb);
  Ok (irect, map (to_batch_shape img_size stride pad) rel).

(** ** Construction: [LoadImagesAndLabels.__init__] from line 307 *)

(** [l.shape[1]] *)
Definition shape1 (l : LabelArr) : nat :=
  match l with
  | r :: _ => length r
  | [] => 5%nat
  end.

Definition all_nonneg (l : LabelArr) : bool := forallb (forallb (Qle_bool 0)) l.

(** [(l[:, 1:] <= 1).all()] *)
Definition coords_le_1 (l : LabelArr) : bool :=
  forallb (fun r => forallb (fun v => Qle_bool v 1) (drop 1 r)) l.

(** The body of the label loop (lines 360-411); [create_datasubset] and
    [extract_bounding_boxes] are the constant [False] there. *)
Definition check_label (single_cls : bool) (file : string) (l : LabelArr) (st : Stats)
  : result (LabelArr * Stats) :=
  if (0 <? length l)%nat then
    _ ← py_assert (shape1 l =? 5)%nat ("> 5 label columns: " +:+ file);
    _ ← py_assert (all_nonneg l) ("negative labels: " +:+ file);
    _ ← py_assert (coords_le_1 l)
          ("non-normalized or out of bounds coordinate labels: " +:+ file);
    let nd' := if (unique_rows l <? length l)%nat then S (nd st) else nd st in
    let l := if single_cls then map (fun r => <[0%nat := 0%Q]> r) l else l in
    Ok (l, mkStats (nm st) (S (nf st)) (ne st) (ns st) nd')
  else
    Ok (l, mkStats (nm st) (nf st) (S (ne st)) (ns st) (nd st)).

Fixpoint label_loop (single_cls : bool) (files : list string) (labels : list LabelArr)
    (st : Stats) : result (list LabelArr * Stats) :=
  match files, labels with
  | [], _ => Ok (labels, st)
  | _ :: _, [] => Err IndexError
  | file :: files, l :: labels =>
      '(l, st) ← check_label single_cls file l st;
      '(ls, st) ← label_loop single_cls files labels st;
      Ok (l :: ls, st)
  end.

(** [[cache[x] for x in self.img_files]] *)
Definition cache_items (cache : gmap string centry) (img_files : list string)
  : result (list centry) :=
  mapM (fun x => match cache !! x with
                 | Some v => Ok v
                 | None => Err (KeyError x)
                 end) img_files.

(** [labels, shapes = zip] of the unpacked items: every item has to be
    iterable. *)
Definition unzip_items (items : list centry)
  : result (list LabelArr * list (Z * Z)) :=
  pairs ← mapM (fun v => match v with
                         | CItem (Some p) => Ok p
                         | CItem None => Err (TypeError "'NoneType' object is not iterable")
                         | CHash _ => Err (TypeError "'int' object is not iterable")
                         end) items;
  Ok (map fst pairs, map snd pairs).

(** Lines 332-355: the label and shape arrays, reordered by aspect ratio
    when [rect] is set. *)
Definition arrange (a : Args) (rect : bool) (bi : list Z) (nb : Z)
    (cache : gmap string centry)
  : result (list string * list string * list LabelArr * list (Q * Q)
            * option (list (Z * Z))) :=
  items ← cache_items cache (a_img_files a);
  '(labels, shapes) ← unzip_items items;
  let shapes := map (fun s : Z * Z => (inject_Z s.1, inject_Z s.2)) shapes in
  if rect then
    '(irect, bs) ← rect_batch_shapes shapes bi nb (a_img_size a) (a_stride a) (a_pad a);
    Ok (take_idx (a_img_files a) irect, take_idx (a_label_files a) irect,
        take_idx labels irect, take_idx shapes irect, Some bs)
  else Ok (a_img_files a, a_label_files a, labels, shapes, None).

(** Lines 419-427: the optional preloading of every image. *)
Fixpoint cache_images_loop `{Cv2} (fs : gmap string file) (self : Dataset)
    (idx : list nat) : result Dataset :=
  match idx with
  | [] => Ok self
  | i :: idx =>
      '(img, hw0, hw) ← load_image fs self i;
      cache_images_loop fs
        (mkDataset (n self) (batch self) (img_size self) (augment self) (hyp self)
           (image_weights self) (rect self) (mosaic self) (mosaic_border self)
           (stride self) (img_files self) (label_files self) (shapes self)
           (labels self) (batch_shapes self)
           (<[i := Some img]> (imgs self)) (<[i := Some hw0]> (img_hw0 self))
           (<[i := Some hw]> (img_hw self)))
        idx
  end.

(** [self.rect], [bi] and [nb] of lines 309-317. *)
Definition init_rect (a : Args) : bool :=
  if a_image_weights a then false else a_rect a.

Definition init_bi (a : Args) : list Z :=
  batch_index (length (a_img_files a)) (a_batch_size a).

Definition init_nb (a : Args) : Z := default 0 (last (init_bi a)) + 1.

(** Lines 412-427: the warning for a dataset without labels, and the
    preloading of the images. *)
Definition init_finish `{Cv2} (a : Args) (w : World)
    (img_files label_files : list string) (shapes : list (Q * Q))
    (bshapes : option (list (Z * Z))) (labels : list LabelArr) (st : Stats)
  : result (Dataset * Stats) * World :=
  let n := length (a_img_files a) in
  let rect := init_rect a in
  let mosaic := a_augment a && negb rect in
  let mosaic_border := ((- a_img_size a) / 2, (- a_img_size a) / 2) in
  let w := if (nf st =? 0)%nat
           then mkWorld (fs w) (out w ++ [Printed "WARNING: No labels found"])
           else w in
  if (nf st =? 0)%nat && a_augment a
  then (Err (AssertionError "Can not train without labels."), w)
  else
    let self := mkDataset n (init_bi a) (a_img_size a) (a_augment a) (a_hyp a)
                  (a_image_weights a) rect mosaic mosaic_border (a_stride a)
                  img_files label_files shapes labels bshapes
                  (replicate n None) [] [] in
    if a_cache_images a then
      let w := mkWorld (fs w) (out w ++ [Progress "Caching images"]) in
      let self := mkDataset n (init_bi a) (a_img_size a) (a_augment a) (a_hyp a)
                    (a_image_weights a) rect mosaic mosaic_border (a_stride a)
                    img_files label_files shapes labels bshapes
                    (replicate n None) (replicate n None) (replicate n None) in
      match cache_images_loop (fs w) self (seq 0 n) with
      | Err e => (Err e, w)
      | Ok self => (Ok (self, st), w)
      end
    else (Ok (self, st), w).

(** [LoadImagesAndLabels.__init__], from the sorted list of image files on;
    [a_label_files] is the list the source derives from it, one label path
    for each image path. *)
Definition init `{Pickle} `{Cv2} (a : Args) (w : World)
  : result (Dataset * Stats) * World :=
  if (length (a_img_files a) =? 0)%nat
  then (Err (AssertionError "No images found"), w) else
  let '(rc, w) := load_or_scan (a_img_files a) (a_label_files a) (a_cache_path a) w in
  match rc with
  | Err e => (Err e, w)
  | Ok cache =>
    match arrange a (init_rect a) (init_bi a) (init_nb a) cache with
    | Err e => (Err e, w)
    | Ok (img_files, label_files, labels, shapes, bshapes) =>
      match label_loop (a_single_cls a) label_files labels (mkStats 0 0 0 0 0) with
      | Err e => (Err e, w)
      | Ok (labels, st) =>
          init_finish a w img_files label_files shapes bshapes labels st
      end
    end
  end.

(** ** The generator of [random] *)

(** The state of the ambient generator: the stream of its raw draws and how
    many were consumed. *)
Record Rng := mkRng { draws : nat -> N; pos : nat }.

(** A computation that draws random numbers and may raise. *)
Definition Rand (A : Type) : Type := Rng -> result (A * Rng).

#[global] Instance Rand_ret : MRet Rand := fun A a g => Ok (a, g).
#[global] Instance Rand_bind : MBind Rand := fun A B f m g =>
  match m g with
  | Ok (a, g') => f a g'
  | Err e => Err e
  end.

Definition lift {A} (r : result A) : Rand A :=
  fun g => match r with Ok a => Ok (a, g) | Err e => Err e end.

Definition next_raw : Rand N :=
  fun g => Ok (draws g (pos g), mkRng (draws g) (S (pos g))).

(** [random.random()]: a multiple of [2^-53] in [[0, 1)]. *)
Definition random : Rand Q :=
  k ← next_raw;
  mret (Z.of_N (k mod 2 ^ 53) # 2 ^ 53).

(** [random.uniform(a, b)] is [a + (b - a) * random()]. *)
Definition uniform (a b : Q) : Rand Q :=
  u ← random;
  mret (a + (b - a) * u)%Q.

(** [random.randint(a, b)]: an integer of [[a, b]]; an empty range raises. *)
Definition randint (a b : Z) : Rand Z :=
  if b <? a then lift (Err (ValueError "empty range for randrange()"))
  else k ← next_raw; mret (a + Z.of_N k mod (b - a + 1)).

(** ** Raster operations of numpy and OpenCV *)

(** [np.full((h, w, 3), v)] *)
Definition np_full (h w : Z) (v : pixel) : Image := mkImage h w (fun _ _ => v).

(** A slice [lo:hi] of an axis of length [len], for bounds that are not
    negative: the range it selects. *)
Definition slice_range (len lo hi : Z) : Z * Z :=
  let lo := Z.min lo len in
  let hi := Z.min hi len in
  (lo, Z.max lo hi).

(** [dst[y1a:y2a, x1a:x2a] = src[y1b:y2b, x1b:x2b]]: the two regions must
    have one shape. *)
Definition slice_assign (dst : Image) (a : Z * Z * Z * Z) (src : Image)
    (b : Z * Z * Z * Z) : result Image :=
  let '(x1a, y1a, x2a, y2a) := a in
  let '(x1b, y1b, x2b, y2b) := b in
  let '(ya, ya') := slice_range (rows dst) y1a y2a in
  let '(xa, xa') := slice_range (cols dst) x1a x2a in
  let '(yb, yb') := slice_range (rows src) y1b y2b in
  let '(xb, xb') := slice_range (cols src) x1b x2b in
  if (ya' - ya =? yb' - yb) && (xa' - xa =? xb' - xb) then
    Ok (mkImage (rows dst) (cols dst)
          (fun y x => if (ya <=? y) && (y <? ya') && (xa <=? x) && (x <? xa')
                      then px src (y - ya + yb) (x - xa + xb)
                      else px dst y x))
  else Err (ValueError "could not broadcast input array").

(** [image[ymin:ymax, xmin:xmax] = color] *)
Definition fill_rect (img : Image) (ymin ymax xmin xmax : Z) (color : pixel) : Image :=
  let '(y0, y1) := slice_range (rows img) ymin ymax in
  let '(x0, x1) := slice_range (cols img) xmin xmax in
  mkImage (rows img) (cols img)
    (fun y x => if (y0 <=? y) && (y <? y1) && (x0 <=? x) && (x <? x1)
                then color else px img y x).

(** [cv2.copyMakeBorder(img, top, bottom, left, right, cv2.BORDER_CONSTANT, value)] *)
Definition copyMakeBorder (img : Image) (ptop pbottom pleft pright : Z) (value : pixel)
  : result Image :=
  if (ptop <? 0) || (pbottom <? 0) || (pleft <? 0) || (pright <? 0)
  then Err (CvError "copyMakeBorder: negative border")
  else Ok (mkImage (rows img + ptop + pbottom) (cols img + pleft + pright)
             (fun y x => if (ptop <=? y) && (y <? ptop + rows img)
                            && (pleft <=? x) && (x <? pleft + cols img)
                         then px img (y - ptop) (x - pleft) else value)).

(** [cv2.warpPerspective] ([persp]) and [cv2.warpAffine] on the first two
    rows of [M], with [dsize=(width, height)] and gray border. *)
Definition cv2_warp `{Cv2} (img : Image) (M : Mat3) (persp : bool) (dsize : Z * Z)
  : result Image :=
  if (0 <? dsize.1) && (0 <? dsize.2)
  then Ok (mkImage dsize.2 dsize.1 (cv2_warp_px img M persp dsize))
  else Err (CvError "warp: dsize is empty").

(** ** The geometry kernel *)

(** [letterbox]; [new_shape] is an [int] or a pair [(height, width)]. *)
Definition letterbox `{Cv2} (img : Image) (new_shape : Z + Z * Z) (color : pixel)
    (auto scaleFill scaleup : bool) : result (Image * (Q * Q) * (Q * Q)) :=
  let shape := (rows img, cols img) in
  let new_shape := match new_shape with inl k => (k, k) | inr p => p end in
  if (shape.1 =? 0) || (shape.2 =? 0) then Err ZeroDivisionError else
  let r := Qmin (inject_Z new_shape.1 / inject_Z shape.1)
                (inject_Z new_shape.2 / inject_Z shape.2) in
  let r := if negb scaleup then Qmin r 1 else r in
  let ratio := (r, r) in
  let new_unpad := (py_round (inject_Z shape.2 * r), py_round (inject_Z shape.1 * r)) in
  let dw := new_shape.2 - new_unpad.1 in
  let dh := new_shape.1 - new_unpad.2 in
  let '(dw, dh, new_unpad, ratio) :=
    if auto then (inject_Z (dw mod 128), inject_Z (dh mod 128), new_unpad, ratio)
    else if scaleFill then
      (0%Q, 0%Q, (new_shape.2, new_shape.1),
       ((inject_Z new_shape.2 / inject_Z shape.2)%Q,
        (inject_Z new_shape.1 / inject_Z shape.1)%Q))
    else (inject_Z dw, inject_Z dh, new_unpad, ratio) in
  let dw := (dw / 2)%Q in
  let dh := (dh / 2)%Q in
  img ← (if bool_decide ((shape.2, shape.1) = new_unpad) then Ok img
         else cv2_resize img new_unpad INTER_LINEAR);
  let '(ptop, pbottom) := (py_round (dh - 0.1), py_round (dh + 0.1)) in
  let '(pleft, pright) := (py_round (dw - 0.1), py_round (dw + 0.1)) in
  img ← copyMakeBorder img ptop pbottom pleft pright color;
  Ok (img, ratio, (dw, dh)).

(** [box_candidates] on one pair of boxes [(x1, y1, x2, y2)]; the source
    applies it to the columns of two [4 x n] arrays at once. *)
Definition box_candidates (box1 box2 : Q * Q * Q * Q) (wh_thr ar_thr area_thr : Q)
  : bool :=
  let '(b1x1, b1y1, b1x2, b1y2) := box1 in
  let '(b2x1, b2y1, b2x2, b2y2) := box2 in
  let '(w1, h1) := ((b1x2 - b1x1)%Q, (b1y2 - b1y1)%Q) in
  let '(w2, h2) := ((b2x2 - b2x1)%Q, (b2y2 - b2y1)%Q) in
  let ar := Qmax (w2 / (h2 + eps16)) (h2 / (w2 + eps16)) in
  Qltb wh_thr w2 && Qltb wh_thr h2
  && Qltb area_thr (w2 * h2 / (w1 * h1 + eps16))
  && Qltb ar ar_thr.

Definition Vec3 := (Q * Q * Q)%type.

Definition eye3 : Mat3 := ((1, 0, 0), (0, 1, 0), (0, 0, 1))%Q.

Definition dot3 (u v : Vec3) : Q :=
  let '(u0, u1, u2) := u in
  let '(v0, v1, v2) := v in
  (u0 * v0 + u1 * v1 + u2 * v2)%Q.

(** [A @ B] *)
Definition matmul (A B : Mat3) : Mat3 :=
  let '(a0, a1, a2) := A in
  let '((b00, b01, b02), (b10, b11, b12), (b20, b21, b22)) := B in
  let c0 := (b00, b10, b20) in
  let c1 := (b01, b11, b21) in
  let c2 := (b02, b12, b22) in
  ((dot3 a0 c0, dot3 a0 c1, dot3 a0 c2),
   (dot3 a1 c0, dot3 a1 c1, dot3 a1 c2),
   (dot3 a2 c0, dot3 a2 c1, dot3 a2 c2)).

Definition vec_eqb (u v : Vec3) : bool :=
  let '(u0, u1, u2) := u in
  let '(v0, v1, v2) := v in
  Qeq_bool u0 v0 && Qeq_bool u1 v1 && Qeq_bool u2 v2.

Definition mat_eqb (A B : Mat3) : bool :=
  let '(a0, a1, a2) := A in
  let '(b0, b1, b2) := B in
  vec_eqb a0 b0 && vec_eqb a1 b1 && vec_eqb a2 b2.

(** libm on angles given in degrees: [math.cos(x * math.pi / 180)] and so on. *)
Class MathLib := {
  cos_deg : Q -> Q;
  sin_deg : Q -> Q;
  tan_deg : Q -> Q
}.

(** The two rows of [cv2.getRotationMatrix2D(angle, center=(0, 0), scale)]. *)
Definition getRotationMatrix2D `{MathLib} (angle scale : Q) : Vec3 * Vec3 :=
  let alpha := (scale * cos_deg angle)%Q in
  let beta := (scale * sin_deg angle)%Q in
  ((alpha, beta, (1 - alpha) * 0 - beta * 0), (- beta, alpha, beta * 0 + (1 - alpha) * 0))%Q.

(** Column [i] of a row of a label array. *)
Definition col (r : list Q) (i : nat) : Q := default 0%Q (r !! i).

Definition Qmin4 (a b c d : Q) : Q := Qmin (Qmin a b) (Qmin c d).
Definition Qmax4 (a b c d : Q) : Q := Qmax (Qmax a b) (Qmax c d).

(** The four corners of a box go through [M]; the result is the box that
    bounds them. *)
Definition warp_box (M : Mat3) (persp : bool) (r : list Q) : Q * Q * Q * Q :=
  let '(m0, m1, m2) := M in
  let pt := fun x y : Q =>
    let v := (x, y, 1%Q) in
    if persp then ((dot3 v m0 / dot3 v m2)%Q, (dot3 v m1 / dot3 v m2)%Q)
    else (dot3 v m0, dot3 v m1) in
  let p1 := pt (col r 1) (col r 2) in
  let p2 := pt (col r 3) (col r 4) in
  let p3 := pt (col r 1) (col r 4) in
  let p4 := pt (col r 3) (col r 2) in
  (Qmin4 p1.1 p2.1 p3.1 p4.1, Qmin4 p1.2 p2.2 p3.2 p4.2,
   Qmax4 p1.1 p2.1 p3.1 p4.1, Qmax4 p1.2 p2.2 p3.2 p4.2).

Definition clip_box (width height : Z) (b : Q * Q * Q * Q) : Q * Q * Q * Q :=
  let '(x1, y1, x2, y2) := b in
  (Qclip 0 (inject_Z width) x1, Qclip 0 (inject_Z height) y1,
   Qclip 0 (inject_Z width) x2, Qclip 0 (inject_Z height) y2).

(** [targets[:, 1:5] = xy] on one row. *)
Definition set_box (r : list Q) (b : Q * Q * Q * Q) : list Q :=
  let '(x1, y1, x2, y2) := b in
  <[4%nat := y2]> (<[3%nat := x2]> (<[2%nat := y1]> (<[1%nat := x1]> r))).

(** Lines 694-710 on one row: the new box, or nothing when
    [box_candidates] rejects it. *)
Definition warp_target (M : Mat3) (persp : bool) (width height : Z) (s : Q)
    (r : list Q) : option (list Q) :=
  let xy := clip_box width height (warp_box M persp r) in
  let box1 := (col r 1 * s, col r 2 * s, col r 3 * s, col r 4 * s)%Q in
  if box_candidates box1 xy 2 20 0.2 then Some (set_box r xy) else None.

(** Lines 668-684 of [random_perspective]: the matrix
    [M = T @ S @ R @ P @ C] for a canvas of [width] x [height], and the
    scale [s] that was drawn. *)
Definition perspective_matrix `{MathLib} (img : Image)
    (degrees translate scale shear perspective : Q) (width height : Z)
  : Rand (Mat3 * Q) :=
  let C : Mat3 := ((1, 0, - inject_Z (cols img) / 2),
                   (0, 1, - inject_Z (rows img) / 2), (0, 0, 1))%Q in
  p20 ← uniform (- perspective) perspective;
  p21 ← uniform (- perspective) perspective;
  let P : Mat3 := ((1, 0, 0), (0, 1, 0), (p20, p21, 1))%Q in
  a ← uniform (- degrees) degrees;
  s ← uniform (1 - scale) (1 + scale);
  let '(r0, r1) := getRotationMatrix2D a s in
  let R : Mat3 := (r0, r1, (0, 0, 1))%Q in
  s01 ← uniform (- shear) shear;
  s10 ← uniform (- shear) shear;
  let S : Mat3 := ((1, tan_deg s01, 0), (tan_deg s10, 1, 0), (0, 0, 1))%Q in
  t02 ← uniform (0.5 - translate) (0.5 + translate);
  t12 ← uniform (0.5 - translate) (0.5 + translate);
  let T : Mat3 := ((1, 0, t02 * inject_Z width),
                   (0, 1, t12 * inject_Z height), (0, 0, 1))%Q in
  mret (matmul (matmul (matmul (matmul T S) R) P) C, s).

(** [random_perspective] *)
Definition random_perspective `{Cv2} `{MathLib} (img : Image) (targets : LabelArr)
    (degrees translate scale shear perspective : Q) (border : Z * Z)
  : Rand (Image * LabelArr) :=
  let height := rows img + border.1 * 2 in
  let width := cols img + border.2 * 2 in
  '(M, s) ← perspective_matrix img degrees translate scale shear perspective
              width height;
  let persp := negb (Qeq_bool perspective 0) in
  img ← lift (if negb (border.1 =? 0) || negb (border.2 =? 0) || negb (mat_eqb M eye3)
              then cv2_warp img M persp (width, height)
              else Ok img);
  if (0 <? length targets)%nat then
    if forallb (fun r => (5 <=? length r)%nat) targets then
      mret (img, omap (warp_target M persp width height s) targets)
    else lift (Err IndexError)
  else mret (img, targets).

(** ** The mosaic compositor *)

Inductive Quadrant := TopLeft | TopRight | BottomLeft | BottomRight.

(** Lines 566-578: the rectangle [(x1a, y1a, x2a, y2a)] of the canvas and the
    rectangle [(x1b, y1b, x2b, y2b)] of the source for an [h] x [w] image. *)
Definition mosaic_place (i : Quadrant) (s xc yc h w : Z)
  : (Z * Z * Z * Z) * (Z * Z * Z * Z) :=
  match i with
  | TopLeft =>
      let '(x1a, y1a, x2a, y2a) := (Z.max (xc - w) 0, Z.max (yc - h) 0, xc, yc) in
      ((x1a, y1a, x2a, y2a), (w - (x2a - x1a), h - (y2a - y1a), w, h))
  | TopRight =>
      let '(x1a, y1a, x2a, y2a) := (xc, Z.max (yc - h) 0, Z.min (xc + w) (s * 2), yc) in
      ((x1a, y1a, x2a, y2a), (0, h - (y2a - y1a), Z.min w (x2a - x1a), h))
  | BottomLeft =>
      let '(x1a, y1a, x2a, y2a) := (Z.max (xc - w) 0, yc, xc, Z.min (s * 2) (yc + h)) in
      ((x1a, y1a, x2a, y2a), (w - (x2a - x1a), 0, Z.max xc w, Z.min (y2a - y1a) h))
  | BottomRight =>
      let '(x1a, y1a, x2a, y2a) :=
        (xc, yc, Z.min (xc + w) (s * 2), Z.min (s * 2) (yc + h)) in
      ((x1a, y1a, x2a, y2a), (0, 0, Z.min w (x2a - x1a), Z.min (y2a - y1a) h))
  end.

(** Lines 585-588 on one row of [x]. *)
Definition place_row (w h padw padh : Z) (r : list Q) : list Q :=
  set_box r
    (inject_Z w * (col r 1 - col r 3 / 2) + inject_Z padw,
     inject_Z h * (col r 2 - col r 4 / 2) + inject_Z padh,
     inject_Z w * (col r 1 + col r 3 / 2) + inject_Z padw,
     inject_Z h * (col r 2 + col r 4 / 2) + inject_Z padh)%Q.

(** [x.size] *)
Definition arr_size (x : LabelArr) : nat := sum_list (map length x).

Definition place_labels (w h padw padh : Z) (x : LabelArr) : result LabelArr :=
  if (0 <? arr_size x)%nat then
    if forallb (fun r => (5 <=? length r)%nat) x
    then Ok (map (place_row w h padw padh) x)
    else Err IndexError
  else Ok x.

(** [np.clip(labels4[:, 1:], 0, 2 * s, out=labels4[:, 1:])] on one row. *)
Definition clip_row (s : Z) (r : list Q) : list Q :=
  match r with
  | [] => []
  | c :: rest => c :: map (Qclip 0 (inject_Z (2 * s))) rest
  end.

(** One turn of [for i, index in enumerate(indices)]. *)
Definition mosaic_step `{Cv2} (fs : gmap string file) (self : Dataset)
    (acc : Image * list LabelArr * list (Z * Z * Z * Z)) (qi : Quadrant * nat)
  : result (Image * list LabelArr * list (Z * Z * Z * Z)) :=
  let '(img4, labels4, placed) := acc in
  let '(i, index) := qi in
  let s := img_size self in
  let '(yc, xc) := (s, s) in
  '(img, _, (h, w)) ← load_image fs self index;
  let '(a, b) := mosaic_place i s xc yc h w in
  img4 ← slice_assign img4 a img b;
  let padw := a.1.1.1 - b.1.1.1 in
  let padh := a.1.1.2 - b.1.1.2 in
  x ← index_error (labels self !! index);
  lbl ← place_labels w h padw padh x;
  Ok (img4, labels4 ++ [lbl], placed ++ [a]).

(** A loop that threads an accumulator and stops at the first exception. *)
Fixpoint for_each {A B} (f : A -> B -> result A) (acc : A) (l : list B) : result A :=
  match l with
  | [] => Ok acc
  | b :: l => acc ← f acc b; for_each f acc l
  end.

Definition quadrants : list Quadrant := [TopLeft; TopRight; BottomLeft; BottomRight].

(** Lines 560-592 of [load_mosaic]: the canvas, the four label sets, clipped,
    and the canvas rectangle of each source.  The canvas is allocated at
    the first turn of the loop. *)
Definition mosaic_compose `{Cv2} (fs : gmap string file) (self : Dataset) (index : nat)
  : Rand (Image * LabelArr * list nat * list (Z * Z * Z * Z)) :=
  let s := img_size self in
  let hi := Z.of_nat (length (labels self)) - 1 in
  i1 ← randint 0 hi;
  i2 ← randint 0 hi;
  i3 ← randint 0 hi;
  let indices := [index; Z.to_nat i1; Z.to_nat i2; Z.to_nat i3] in
  let img4 := np_full (s * 2) (s * 2) gray114 in
  '(img4, labels4, placed) ←
     lift (for_each (mosaic_step fs self) (img4, [], []) (zip quadrants indices));
  let labels4 := map (clip_row s) (concat labels4) in
  mret (img4, labels4, indices, placed).

(** [load_mosaic] *)
Definition load_mosaic `{Cv2} `{MathLib} (fs : gmap string file) (self : Dataset)
    (index : nat) : Rand (Image * LabelArr) :=
  '(img4, labels4, _, _) ← mosaic_compose fs self index;
  match hyp self with
  | None => lift (Err (TypeError "'NoneType' object is not subscriptable"))
  | Some hy =>
      random_perspective img4 labels4 (degrees hy) (translate hy) (scale hy)
        (shear hy) (perspective hy) (mosaic_border self)
  end.

(** ** Cutout *)

(** [bbox_ioa(box1, box2)] for one row of [labels[:, 1:5]]: the
    intersection over the area of the label's box. *)
Definition bbox_ioa (box1 : Q * Q * Q * Q) (r : list Q) : Q :=
  let '(b1_x1, b1_y1, b1_x2, b1_y2) := box1 in
  let '(b2_x1, b2_y1, b2_x2, b2_y2) := (col r 1, col r 2, col r 3, col r 4) in
  let inter_area :=
    (Qmax (Qmin b1_x2 b2_x2 - Qmax b1_x1 b2_x1) 0
     * Qmax (Qmin b1_y2 b2_y2 - Qmax b1_y1 b2_y1) 0)%Q in
  let box2_area := ((b2_x2 - b2_x1) * (b2_y2 - b2_y1) + eps16)%Q in
  (inter_area / box2_area)%Q.

(** [[0.5] * 1 + [0.25] * 2 + [0.125] * 4 + [0.0625] * 8 + [0.03125] * 16] *)
Definition scales : list Q :=
  (replicate 1 0.5 ++ replicate 2 0.25 ++ replicate 4 0.125
   ++ replicate 8 0.0625 ++ replicate 16 0.03125)%Q.

(** What one turn of the loop of [cutout] masks: the scale, the rectangle
    [(xmin, ymin, xmax, ymax)] and its colour. *)
Record Mask := mkMask { m_scale : Q; m_box : Z * Z * Z * Z; m_color : pixel }.

Definition mask_boxQ (m : Mask) : Q * Q * Q * Q :=
  let '(xmin, ymin, xmax, ymax) := m_box m in
  (inject_Z xmin, inject_Z ymin, inject_Z xmax, inject_Z ymax).

(** The random rectangle and colour of one turn (lines 741-747). *)
Definition cutout_mask (h w : Z) (s : Q) : Rand Mask :=
  mask_h ← randint 1 (py_int (inject_Z h * s));
  mask_w ← randint 1 (py_int (inject_Z w * s));
  rx ← randint 0 w;
  let xmin := Z.max 0 (rx - mask_w / 2) in
  ry ← randint 0 h;
  let ymin := Z.max 0 (ry - mask_h / 2) in
  let xmax := Z.min w (xmin + mask_w) in
  let ymax := Z.min h (ymin + mask_h) in
  c0 ← randint 64 191;
  c1 ← randint 64 191;
  c2 ← randint 64 191;
  mret (mkMask s (xmin, ymin, xmax, ymax) (c0, c1, c2)).

(** One turn of [for s in scales]; the mask is recorded. *)
Definition cutout_step (h w : Z) (acc : Image * LabelArr * list Mask) (s : Q)
  : Rand (Image * LabelArr * list Mask) :=
  let '(image, labels, masks) := acc in
  m ← cutout_mask h w s;
  let '(xmin, ymin, xmax, ymax) := m_box m in
  let image := fill_rect image ymin ymax xmin xmax (m_color m) in
  if (0 <? length labels)%nat && Qltb 0.03 s then
    if forallb (fun r => (5 <=? length r)%nat) labels then
      mret (image, filter (fun r => Qltb (bbox_ioa (mask_boxQ m) r) 0.6 = true) labels,
            masks ++ [m])
    else lift (Err IndexError)
  else mret (image, labels, masks ++ [m]).

Fixpoint for_each_rand {A B} (f : A -> B -> Rand A) (acc : A) (l : list B) : Rand A :=
  match l with
  | [] => mret acc
  | b :: l => acc ← f acc b; for_each_rand f acc l
  end.

Definition cutout_loop (image : Image) (labels : LabelArr)
  : Rand (Image * LabelArr * list Mask) :=
  let '(h, w) := (rows image, cols image) in
  for_each_rand (cutout_step h w) (image, labels, []) scales.

(** [cutout]: the labels it returns, and the image it has painted in place. *)
Definition cutout (image : Image) (labels : LabelArr) : Rand (Image * LabelArr) :=
  '(image, labels, _) ← cutout_loop image labels;
  mret (image, labels).

(** ** [__getitem__] without mosaic (lines 476-487) *)

(** Lines 484-487 on one row of [x]: the box [(cx, cy, w, h)], relative to
    the loaded image of [h] x [w], as corners in pixels of the letterboxed
    image. *)
Definition frame_row (ratio pad : Q * Q) (w h : Z) (r : list Q) : list Q :=
  set_box r
    (ratio.1 * inject_Z w * (col r 1 - col r 3 / 2) + pad.1,
     ratio.2 * inject_Z h * (col r 2 - col r 4 / 2) + pad.2,
     ratio.1 * inject_Z w * (col r 1 + col r 3 / 2) + pad.1,
     ratio.2 * inject_Z h * (col r 2 + col r 4 / 2) + pad.2)%Q.

(** Lines 480-487: [labels], the empty list when [x.size] is 0. *)
Definition frame_labels (ratio pad : Q * Q) (w h : Z) (x : LabelArr) : result LabelArr :=
  if (0 <? arr_size x)%nat then
    if forallb (fun r => (5 <=? length r)%nat) x
    then Ok (map (frame_row ratio pad w h) x)
    else Err IndexError
  else Ok [].

(** Lines 476-487, the branch of [__getitem__] for a dataset without
    mosaic.  [shape] is the value of line 477,
    [self.batch_shapes[self.batch[index]] if self.rect else self.img_size].
    The result is [img], [labels] and [shapes]. *)
Definition getitem_letterbox `{Cv2} (fs : gmap string file) (self : Dataset)
    (index : nat) (shape : Z + Z * Z)
  : result (Image * LabelArr * ((Z * Z) * ((Q * Q) * (Q * Q)))) :=
  '(img, (h0, w0), (h, w)) ← load_image fs self index;
  '(img, ratio, pad) ← letterbox img shape gray114 false false (augment self);
  if (h0 =? 0) || (w0 =? 0) then Err ZeroDivisionError else
  let shapes :=
    ((h0, w0), ((inject_Z h / inject_Z h0, inject_Z w / inject_Z w0)%Q, pad)) in
  x ← index_error (labels self !! index);
  labels ← frame_labels ratio pad w h x;
  Ok (img, labels, shapes).

(** ** [collate_fn] (lines 521-526) *)

(** [l[:, 0] = i]: column 0 has to exist.  An array without rows is the
    [(0, 6)] array of [labels_out]. *)
Definition set_index (i : nat) (l : LabelArr) : result LabelArr :=
  if forallb (fun r => (0 <? length r)%nat) l
  then Ok (map (fun r => <[0%nat := inject_Z (Z.of_nat i)]> r) l)
  else Err IndexError.

(** [for i, l in enumerate(label): l[:, 0] = i], counting from [i]. *)
Fixpoint index_labels (i : nat) (label : list LabelArr) : result (list LabelArr) :=
  match label with
  | [] => Ok []
  | l :: label =>
      l ← set_index i l;
      label ← index_labels (S i) label;
      Ok (l :: label)
  end.

(** All elements of [l] have one image under [f]. *)
Definition same_by {A B} `{EqDecision B} (f : A -> B) (l : list A) : bool :=
  match l with
  | [] => true
  | x :: rest => forallb (fun y => bool_decide (f y = f x)) rest
  end.

(** [paddle.stack(x=img, axis=0)]: the images have one shape. *)
Definition paddle_stack (img : list Image) : result (list Image) :=
  if same_by (fun i => (rows i, cols i)) img then Ok img
  else Err (ValueError "stack: the shapes of the inputs differ").

(** [paddle.concat(x=label, axis=0)]: the rows have one length. *)
Definition paddle_concat (label : list LabelArr) : result LabelArr :=
  if same_by length (concat label) then Ok (concat label)
  else Err (ValueError "concat: the shapes of the inputs differ").

(** [collate_fn(batch)] on samples [(img, label, path, shapes)] whose label
    tensors are distinct objects.  The unpacking of [zip] raises on an empty
    batch. *)
Definition collate_fn {P S : Type} (batch : list (Image * LabelArr * P * S))
  : result (list Image * LabelArr * list P * list S) :=
  match batch with
  | [] => Err (ValueError "not enough values to unpack (expected 4, got 0)")
  | _ =>
      let img := map (fun b => b.1.1.1) batch in
      let label := map (fun b => b.1.1.2) batch in
      let path := map (fun b => b.1.2) batch in
      let shapes := map (fun b => b.2) batch in
      label ← index_labels 0 label;
      img ← paddle_stack img;
      label ← paddle_concat label;
      Ok (img, label, path, shapes)
  end.

(** ** [__getitem__]: the random flips (lines 505-513) *)

(** [np.flipud(img)] and [np.fliplr(img)] *)
Definition np_flipud (img : Image) : Image :=
  mkImage (rows img) (cols img) (fun y x => px img (rows img - 1 - y) x).

Definition np_fliplr (img : Image) : Image :=
  mkImage (rows img) (cols img) (fun y x => px img y (cols img - 1 - x)).

(** [labels[:, k] = 1 - labels[:, k]] *)
Definition mirror_col (k : nat) (labels : LabelArr) : result LabelArr :=
  if forallb (fun r => (k <? length r)%nat) labels
  then Ok (map (fun r => <[k := (1 - col r k)%Q]> r) labels)
  else Err IndexError.

(** One of the two flips: [flip] of the image, and column [k] of the labels
    when there are any. *)
Definition flip_with (p : Q) (flip : Image -> Image) (k : nat)
    (acc : Image * LabelArr) : Rand (Image * LabelArr) :=
  let '(img, labels) := acc in
  u ← random;
  if Qltb u p then
    labels ← lift (if (0 <? length labels)%nat then mirror_col k labels else Ok labels);
    mret (flip img, labels)
  else mret (img, labels).

(** Lines 505-513; [labels] are the normalised [(class, cx, cy, w, h)]. *)
Definition getitem_flips (self : Dataset) (img : Image) (labels : LabelArr)
  : Rand (Image * LabelArr) :=
  if augment self then
    match hyp self with
    | None =>
        _ ← random; lift (Err (TypeError "'NoneType' object is not subscriptable"))
    | Some hy =>
        acc ← flip_with (flipud hy) np_flipud 2 (img, labels);
        flip_with (fliplr hy) np_fliplr 1 acc
    end
  else mret (img, labels).

(** ** [augment_hsv]: the lookup tables (lines 546-552) *)

(** Python's [%] on floats, for a positive modulus. *)
Definition Qmod (a m : Q) : Q := (a - m * inject_Z (Qfloor (a / m)))%Q.

(** An entry of [r]: the draw [u] of [np.random.uniform(-1, 1, 3)] times
    its gain, plus 1. *)
Definition hsv_gain (u gain : Q) : Q := (u * gain + 1)%Q.

(** [.astype(dtype)] for [uint8]. *)
Definition to_uint8 (v : Q) : Z := py_int v mod 256.

(** The entry [x] of [lut_hue]. *)
Definition lut_hue (r : Q) (x : Z) : Z := to_uint8 (Qmod (inject_Z x * r) 180).

(** The entry [x] of [lut_sat] and of [lut_val]. *)
Definition lut_clip (r : Q) (x : Z) : Z := to_uint8 (Qclip 0 255 (inject_Z x * r)).

(** ** Sample inputs *)

Definition blank (h w : Z) : Image := mkImage h w (fun _ _ => (0, 0, 0)).

(** Nearest-neighbour resampling and a constant warp stand for OpenCV's
    kernels in the examples. *)
Definition sample_cv2 : Cv2 :=
  {| cv2_resize_px := fun img d _ y x =>
       px img (y * rows img / d.2) (x * cols img / d.1);
     cv2_warp_px := fun _ _ _ _ _ _ => gray114 |}.

Definition sample_pickle : Pickle := fun c => N.of_nat (size c).

Definition one_box : list (list token) :=
  [[Num 0; Num 0.5; Num 0.5; Num 0.2; Num 0.2]]%Q.

(** One image with its label file, one image without a label file, and a
    cache written when [a.txt] was the only label file. *)
Definition fs_ab : gmap string file :=
  <["data/images/a.jpg" := mkFile 100 (CImage (Some (blank 20 30)) None)]>
  (<["data/images/b.jpg" := mkFile 50 (CImage (Some (blank 40 40)) None)]>
  (<["data/labels/a.txt" := mkFile 24 (CText one_box)]> ∅)).

Definition imgs_ab : list string := ["data/images/a.jpg"; "data/images/b.jpg"].
Definition lbls_ab : list string := ["data/labels/a.txt"; "data/labels/b.txt"].

Definition world_ab : World := mkWorld fs_ab [].

(** The world after a first scan of [world_ab]. *)
Definition world_ab_cached : World :=
  (@cache_labels sample_pickle imgs_ab lbls_ab "data/labels.cache" world_ab).2.

Definition cache_ab : gmap string centry :=
  (@cache_labels sample_pickle imgs_ab lbls_ab "data/labels.cache" world_ab).1.

(** [world_ab_cached] after the missing label file [b.txt] was created, empty. *)
Definition world_ab_touched : World :=
  mkWorld (<["data/labels/b.txt" := mkFile 0 (CText [])]> (fs world_ab_cached))
          (out world_ab_cached).

(** An image that can not be decoded, a sound image with its label, and an
    image whose label file has a field that is not a number. *)
Definition fs_bad : gmap string file :=
  <["data/images/a.jpg" := mkFile 10 (CImage None None)]>
  (<["data/images/b.jpg" := mkFile 50 (CImage (Some (blank 20 30)) None)]>
  (<["data/labels/b.txt" := mkFile 24 (CText one_box)]>
  (<["data/images/c.jpg" := mkFile 60 (CImage (Some (blank 20 30)) None)]>
  (<["data/labels/c.txt" := mkFile 7 (CText [[Num 0; Junk]])]> ∅)))).

Definition world_bad : World := mkWorld fs_bad [].

Definition args_bad : Args :=
  mkArgs ["data/images/a.jpg"; "data/images/b.jpg"; "data/images/c.jpg"]
         ["data/labels/a.txt"; "data/labels/b.txt"; "data/labels/c.txt"]
         "data/labels.cache" 640 16 false None false false false false 32 0.

(** A label file with a coordinate above 1, and one whose two rows are the
    same. *)
Definition fs_labels : gmap string file :=
  <["data/images/a.jpg" := mkFile 100 (CImage (Some (blank 20 30)) None)]>
  (<["data/labels/a.txt" := mkFile 24 (CText (one_box ++ one_box))]>
  (<["data/images/b.jpg" := mkFile 50 (CImage (Some (blank 20 30)) None)]>
  (<["data/labels/b.txt" := mkFile 24
       (CText [[Num 0; Num 0.5; Num 0.5; Num 1.2; Num 0.2]]%Q)]> ∅))).

Definition args_dup : Args :=
  mkArgs ["data/images/a.jpg"] ["data/labels/a.txt"]
         "data/labels.cache" 640 16 false None false false false false 32 0.

Definition args_oob : Args :=
  mkArgs ["data/images/a.jpg"; "data/images/b.jpg"]
         ["data/labels/a.txt"; "data/labels/b.txt"]
         "data/labels.cache" 640 16 false None false false false false 32 0.

(** Three images of aspect ratio (height over width) 0.5, 1 and 2, without
    labels, loaded with rectangular batching. *)
Definition fs_rect : gmap string file :=
  <["data/images/a.jpg" := mkFile 100 (CImage (Some (blank 100 200)) None)]>
  (<["data/images/b.jpg" := mkFile 100 (CImage (Some (blank 100 100)) None)]>
  (<["data/images/c.jpg" := mkFile 100 (CImage (Some (blank 200 100)) None)]> ∅)).

Definition args_rect : Args :=
  mkArgs ["data/images/a.jpg"; "data/images/b.jpg"; "data/images/c.jpg"]
         ["data/labels/a.txt"; "data/labels/b.txt"; "data/labels/c.txt"]
         "data/labels.cache" 640 3 false None true false false false 32 0.

(** The [(width, height)] of three images of aspect ratio 0.5, 1 and 2. *)
Definition wide_shape : Q * Q := (200, 100)%Q.
Definition tall_shape : Q * Q := (100, 200)%Q.
Definition shapes_mixed : list (Q * Q) := [wide_shape; (100, 100)%Q; tall_shape].

(** Taylor polynomials stand for libm in the examples; they are exact at
    the angle 0. *)
Definition rad (a : Q) : Q := (a * (355 # 113) / 180)%Q.

Definition sample_math : MathLib :=
  {| cos_deg := fun a => (1 - rad a * rad a / 2)%Q;
     sin_deg := fun a => rad a;
     tan_deg := fun a => rad a |}.

(** A generator whose raw draws count up from 7. *)
Definition sample_rng : Rng := mkRng (fun i => N.of_nat (7 + i)) 0.


(** ** Sample inputs of the further properties *)

(** [world_ab_cached] after the label file [a.txt] was rewritten with another
    box, in as many bytes. *)
Definition other_box : list (list token) :=
  [[Num 1; Num 0.4; Num 0.4; Num 0.1; Num 0.1]]%Q.

Definition world_ab_edited : World :=
  mkWorld (<["data/labels/a.txt" := mkFile 24 (CText other_box)]> (fs world_ab_cached))
          (out world_ab_cached).

(** The cache of the three images of [fs_rect]. *)
Definition cache_rect : gmap string centry :=
  (@cache_labels sample_pickle (a_img_files args_rect) (a_label_files args_rect)
     (a_cache_path args_rect) (mkWorld fs_rect [])).1.

(** The [(width, height)] of two images that are wider than high. *)
Definition shapes_wide : list (Q * Q) := [(200, 100); (200, 120)]%Q.

(** A label [(class, cx, cy, w, h)] whose box lies within its image. *)
Definition fair_label : list Q := [0; 0.5; 0.5; 0.2; 0.2]%Q.

(** The identity hyperparameters, and a dataset of the two images of
    [fs_ab] with an image size of 32, as construction builds it for
    training. *)
Definition hyp_id : Hyp := mkHyp 0 0 0 0 0 0 0 0 0 0 0.

Definition ds_two : Dataset :=
  mkDataset 2 [0; 0] 32 true (Some hyp_id) false false true ((- 32) / 2, (- 32) / 2) 32
    imgs_ab lbls_ab [(30, 20); (40, 40)]%Q [[fair_label]; []] None
    [None; None] [] [].

(** The same dataset built without hyperparameters. *)
Definition ds_inference : Dataset :=
  mkDataset 2 [0; 0] 32 false None false false false ((- 32) / 2, (- 32) / 2) 32
    imgs_ab lbls_ab [(30, 20); (40, 40)]%Q [[fair_label]; []] None
    [None; None] [] [].


(** The two images of [fs_ab], preloaded at an image size of 32. *)
Definition args_preload : Args :=
  mkArgs imgs_ab lbls_ab "data/labels.cache" 32 16 false None false false true false 32 0.

(** A row of [labels_out] and a batch of two samples with one and two
    labels. *)
Definition row6 : list Q := [0; 1; 0.5; 0.5; 0.2; 0.2]%Q.

Definition batch_two : list (Image * LabelArr * string * unit) :=
  [(blank 32 32, [row6], "a", tt); (blank 32 32, [row6; row6], "b", tt)].

(** Hyperparameters that always flip top to bottom and never left to right,
    and a dataset for training with them. *)
Definition hyp_flip : Hyp := mkHyp 0 0 0 0 0 0 0 0 1 0 0.

Definition ds_flip : Dataset :=
  mkDataset 2 [0; 0] 32 true (Some hyp_flip) false false true ((- 32) / 2, (- 32) / 2) 32
    imgs_ab lbls_ab [(30, 20); (40, 40)]%Q [[fair_label]; []] None
    [None; None] [] [].

(** * Properties *)

(** ** The content hash *)

Definition N_sum (l : list N) : N := foldr N.add 0%N l.

Lemma isfile_true fs p : isfile fs p = true <-> is_Some (fs !! p).
Proof. unfold isfile. apply bool_decide_eq_true. Qed.

Lemma isfile_false fs p : isfile fs p = false <-> fs !! p = None.
Proof.
  unfold isfile. rewrite bool_decide_eq_false. split.
  - intros Hn. destruct (fs !! p) eqn:E; [|done]. destruct Hn; eauto.
  - intros -> [x Hx]. discriminate.
Qed.

Lemma get_hash_sum fs files :
  get_hash fs files = N_sum (omap (fun f => fsize <$> fs !! f) files).
Proof.
  induction files as [|f files IH]; [done|].
  cbn [get_hash omap list_omap]. unfold getsize.
  destruct (fs !! f) as [fl|] eqn:E.
  - assert (isfile fs f = true) as -> by (apply isfile_true; rewrite E; eauto).
    cbn. by rewrite IH.
  - assert (isfile fs f = false) as -> by (by apply isfile_false).
    cbn. exact IH.
Qed.


(** Creating an empty file leaves every hash as it was. *)
Lemma get_hash_insert_empty fs files p c :
  fs !! p = None -> get_hash (<[p := mkFile 0 c]> fs) files = get_hash fs files.
Proof.
  intros Hmiss. induction files as [|f files IH]; [done|].
  cbn [get_hash]. destruct (decide (p = f)) as [->|Hne].
  - assert (isfile (<[f := mkFile 0 c]> fs) f = true) as ->.
    { apply isfile_true. rewrite lookup_insert_eq. eauto. }
    assert (isfile fs f = false) as -> by (by apply isfile_false).
    unfold getsize. rewrite lookup_insert_eq. cbn. exact IH.
  - unfold isfile, getsize. rewrite lookup_insert_ne by done. by rewrite IH.
Qed.

(** ** The cache decision of construction *)


Section CacheDecision.
Context `{Pickle}.
Variables (img_files label_files : list string) (cache_path : string).

Let scan := cache_labels img_files label_files cache_path.
Let construct := load_or_scan img_files label_files cache_path.






Lemma load_or_scan_valid w cache h :
  paddle_load (fs w) cache_path = Ok cache ->
  cache !! "hash" = Some (CHash h) ->
  h = get_hash (fs w) (label_files ++ img_files) ->
  construct w = (Ok cache, w).
Proof.
  intros Hload Hh ->. subst construct. unfold load_or_scan.
  assert (isfile (fs w) cache_path = true) as ->.
  { apply isfile_true. unfold paddle_load in Hload.
    destruct (fs w !! cache_path); [eauto | discriminate]. }
  rewrite Hload, Hh. by rewrite N.eqb_refl.
Qed.


Lemma load_or_scan_no_cache w :
  isfile (fs w) cache_path = false ->
  construct w = (Ok (scan w).1, (scan w).2).
Proof.
  intros Hno. subst construct scan. unfold load_or_scan. rewrite Hno.
  by destruct (cache_labels _ _ _ _).
Qed.
End CacheDecision.



(** C10.  [get_hash] is the sum of the sizes of the paths that are files, a
    missing path adding nothing; creating a missing file with no bytes leaves
    every hash as it was, and a construction that finds the persisted cache
    valid before finds it valid after: it returns the cache and does not
    scan. *)
Theorem get_hash_ignores_missing_and_empty `{Pickle}
    (img_files label_files : list string) (cache_path p : string) (w : World)
    (c : content) (cache : gmap string centry) (h : N)
    (Hmissing : fs w !! p = None)
    (Hload : paddle_load (fs w) cache_path = Ok cache)
    (Hhash : cache !! "hash" = Some (CHash h))
    (Hvalid : h = get_hash (fs w) (label_files ++ img_files)) :
  let w' := mkWorld (<[p := mkFile 0 c]> (fs w)) (out w) in
  (forall files, get_hash (fs w) files
                 = N_sum (omap (fun f => fsize <$> fs w !! f) files))
  /\ (forall files, p ∉ files -> get_hash (fs w) (p :: files) = get_hash (fs w) files)
  /\ (forall files, get_hash (fs w') files = get_hash (fs w) files)
  /\ load_or_scan img_files label_files cache_path w' = (Ok cache, w').
Proof.
  intros w'.
  split; [intros files; apply get_hash_sum|].
  split.
  { intros files _. cbn [get_hash].
    assert (isfile (fs w) p = false) as -> by (by apply isfile_false). done. }
  split; [intros files; by apply get_hash_insert_empty|].
  assert (Hne : p <> cache_path).
  { intros ->. unfold paddle_load in Hload. by rewrite Hmissing in Hload. }
  eapply load_or_scan_valid.
  - subst w'. cbn. unfold paddle_load. rewrite lookup_insert_ne by done. exact Hload.
  - exact Hhash.
  - subst w'. cbn. by rewrite get_hash_insert_empty.
Qed.

Lemma get_hash_ignores_missing_and_empty_witness :
  fs world_ab_cached !! "data/labels/b.txt" = None
  /\ get_hash (fs world_ab_touched) (lbls_ab ++ imgs_ab) = 174%N
  /\ @load_or_scan sample_pickle imgs_ab lbls_ab "data/labels.cache" world_ab_touched
     = (Ok cache_ab, world_ab_touched).
Proof.
  assert (Hmissing : fs world_ab_cached !! "data/labels/b.txt" = None)
    by (vm_compute; reflexivity).
  assert (Hload : paddle_load (fs world_ab_cached) "data/labels.cache" = Ok cache_ab)
    by (vm_compute; reflexivity).
  assert (Hhash : cache_ab !! "hash" = Some (CHash 174))
    by (vm_compute; reflexivity).
  assert (Hvalid : 174%N = get_hash (fs world_ab_cached) (lbls_ab ++ imgs_ab))
    by (vm_compute; reflexivity).
  pose proof (get_hash_ignores_missing_and_empty (H := sample_pickle)
                imgs_ab lbls_ab "data/labels.cache" "data/labels/b.txt"
                world_ab_cached (CText []) cache_ab 174
                Hmissing Hload Hhash Hvalid) as (_ & _ & Hsame & Hskip).
  split; [exact Hmissing|]. split; [|exact Hskip].
  etransitivity; [apply Hsame|]. symmetry. exact Hvalid.
Defined.

(** ** Failed scans *)

Lemma mapM_result_Forall2 {A B} (f : A -> result B) l k :
  mapM f l = Ok k -> Forall2 (fun x y => f x = Ok y) l k.
Proof.
  revert k. induction l as [|x l IH]; intros k; cbn.
  - intros [= <-]. constructor.
  - destruct (f x) as [y|e] eqn:Hx; cbn; [|discriminate].
    destruct (mapM f l) as [k'|e]; cbn; [|discriminate].
    intros [= <-]. constructor; [exact Hx|by apply IH].
Qed.

Lemma mapM_result_length {A B} (f : A -> result B) l k :
  mapM f l = Ok k -> length k = length l.
Proof. intros Hm. symmetry. by eapply Forall2_length, mapM_result_Forall2. Qed.

(** An entry that is [None] makes the unpacking of the cache raise. *)
Lemma unzip_items_none items :
  CItem None ∈ items -> exists e, unzip_items items = Err e.
Proof.
  intros Hin. unfold unzip_items.
  destruct (mapM _ items) as [pairs|e] eqn:Hm; cbn; [|eauto].
  apply mapM_result_Forall2 in Hm.
  apply list_elem_of_lookup in Hin as [i Hi].
  destruct (Forall2_lookup_l _ _ _ _ _ Hm Hi) as (p & _ & Hp). discriminate.
Qed.

(** Construction raises as soon as the cache it got holds [None] for one of
    its images. *)
Lemma init_raises_on_failed_scan `{Pickle} `{Cv2} (a : Args) (w w1 : World)
    (cache : gmap string centry) (x : string) :
  load_or_scan (a_img_files a) (a_label_files a) (a_cache_path a) w = (Ok cache, w1) ->
  x ∈ a_img_files a ->
  cache !! x = Some (CItem None) ->
  exists e, (init a w).1 = Err e.
Proof.
  intros Hload Hx Hnone. unfold init.
  destruct (length (a_img_files a) =? 0)%nat; [cbn; eauto|].
  rewrite Hload. unfold arrange.
  destruct (cache_items cache (a_img_files a)) as [items|e] eqn:Hitems; cbn; [|eauto].
  assert (CItem None ∈ items) as Hin.
  { apply mapM_result_Forall2 in Hitems.
    apply list_elem_of_lookup in Hx as [i Hi].
    destruct (Forall2_lookup_l _ _ _ _ _ Hitems Hi) as (v & Hv & Hlook).
    rewrite Hnone in Hlook. injection Hlook as <-.
    apply list_elem_of_lookup. eauto. }
  destruct (unzip_items_none items Hin) as [e ->]. cbn. eauto.
Qed.

(** C9.  At a dataset with an undecodable image, a sound one and one with a
    malformed label file: [cache_labels] records [None] for the two that
    fail, goes on to scan the sound one, and prints a warning for each
    failure; construction then raises [TypeError] when it unpacks the
    entries, instead of keeping the failed samples as samples without
    labels. *)
Theorem failed_scan_aborts_construction :
  let scan := @cache_labels sample_pickle (a_img_files args_bad)
                (a_label_files args_bad) (a_cache_path args_bad) world_bad in
  scan.1 !! "data/images/a.jpg" = Some (CItem None)
  /\ scan.1 !! "data/images/b.jpg"
     = Some (CItem (Some ([[0; 0.5; 0.5; 0.2; 0.2]%Q], (30, 20))))
  /\ scan.1 !! "data/images/c.jpg" = Some (CItem None)
  /\ out scan.2
     = [Progress "Scanning images";
        Warning "data/images/a.jpg" (OSError "data/images/a.jpg");
        Warning "data/images/c.jpg" (ValueError "could not convert string to float")]
  /\ (@init sample_pickle sample_cv2 args_bad world_bad).1
     = Err (TypeError "'NoneType' object is not iterable").
Proof. vm_compute. repeat split. Qed.

(** ** Label validation *)

(** The three checks of the label loop. *)
Definition label_valid (l : LabelArr) : bool :=
  (shape1 l =? 5)%nat && all_nonneg l && coords_le_1 l.

(** [np.unique(l, axis=0).shape[0] < l.shape[0]] *)
Definition has_duplicate (l : LabelArr) : bool := (unique_rows l <? length l)%nat.

(** [l[:, 0] = 0] when [single_cls] is set. *)
Definition collapse_cls (single_cls : bool) (l : LabelArr) : LabelArr :=
  if single_cls then map (fun r => <[0%nat := 0%Q]> r) l else l.

Definition count_if {A} (p : A -> bool) (l : list A) : nat :=
  length (List.filter p l).

Definition nonempty (l : LabelArr) : bool := (0 <? length l)%nat.

Lemma check_label_ok sc file l st l' st' :
  check_label sc file l st = Ok (l', st') ->
  (nonempty l = true -> label_valid l = true)
  /\ l' = collapse_cls sc l
  /\ nd st' = (nd st + (if has_duplicate l then 1 else 0))%nat
  /\ nf st' = (nf st + (if nonempty l then 1 else 0))%nat
  /\ ne st' = (ne st + (if nonempty l then 0 else 1))%nat.
Proof.
  unfold check_label, label_valid, has_duplicate, nonempty.
  destruct (0 <? length l)%nat eqn:Hlen.
  - destruct (unique_rows l <? length l)%nat;
      (destruct (shape1 l =? 5)%nat; cbn; [|discriminate]);
      (destruct (all_nonneg l); cbn; [|discriminate]);
      (destruct (coords_le_1 l); cbn; [|discriminate]);
      intros [= <- <-]; cbn; repeat split; lia.
  - intros [= <- <-]. apply Nat.ltb_ge in Hlen.
    assert (l = []) as -> by (destruct l; [done|cbn in Hlen; lia]).
    split; [discriminate|]. split; [by destruct sc|].
    cbn. repeat split; lia.
Qed.

Lemma check_label_bad sc file l st :
  nonempty l = true -> label_valid l = false ->
  exists msg, check_label sc file l st = Err (AssertionError msg).
Proof.
  unfold check_label, label_valid, nonempty. intros -> Hbad.
  destruct (shape1 l =? 5)%nat; cbn; [|eauto].
  destruct (all_nonneg l); cbn; [|eauto].
  destruct (coords_le_1 l); cbn; [discriminate|eauto].
Qed.

Lemma check_label_result sc file l st :
  (exists l' st', check_label sc file l st = Ok (l', st'))
  \/ (exists msg, check_label sc file l st = Err (AssertionError msg)).
Proof.
  unfold check_label.
  destruct (0 <? length l)%nat; [|left; eauto].
  destruct (shape1 l =? 5)%nat; cbn; [|right; eauto].
  destruct (all_nonneg l); cbn; [|right; eauto].
  destruct (coords_le_1 l); cbn; [left; eauto|right; eauto].
Qed.

Lemma label_loop_ok sc files labels st ls st' :
  length files = length labels ->
  label_loop sc files labels st = Ok (ls, st') ->
  Forall (fun l => nonempty l = true -> label_valid l = true) labels
  /\ ls = map (collapse_cls sc) labels
  /\ nd st' = (nd st + count_if has_duplicate labels)%nat
  /\ nf st' = (nf st + count_if nonempty labels)%nat
  /\ ne st' = (ne st + count_if (fun l => negb (nonempty l)) labels)%nat.
Proof.
  revert labels st ls st'.
  induction files as [|file files IH]; intros [|l labels] st ls st' Hlen;
    cbn [label_loop]; try discriminate.
  - intros [= <- <-]. unfold count_if. cbn. rewrite !Nat.add_0_r.
    split; [constructor|done].
  - destruct (check_label sc file l st) as [[l1 st1]|e] eqn:Hc; cbn [mbind result_bind];
      [|discriminate].
    destruct (label_loop sc files labels st1) as [[ls2 st2]|e] eqn:Hl;
      cbn [mbind result_bind]; [|discriminate].
    intros [= <- <-].
    apply check_label_ok in Hc as (Hv & -> & Hnd & Hnf & Hne).
    apply IH in Hl as (Hall & -> & Hnd' & Hnf' & Hne'); [|cbn in Hlen; lia].
    unfold count_if in *. cbn [List.filter].
    split; [by constructor|]. split; [done|].
    destruct (has_duplicate l), (nonempty l); cbn [negb length]; lia.
Qed.

Lemma label_loop_bad sc files labels st :
  length files = length labels ->
  Exists (fun l => nonempty l = true /\ label_valid l = false) labels ->
  exists msg, label_loop sc files labels st = Err (AssertionError msg).
Proof.
  intros Hlen Hex. revert files st Hlen.
  induction Hex as [l labels [Hne Hbad]|l labels Hex IH]; intros [|file files] st Hlen;
    try discriminate; cbn.
  - destruct (check_label_bad sc file l st Hne Hbad) as [msg ->]. cbn. eauto.
  - destruct (check_label_result sc file l st) as [(l' & st' & ->)|[msg ->]];
      cbn; [|eauto].
    destruct (IH files st') as [msg ->]; [cbn in Hlen; lia|]. cbn. eauto.
Qed.

Lemma take_idx_length_eq {A B} (l1 : list A) (l2 : list B) (ix : list nat) :
  length l1 = length l2 -> length (take_idx l1 ix) = length (take_idx l2 ix).
Proof.
  intros Hlen. unfold take_idx. induction ix as [|i ix IH]; [done|].
  cbn [omap list_omap].
  destruct (l1 !! i) as [x|] eqn:H1, (l2 !! i) as [y|] eqn:H2; cbn; try lia.
  - apply lookup_lt_Some in H1. apply lookup_ge_None in H2. lia.
  - apply lookup_ge_None in H1. apply lookup_lt_Some in H2. lia.
Qed.

Lemma arrange_lengths (a : Args) r bi nb cache f lf ls sh bs :
  length (a_label_files a) = length (a_img_files a) ->
  arrange a r bi nb cache = Ok (f, lf, ls, sh, bs) ->
  length lf = length ls.
Proof.
  intros Hlen. unfold arrange.
  destruct (cache_items cache (a_img_files a)) as [items|e] eqn:Hitems;
    cbn [mbind result_bind]; [|discriminate].
  unfold unzip_items.
  destruct (mapM _ items) as [pairs|e] eqn:Hpairs; cbn [mbind result_bind];
    [|discriminate].
  apply mapM_result_length in Hitems. apply mapM_result_length in Hpairs.
  destruct r.
  - destruct (rect_batch_shapes _ _ _ _ _ _) as [[irect bs']|e];
      cbn [mbind result_bind]; [|discriminate].
    intros [= <- <- <- <- <-]. apply take_idx_length_eq.
    rewrite length_map. lia.
  - intros [= <- <- <- <- <-]. rewrite length_map. lia.
Qed.

Lemma cache_images_loop_labels `{Cv2} fs self idx self' :
  cache_images_loop fs self idx = Ok self' -> labels self' = labels self.
Proof.
  revert self. induction idx as [|i idx IH]; intros self; cbn [cache_images_loop].
  - by intros [= <-].
  - destruct (load_image fs self i) as [[[img hw0] hw]|e]; cbn [mbind result_bind];
      [|discriminate].
    intros Hl. by apply IH in Hl.
Qed.

Lemma init_finish_ok `{Cv2} a w f lf sh bs ls st ds st' :
  (init_finish a w f lf sh bs ls st).1 = Ok (ds, st') ->
  labels ds = ls /\ st' = st.
Proof.
  unfold init_finish.
  destruct ((nf st =? 0)%nat && a_augment a); [discriminate|].
  destruct (a_cache_images a).
  - destruct (cache_images_loop _ _ _) as [self|e] eqn:Hc; [|discriminate].
    cbn. intros [= <- <-]. by apply cache_images_loop_labels in Hc.
  - cbn. by intros [= <- <-].
Qed.

(** C7.  For the label arrays that construction takes from the cache: if a
    non-empty one has not exactly 5 columns, or a negative value, or a
    coordinate above 1, construction raises an [AssertionError] (it does
    not skip the file); and whenever construction returns a dataset, every
    non-empty array passed the three checks, the duplicate tally is the
    number of arrays with a repeated row, and the arrays of the dataset have
    all their rows (only the class column is zeroed under [single_cls]). *)
Theorem malformed_labels_abort_construction `{Pickle} `{Cv2}
    (a : Args) (w w1 : World) (cache : gmap string centry)
    (f lf : list string) (ls : list LabelArr) (sh : list (Q * Q))
    (bs : option (list (Z * Z)))
    (Hlen : length (a_label_files a) = length (a_img_files a))
    (Hn : a_img_files a <> [])
    (Hload : load_or_scan (a_img_files a) (a_label_files a) (a_cache_path a) w
             = (Ok cache, w1))
    (Harr : arrange a (init_rect a) (init_bi a) (init_nb a) cache
            = Ok (f, lf, ls, sh, bs)) :
  (Exists (fun l => nonempty l = true /\ label_valid l = false) ls ->
   exists msg, (init a w).1 = Err (AssertionError msg))
  /\ (forall ds st, (init a w).1 = Ok (ds, st) ->
        Forall (fun l => nonempty l = true -> label_valid l = true) ls
        /\ nd st = count_if has_duplicate ls
        /\ nf st = count_if nonempty ls
        /\ labels ds = map (collapse_cls (a_single_cls a)) ls
        /\ map length (labels ds) = map length ls).
Proof.
  assert (Hlf : length lf = length ls) by (by eapply arrange_lengths).
  assert (Hinit : init a w
                  = match label_loop (a_single_cls a) lf ls (mkStats 0 0 0 0 0) with
                    | Err e => (Err e, w1)
                    | Ok (ls', st) => init_finish a w1 f lf sh bs ls' st
                    end).
  { assert ((length (a_img_files a) =? 0)%nat = false) as Hpos
      by (destruct (a_img_files a); [done|reflexivity]).
    unfold init. rewrite Hpos, Hload, Harr. done. }
  rewrite Hinit. split.
  - intros Hbad.
    destruct (label_loop_bad (a_single_cls a) lf ls (mkStats 0 0 0 0 0) Hlf Hbad)
      as [msg ->].
    by exists msg.
  - intros ds st.
    destruct (label_loop _ _ _ _) as [[ls' st0]|e] eqn:Hloop; [|discriminate].
    intros Hfin. apply init_finish_ok in Hfin as [Hds ->].
    apply label_loop_ok in Hloop as (Hall & -> & Hnd & Hnf & _); [|done].
    cbn in Hnd, Hnf. repeat split; try done.
    rewrite Hds, map_map. apply map_ext. intros l.
    unfold collapse_cls. destruct (a_single_cls a); [by rewrite length_map|done].
Qed.

Lemma malformed_labels_abort_construction_witness :
  (exists msg, (@init sample_pickle sample_cv2 args_oob (mkWorld fs_labels [])).1
               = Err (AssertionError msg))
  /\ (exists ds st,
        (@init sample_pickle sample_cv2 args_dup (mkWorld fs_labels [])).1
        = Ok (ds, st)
        /\ nd st = 1%nat /\ map length (labels ds) = [2%nat]).
Proof.
  split.
  - eapply (malformed_labels_abort_construction (H := sample_pickle) (H0 := sample_cv2)
              args_oob (mkWorld fs_labels [])).
    + reflexivity.
    + discriminate.
    + vm_compute. reflexivity.
    + vm_compute. reflexivity.
    + apply Exists_cons_tl, Exists_cons_hd. split; vm_compute; reflexivity.
  - assert (exists ds st,
              (@init sample_pickle sample_cv2 args_dup (mkWorld fs_labels [])).1
              = Ok (ds, st)) as (ds & st & Hinit)
      by (vm_compute; eauto).
    exists ds, st. split; [exact Hinit|].
    edestruct (malformed_labels_abort_construction (H := sample_pickle)
                 (H0 := sample_cv2) args_dup (mkWorld fs_labels [])) as [_ Hs];
      [reflexivity | discriminate | vm_compute; reflexivity
      | vm_compute; reflexivity | ].
    destruct (Hs ds st Hinit) as (_ & Hnd & _ & _ & Hrows).
    split; [exact Hnd|exact Hrows].
Defined.

(** ** Rectangular batch shapes *)

(** The square shape: [img_size] rounded up to a multiple of the stride, on
    both sides. *)
Definition square_default (img_size stride : Z) : Z * Z :=
  let k := Qceiling (inject_Z img_size / inject_Z stride) * stride in
  (k, k).

Lemma Qltb_false (x y : Q) : Qltb x y = false <-> (y <= x)%Q.
Proof.
  unfold Qltb. rewrite negb_false_iff. apply Qle_bool_iff.
Qed.

Lemma Qltb_true (x y : Q) : Qltb x y = true <-> (x < y)%Q.
Proof.
  unfold Qltb. rewrite negb_true_iff. split.
  - intros Hb. apply Qnot_le_lt. intros Hle.
    apply Qle_bool_iff in Hle. congruence.
  - intros Hlt. destruct (Qle_bool y x) eqn:Hb; [|done].
    apply Qle_bool_iff in Hb. exfalso. by apply (Qlt_not_le x y).
Qed.

Lemma Qlist_min_le l m x :
  Qlist_min l = Some m -> x ∈ l -> (m <= x)%Q.
Proof.
  revert m. induction l as [|y l IH]; intros m; [intros _ Hx; by apply elem_of_nil in Hx|].
  cbn [Qlist_min]. intros [= <-] Hx.
  destruct (Qlist_min l) as [m'|] eqn:Hm; cbn.
  - apply elem_of_cons in Hx as [->|Hx].
    + apply Q.le_min_l.
    + eapply Qle_trans; [apply Q.le_min_r|]. by apply IH.
  - apply elem_of_cons in Hx as [->|Hx]; [apply Qle_refl|].
    destruct l; [by apply elem_of_nil in Hx|discriminate].
Qed.

Lemma Qlist_max_ge l m x :
  Qlist_max l = Some m -> x ∈ l -> (x <= m)%Q.
Proof.
  revert m. induction l as [|y l IH]; intros m; [intros _ Hx; by apply elem_of_nil in Hx|].
  cbn [Qlist_max]. intros [= <-] Hx.
  destruct (Qlist_max l) as [m'|] eqn:Hm; cbn.
  - apply elem_of_cons in Hx as [->|Hx].
    + apply Q.le_max_l.
    + eapply Qle_trans; [|apply Q.le_max_r]. by apply IH.
  - apply elem_of_cons in Hx as [->|Hx]; [apply Qle_refl|].
    destruct l; [by apply elem_of_nil in Hx|discriminate].
Qed.

(** A batch that has an aspect ratio on each side of 1 gets the square. *)
Lemma batch_rel_shape_mixed ari lo hi :
  lo ∈ ari -> hi ∈ ari -> (lo <= 1)%Q -> (1 <= hi)%Q ->
  batch_rel_shape ari = Ok (1%Q, 1%Q).
Proof.
  intros Hlo Hhi Hle Hge. unfold batch_rel_shape.
  destruct (Qlist_min ari) as [mini|] eqn:Hmin;
    [|destruct ari; [by apply elem_of_nil in Hlo|discriminate]].
  destruct (Qlist_max ari) as [maxi|] eqn:Hmax;
    [|destruct ari; [by apply elem_of_nil in Hlo|discriminate]].
  assert (Qltb maxi 1 = false) as ->.
  { apply Qltb_false. eapply Qle_trans; [exact Hge|]. by eapply Qlist_max_ge. }
  assert (Qltb 1 mini = false) as ->.
  { apply Qltb_false. eapply Qle_trans; [|exact Hle]. by eapply Qlist_min_le. }
  done.
Qed.

Lemma insert_by_perm ar i l : insert_by ar i l ≡ₚ i :: l.
Proof.
  induction l as [|j l IH]; cbn [insert_by]; [done|].
  destruct (Qle_bool _ _); [done|].
  rewrite IH. apply perm_swap.
Qed.

Lemma argsort_perm ar : argsort ar ≡ₚ seq 0 (length ar).
Proof.
  unfold argsort. induction (seq 0 (length ar)) as [|i l IH]; cbn [foldr]; [done|].
  rewrite insert_by_perm. by rewrite IH.
Qed.

Lemma take_idx_seq {A} (l : list A) k :
  take_idx (k ++ l) (seq (length k) (length l)) = l.
Proof.
  unfold take_idx. revert k. induction l as [|x l IH]; intros k; [done|].
  cbn [length seq omap list_omap].
  rewrite lookup_app_r by lia. rewrite Nat.sub_diag. cbn.
  f_equal. specialize (IH (k ++ [x])).
  rewrite <- app_assoc, length_app in IH. cbn in IH.
  rewrite Nat.add_1_r in IH. exact IH.
Qed.

Lemma take_idx_argsort_perm (ar : list Q) : take_idx ar (argsort ar) ≡ₚ ar.
Proof.
  unfold take_idx. rewrite argsort_perm.
  exact (eq_ind _ (fun l => l ≡ₚ ar) (reflexivity ar) _ (eq_sym (take_idx_seq ar []))).
Qed.

Lemma select_batch_all bi (ar : list Q) :
  length bi = length ar -> Forall (fun b => b = 0) bi -> select_batch bi ar 0 = ar.
Proof.
  unfold select_batch. revert ar.
  induction bi as [|b bi IH]; intros [|x ar] Hlen Hall; try discriminate; [done|].
  apply Forall_cons in Hall as [-> Hall]. cbn. f_equal.
  apply IH; [cbn in Hlen; lia|done].
Qed.

Lemma batch_index_one_batch n bsz :
  Z.of_nat n <= bsz -> Forall (fun b => b = 0) (batch_index n bsz).
Proof.
  intros Hn. unfold batch_index. apply Forall_map, Forall_forall.
  intros i Hi%elem_of_seq. cbn. apply Z.div_small. lia.
Qed.

Lemma last_all_zero (bi : list Z) :
  bi <> [] -> Forall (fun b => b = 0) bi -> last bi = Some 0.
Proof.
  intros Hne Hall. destruct (last bi) as [b|] eqn:Hlast.
  - apply last_Some_elem_of in Hlast.
    rewrite Forall_forall in Hall. by rewrite (Hall b Hlast).
  - by apply last_None in Hlast.
Qed.

Lemma to_batch_shape_square img_size stride pad :
  (pad == 0)%Q ->
  to_batch_shape img_size stride pad (1%Q, 1%Q) = square_default img_size stride.
Proof.
  intros Hpad. unfold to_batch_shape, square_default. cbn [fst snd].
  assert (Qceiling (1 * inject_Z img_size / inject_Z stride + pad)
          = Qceiling (inject_Z img_size / inject_Z stride)) as ->; [|done].
  apply Qceiling_comp. rewrite Hpad. unfold Qdiv. ring.
Qed.

(** C4, as the code has it.  A batch that holds an image whose aspect ratio
    (height over width) is at most 1 and one whose aspect ratio is at least 1
    gets the square shape: both sides are
    [ceil(img_size / stride + pad) * stride], and for [pad = 0] this is the
    square default.  A batch with the ratios 0.5, 1 and 2 is of that kind. *)
Theorem rect_batch_mixed_aspect_is_square
    (shapes : list (Q * Q)) (img_size stride batch_size : Z) (pad : Q)
    (lo hi : Q * Q)
    (Hone : Z.of_nat (length shapes) <= batch_size)
    (Hlo : lo ∈ shapes) (Hhi : hi ∈ shapes)
    (Hle : (lo.2 / lo.1 <= 1)%Q) (Hge : (1 <= hi.2 / hi.1)%Q) :
  let bi := batch_index (length shapes) batch_size in
  let nb := default 0 (last bi) + 1 in
  let side := Qceiling (1 * inject_Z img_size / inject_Z stride + pad) * stride in
  (exists irect,
     rect_batch_shapes shapes bi nb img_size stride pad = Ok (irect, [(side, side)]))
  /\ ((pad == 0)%Q -> (side, side) = square_default img_size stride).
Proof.
  intros bi nb side.
  split; [|intros Hpad; by apply (to_batch_shape_square img_size stride pad)].
  assert (Hzero : Forall (fun b => b = 0) bi) by (by apply batch_index_one_batch).
  assert (Hbi_len : length bi = length shapes)
    by (subst bi; unfold batch_index; by rewrite length_map, length_seq).
  assert (Hnb : nb = 1).
  { subst nb. rewrite (last_all_zero bi); [done| |done].
    intros Hnil. rewrite Hnil in Hbi_len. destruct shapes; [|discriminate].
    by apply elem_of_nil in Hlo. }
  unfold rect_batch_shapes. rewrite Hnb.
  set (ar := map (fun s : Q * Q => (s.2 / s.1)%Q) shapes).
  assert (Hperm : take_idx ar (argsort ar) ≡ₚ ar) by apply take_idx_argsort_perm.
  exists (argsort ar). cbn [seqZ Z.to_nat Pos.to_nat Pos.iter_op seq fmap list_fmap mapM].
  change (seqZ 0 1) with [0]. cbn [mapM].
  rewrite select_batch_all; [|by rewrite (Permutation_length Hperm), Hbi_len;
                                subst ar; rewrite length_map|done].
  rewrite (batch_rel_shape_mixed _ (lo.2 / lo.1)%Q (hi.2 / hi.1)%Q); [done| | |done|done].
  - rewrite Hperm. subst ar. by apply (list_elem_of_fmap_2 (fun s : Q * Q => (s.2 / s.1)%Q)).
  - rewrite Hperm. subst ar. by apply (list_elem_of_fmap_2 (fun s : Q * Q => (s.2 / s.1)%Q)).
Qed.

Lemma rect_batch_mixed_aspect_is_square_witness :
  wide_shape ∈ shapes_mixed /\ tall_shape ∈ shapes_mixed
  /\ (wide_shape.2 / wide_shape.1 <= 1)%Q /\ (1 <= tall_shape.2 / tall_shape.1)%Q
  /\ exists irect,
       rect_batch_shapes shapes_mixed (batch_index 3 3) 1 640 32 0
       = Ok (irect, [(640, 640)]).
Proof.
  assert (H1 : wide_shape ∈ shapes_mixed) by apply list_elem_of_here.
  assert (H2 : tall_shape ∈ shapes_mixed)
    by (do 2 apply list_elem_of_further; apply list_elem_of_here).
  assert (H3 : (wide_shape.2 / wide_shape.1 <= 1)%Q) by (vm_compute; discriminate).
  assert (H4 : (1 <= tall_shape.2 / tall_shape.1)%Q) by (vm_compute; discriminate).
  split; [exact H1|]. split; [exact H2|]. split; [exact H3|]. split; [exact H4|].
  exact (proj1 (rect_batch_mixed_aspect_is_square shapes_mixed 640 32 3 0
                  wide_shape tall_shape ltac:(cbn; lia) H1 H2 H3 H4)).
Defined.

(** C4 as stated fails: three images of aspect ratio 0.5, 1 and 2 in one
    batch get exactly the square default shape. *)
Lemma rect_batch_not_square_counterexample :
  exists ds st,
    (@init sample_pickle sample_cv2 args_rect (mkWorld fs_rect [])).1 = Ok (ds, st)
    /\ map (fun s : Q * Q => Qred (s.2 / s.1)) (shapes ds) = [1 # 2; 1; 2]%Q
    /\ batch ds = [0; 0; 0]
    /\ batch_shapes ds = Some [square_default 640 32]
    /\ square_default 640 32 = (640, 640).
Proof.
  eexists _, _. split; [vm_compute; reflexivity|].
  vm_compute. repeat split.
Qed.

(** ** Letterbox *)

(** The common scale of [letterbox] for a target of [nh] x [nw], and the
    size of the image scaled by it, as [(width, height)]. *)
Definition scale_ratio (img : Image) (nh nw : Z) (scaleup : bool) : Q :=
  let r0 := Qmin (inject_Z nh / inject_Z (rows img)) (inject_Z nw / inject_Z (cols img)) in
  if negb scaleup then Qmin r0 1 else r0.

Definition scaled_size (img : Image) (nh nw : Z) (scaleup : bool) : Z * Z :=
  let r := scale_ratio img nh nw scaleup in
  (py_round (inject_Z (cols img) * r), py_round (inject_Z (rows img) * r)).

Ltac push_inj :=
  unfold Z.sub, Z.succ, Z.pred in *;
  repeat rewrite ?inject_Z_plus, ?inject_Z_mult, ?inject_Z_opp in *;
  change (inject_Z 1) with 1%Q in *; change (inject_Z 0) with 0%Q in *;
  change (inject_Z 2) with 2%Q in *;
  unfold Qdiv in *; change (/ 2)%Q with (1 # 2)%Q in *.

Lemma py_round_near (x : Q) (z : Z) :
  (inject_Z z - (1 # 2) < x)%Q -> (x < inject_Z z + (1 # 2))%Q -> py_round x = z.
Proof.
  intros Hlo Hhi. unfold py_round.
  pose proof (Qfloor_le x) as Hf1. pose proof (Qlt_floor x) as Hf2.
  set (f := Qfloor x) in *.
  assert (f <= z).
  { apply Z.lt_succ_r. rewrite Zlt_Qlt. push_inj. lra. }
  assert (z <= f + 1).
  { apply Z.lt_succ_r. rewrite Zlt_Qlt. push_inj. lra. }
  assert (f = z \/ f = z - 1) as [Hf|Hf] by lia.
  - destruct (Qlt_le_dec (x - inject_Z f) (1 # 2)) as [_|Hc]; [done|].
    rewrite Hf in Hc. lra.
  - assert (inject_Z f == inject_Z z - 1)%Q as Hfq.
    { rewrite Hf. push_inj. lra. }
    destruct (Qlt_le_dec (x - inject_Z f) (1 # 2)) as [Hc|_]; [push_inj; lra|].
    destruct (Qlt_le_dec (1 # 2) (x - inject_Z f)) as [_|Hc]; [lia|push_inj; lra].
Qed.

Lemma pad_split (d : Z) :
  0 <= d ->
  py_round (inject_Z d / 2 - 0.1) = d / 2
  /\ py_round (inject_Z d / 2 + 0.1) = d - d / 2.
Proof.
  intros Hd.
  pose proof (Z.div_mod d 2 ltac:(lia)) as Hdm.
  pose proof (Z.mod_pos_bound d 2 ltac:(lia)) as Hm.
  set (k := d / 2) in *. clearbody k.
  assert (inject_Z d == 2 * inject_Z k + inject_Z (d mod 2))%Q as Hq.
  { rewrite Hdm at 1. rewrite inject_Z_plus, inject_Z_mult. reflexivity. }
  assert (d mod 2 = 0 \/ d mod 2 = 1) as [Hr|Hr] by lia; rewrite Hr in Hq;
    [change (inject_Z 0) with 0%Q in Hq | change (inject_Z 1) with 1%Q in Hq].
  - replace (d - k) with k by lia.
    split; apply py_round_near; push_inj; lra.
  - replace (d - k) with (k + 1) by lia.
    split; apply py_round_near; push_inj; lra.
Qed.








(** ** The identity transform *)

(** The raw draw that a generator yields next, as [random()] returns it. *)
Definition peek (g : Rng) : Q := Z.of_N (draws g (pos g) mod 2 ^ 53) # 2 ^ 53.
Definition advance (k : nat) (g : Rng) : Rng := mkRng (draws g) (k + pos g).

Lemma uniform_run a b g :
  uniform a b g = Ok ((a + (b - a) * peek g)%Q, advance 1 g).
Proof. reflexivity. Qed.

Lemma uniform_point a b c g :
  (a == c)%Q -> (b == c)%Q ->
  exists v, uniform a b g = Ok (v, advance 1 g) /\ (v == c)%Q.
Proof.
  intros Ha Hb. eexists. split; [apply uniform_run|].
  cbn beta. rewrite Ha, Hb. ring.
Qed.















Lemma Qclip_inside (lo hi x c : Q) :
  (x == c)%Q -> (lo <= c)%Q -> (c <= hi)%Q -> (Qclip lo hi x == c)%Q.
Proof.
  intros Hx Hlo Hhi. unfold Qclip. rewrite Hx.
  rewrite (Q.max_l c lo Hlo). by rewrite (Q.min_l c hi Hhi).
Qed.


Lemma rand_bind_ok {A B} (m : Rand A) (f : A -> Rand B) g a g' :
  m g = Ok (a, g') -> (m ≫= f) g = f a g'.
Proof. intros Hm. unfold mbind, Rand_bind. by rewrite Hm. Qed.










(** * Further properties of the code *)

(** ** The hash and the cache *)

Lemma get_hash_app fs l1 l2 :
  get_hash fs (l1 ++ l2) = (get_hash fs l1 + get_hash fs l2)%N.
Proof.
  induction l1 as [|f l1 IH]; [done|]. cbn [app get_hash].
  destruct (isfile fs f); rewrite IH; lia.
Qed.

Lemma get_hash_perm fs l1 l2 : l1 ≡ₚ l2 -> get_hash fs l1 = get_hash fs l2.
Proof.
  induction 1 as [|f l1 l2 _ IH|f1 f2 l|l1 l2 l3 _ IH1 _ IH2]; cbn [get_hash].
  - done.
  - by rewrite IH.
  - destruct (isfile fs f1), (isfile fs f2); lia.
  - congruence.
Qed.

(** X1.  [get_hash] does not depend on the order of the paths: it is additive
    over concatenation and equal on two lists that are permutations of one
    another. *)
Theorem get_hash_order_independent (fs : gmap string file) (l1 l2 k1 k2 : list string)
    (Hperm : l1 ≡ₚ l2) :
  get_hash fs l1 = get_hash fs l2
  /\ get_hash fs (k1 ++ k2) = (get_hash fs k1 + get_hash fs k2)%N
  /\ get_hash fs (k1 ++ k2) = get_hash fs (k2 ++ k1).
Proof.
  split; [by apply get_hash_perm|]. split; [apply get_hash_app|].
  rewrite !get_hash_app. lia.
Qed.

Lemma get_hash_order_independent_witness :
  (lbls_ab ++ imgs_ab ≡ₚ imgs_ab ++ lbls_ab)
  /\ get_hash fs_ab (lbls_ab ++ imgs_ab) = get_hash fs_ab (imgs_ab ++ lbls_ab).
Proof.
  assert (Hperm : lbls_ab ++ imgs_ab ≡ₚ imgs_ab ++ lbls_ab) by apply Permutation_app_comm.
  split; [exact Hperm|].
  exact (proj1 (get_hash_order_independent fs_ab _ _ [] [] Hperm)).
Defined.


(** Replacing a file by one of the same size leaves every hash as it was. *)
Lemma get_hash_same_size fs files p f f' :
  fs !! p = Some f -> fsize f' = fsize f ->
  get_hash (<[p := f']> fs) files = get_hash fs files.
Proof.
  intros Hp Hsz. induction files as [|x files IH]; [done|].
  cbn [get_hash]. destruct (decide (p = x)) as [->|Hne].
  - assert (isfile (<[x := f']> fs) x = true) as ->
      by (apply isfile_true; rewrite lookup_insert_eq; eauto).
    assert (isfile fs x = true) as -> by (apply isfile_true; eauto).
    unfold getsize. rewrite lookup_insert_eq, Hp. cbn. by rewrite IH, Hsz.
  - unfold isfile, getsize. rewrite lookup_insert_ne by done. by rewrite IH.
Qed.

(** X2.  A file of the dataset that is rewritten with other content of the
    same size does not invalidate the cache: construction returns the cached
    mapping of before and does not scan. *)
Theorem stale_cache_after_same_size_edit `{Pickle}
    (img_files label_files : list string) (cache_path p : string) (w : World)
    (f f' : file) (cache : gmap string centry) (h : N)
    (Hp : fs w !! p = Some f)
    (Hsize : fsize f' = fsize f)
    (Hne : p <> cache_path)
    (Hload : paddle_load (fs w) cache_path = Ok cache)
    (Hhash : cache !! "hash" = Some (CHash h))
    (Hvalid : h = get_hash (fs w) (label_files ++ img_files)) :
  let w' := mkWorld (<[p := f']> (fs w)) (out w) in
  load_or_scan img_files label_files cache_path w' = (Ok cache, w').
Proof.
  intros w'. eapply load_or_scan_valid.
  - subst w'. cbn. unfold paddle_load. rewrite lookup_insert_ne by done. exact Hload.
  - exact Hhash.
  - subst w'. cbn. by erewrite get_hash_same_size.
Qed.

Lemma stale_cache_after_same_size_edit_witness :
  fs world_ab_cached !! "data/labels/a.txt" = Some (mkFile 24 (CText one_box))
  /\ @load_or_scan sample_pickle imgs_ab lbls_ab "data/labels.cache" world_ab_edited
     = (Ok cache_ab, world_ab_edited).
Proof.
  assert (Hp : fs world_ab_cached !! "data/labels/a.txt"
               = Some (mkFile 24 (CText one_box))) by (vm_compute; reflexivity).
  split; [exact Hp|].
  apply (stale_cache_after_same_size_edit (H := sample_pickle) imgs_ab lbls_ab
           "data/labels.cache" "data/labels/a.txt" world_ab_cached
           (mkFile 24 (CText one_box)) (mkFile 24 (CText other_box)) cache_ab 174 Hp).
  - reflexivity.
  - discriminate.
  - vm_compute. reflexivity.
  - vm_compute. reflexivity.
  - vm_compute. reflexivity.
Defined.

(** What [cache_labels] stores for an image: its labels and shape, or
    [None] when the scan of the image raised. *)
Definition scan_entry (fs : gmap string file) (img label : string) : centry :=
  CItem (match scan_file fs img label with Ok v => Some v | Err _ => None end).

Lemma cache_labels_loop_step fs img label pairs x o :
  exists o', cache_labels_loop fs ((img, label) :: pairs) x o
             = cache_labels_loop fs pairs (<[img := scan_entry fs img label]> x) o'.
Proof.
  cbn [cache_labels_loop]. unfold scan_entry.
  destruct (scan_file fs img label); eauto.
Qed.

Lemma cache_labels_loop_notin fs pairs x o k :
  k ∉ pairs.*1 -> (cache_labels_loop fs pairs x o).1 !! k = x !! k.
Proof.
  revert x o. induction pairs as [|[img label] pairs IH]; intros x o Hk; [done|].
  cbn in Hk. apply not_elem_of_cons in Hk as [Hne Hk].
  destruct (cache_labels_loop_step fs img label pairs x o) as [o' ->].
  rewrite IH by done. by rewrite lookup_insert_ne.
Qed.

Lemma cache_labels_loop_in fs pairs x o img label :
  NoDup pairs.*1 -> (img, label) ∈ pairs ->
  (cache_labels_loop fs pairs x o).1 !! img = Some (scan_entry fs img label).
Proof.
  revert x o. induction pairs as [|[a b] pairs IH]; intros x o Hnd Hin.
  - by apply elem_of_nil in Hin.
  - cbn in Hnd. apply NoDup_cons in Hnd as [Hnotin Hnd].
    destruct (cache_labels_loop_step fs a b pairs x o) as [o' ->].
    apply elem_of_cons in Hin as [[= -> ->]|Hin].
    + rewrite cache_labels_loop_notin by done. apply lookup_insert_eq.
    + by apply IH.
Qed.

Lemma cache_labels_loop_some fs pairs x o k :
  k ∈ pairs.*1 -> exists v, (cache_labels_loop fs pairs x o).1 !! k = Some (CItem v).
Proof.
  revert x o. induction pairs as [|[a b] pairs IH]; intros x o Hin.
  - by apply elem_of_nil in Hin.
  - destruct (cache_labels_loop_step fs a b pairs x o) as [o' ->].
    destruct (decide (k ∈ pairs.*1)) as [Hk|Hk]; [by apply IH|].
    cbn in Hin. apply elem_of_cons in Hin as [->|Hin]; [|done].
    rewrite cache_labels_loop_notin by done. rewrite lookup_insert_eq.
    unfold scan_entry. eauto.
Qed.

(** X3.  The keys of the cache that [cache_labels] returns are the image
    paths and ["hash"]; every image path holds an entry, and when the image
    paths are distinct the entry of an image is the outcome of scanning it
    with its own label file: its labels and shape, or [None] when the scan
    raised. *)
Theorem cache_labels_entries `{Pickle} (img_files label_files : list string)
    (path : string) (w : World)
    (Hlen : length img_files = length label_files)
    (Hhash : "hash" ∉ img_files) :
  let cache := (cache_labels img_files label_files path w).1 in
  (forall k, is_Some (cache !! k) <-> k = "hash" \/ k ∈ img_files)
  /\ (forall k, k ∈ img_files -> exists v, cache !! k = Some (CItem v))
  /\ (NoDup img_files ->
      forall i img label,
        img_files !! i = Some img -> label_files !! i = Some label ->
        cache !! img = Some (scan_entry (fs w) img label)).
Proof.
  intros cache. subst cache. unfold cache_labels.
  assert (Hfst : (zip img_files label_files).*1 = img_files) by (apply fst_zip; lia).
  set (o0 := out w ++ [Progress "Scanning images"]).
  assert (Hsome : forall k, k ∈ img_files ->
            exists v, (cache_labels_loop (fs w) (zip img_files label_files) ∅ o0).1 !! k
                      = Some (CItem v)).
  { intros k Hk. apply cache_labels_loop_some. by rewrite Hfst. }
  assert (Hnone : forall k, k ∉ img_files ->
            (cache_labels_loop (fs w) (zip img_files label_files) ∅ o0).1 !! k = None).
  { intros k Hk. rewrite cache_labels_loop_notin by (by rewrite Hfst). done. }
  assert (Hin : NoDup img_files -> forall i img label,
            img_files !! i = Some img -> label_files !! i = Some label ->
            (cache_labels_loop (fs w) (zip img_files label_files) ∅ o0).1 !! img
            = Some (scan_entry (fs w) img label)).
  { intros Hnd i img label Hi Hl. apply cache_labels_loop_in; [by rewrite Hfst|].
    apply list_elem_of_lookup. exists i. rewrite lookup_zip_with, Hi. cbn. by rewrite Hl. }
  destruct (cache_labels_loop _ _ _ _) as [x o]. cbn [fst snd] in *.
  split; [|split].
  - intros k. destruct (decide (k = "hash")) as [->|Hne].
    + rewrite lookup_insert_eq. split; eauto.
    + rewrite lookup_insert_ne by done. split.
      * intros Hs. right. destruct (decide (k ∈ img_files)) as [|Hk]; [done|].
        rewrite (Hnone k Hk) in Hs. by destruct Hs.
      * intros [?|Hk]; [done|]. destruct (Hsome k Hk) as [v ->]. eauto.
  - intros k Hk. rewrite lookup_insert_ne by (intros <-; done). by apply Hsome.
  - intros Hnd i img label Hi Hl.
    rewrite lookup_insert_ne.
    + by eapply Hin.
    + intros <-. apply Hhash. by eapply list_elem_of_lookup_2.
Qed.

Lemma cache_labels_entries_witness :
  length imgs_ab = length lbls_ab /\ ("hash" ∉ imgs_ab) /\ NoDup imgs_ab
  /\ cache_ab !! "data/images/b.jpg"
     = Some (scan_entry fs_ab "data/images/b.jpg" "data/labels/b.txt").
Proof.
  assert (Hhash : "hash" ∉ imgs_ab) by (apply (bool_decide_unpack _); vm_compute; exact I).
  assert (Hnd : NoDup imgs_ab) by (apply (bool_decide_unpack _); vm_compute; exact I).
  split; [reflexivity|]. split; [exact Hhash|]. split; [exact Hnd|].
  exact (proj2 (proj2 (cache_labels_entries (H := sample_pickle) imgs_ab lbls_ab
                         "data/labels.cache" world_ab eq_refl Hhash))
           Hnd 1%nat "data/images/b.jpg" "data/labels/b.txt" eq_refl eq_refl).
Defined.

(** ** Scanning a file *)

Lemma np_array_rectangular lines l :
  np_array lines = Ok l ->
  length l = length lines /\ forall r1 r2, r1 ∈ l -> r2 ∈ l -> length r1 = length r2.
Proof.
  unfold np_array. destruct (mapM parse_row lines) as [rs|] eqn:Hm; [|discriminate].
  assert (Hlen : length rs = length lines)
    by (symmetry; eapply Forall2_length, mapM_Some_1; exact Hm).
  destruct rs as [|r rest]; [intros [= <-]; split; [done|]; by intros ? ? ?%elem_of_nil|].
  destruct (forallb _ rest) eqn:Hall; [|discriminate].
  intros [= <-]. split; [done|].
  assert (Hr : forall r', r' ∈ r :: rest -> length r' = length r).
  { intros r' [->|Hin]%elem_of_cons; [done|].
    rewrite forallb_forall in Hall. apply Nat.eqb_eq, Hall. by apply list_elem_of_In. }
  intros r1 r2 H1 H2. by rewrite (Hr r1 H1), (Hr r2 H2).
Qed.

(** X4.  When the scan of an image succeeds, the image is a decodable file
    more than 9 pixels wide and high, the shape recorded is its PIL size
    [(width, height)], swapped for the EXIF orientations 6 and 8, the rows
    of the label array all have one length, and the array is empty when there
    is no label file. *)
Theorem scan_file_result (fs : gmap string file) (img label : string)
    (l : LabelArr) (shape : Z * Z)
    (Hscan : scan_file fs img label = Ok (l, shape)) :
  9 < shape.1 /\ 9 < shape.2
  /\ (exists sz r o, fs !! img = Some (mkFile sz (CImage (Some r) o))
                     /\ shape = exif_size (r, o)
                     /\ (shape = (cols r, rows r) \/ shape = (rows r, cols r)))
  /\ (forall r1 r2, r1 ∈ l -> r2 ∈ l -> length r1 = length r2)
  /\ (isfile fs label = false -> l = []).
Proof.
  unfold scan_file, Image_open_verify in Hscan.
  destruct (fs !! img) as [[sz [[r|] o|?|?]]|] eqn:Himg; cbn in Hscan; try discriminate.
  set (shape0 := exif_size (r, o)) in *.
  destruct ((9 <? shape0.1) && (9 <? shape0.2)) eqn:Hbig; cbn in Hscan; [|discriminate].
  apply andb_true_iff in Hbig as [H1%Z.ltb_lt H2%Z.ltb_lt].
  assert (Hshape : forall l0 : result LabelArr,
            (l0 ≫= fun l1 => Ok (if (length l1 =? 0)%nat then zeros_0_5 else l1, shape0))
            = Ok (l, shape) ->
            shape = shape0 /\ exists l1, l0 = Ok l1
                      /\ l = if (length l1 =? 0)%nat then zeros_0_5 else l1).
  { intros [l1|e]; cbn; [|discriminate]. intros [= <- <-]. eauto. }
  apply Hshape in Hscan as (-> & l1 & Hl1 & ->).
  split; [done|]. split; [done|]. split.
  { exists sz, r, o. split; [done|]. split; [done|].
    subst shape0. unfold exif_size. cbn [fst snd].
    destruct o as [[|p|p]|]; auto.
    do 5 (try (destruct p as [p|p|]; auto)). }
  split.
  - destruct (length l1 =? 0)%nat; [by intros ? ? ?%elem_of_nil|].
    destruct (isfile fs label); [|injection Hl1 as <-; by intros ? ? ?%elem_of_nil].
    unfold read_label in Hl1.
    destruct (fs !! label) as [[? [| lines |]]|]; try discriminate.
    by apply np_array_rectangular in Hl1 as [_ Hrect].
  - intros Hno. rewrite Hno in Hl1. by injection Hl1 as <-.
Qed.

Lemma scan_file_result_witness :
  scan_file fs_ab "data/images/a.jpg" "data/labels/a.txt"
  = Ok ([[0; 0.5; 0.5; 0.2; 0.2]%Q], (30, 20))
  /\ 9 < 30 /\ 9 < 20.
Proof.
  assert (Hscan : scan_file fs_ab "data/images/a.jpg" "data/labels/a.txt"
                  = Ok ([[0; 0.5; 0.5; 0.2; 0.2]%Q], (30, 20)))
    by (vm_compute; reflexivity).
  split; [exact Hscan|].
  destruct (scan_file_result fs_ab _ _ _ _ Hscan) as (H1 & H2 & _).
  split; [exact H1|exact H2].
Defined.

(** ** Rectangular ordering *)

(** The key that [argsort] compares at index [i]. *)
Definition sort_key (ar : list Q) (i : nat) : Q := default 0%Q (ar !! i).

Lemma insert_by_sorted ar i l :
  StronglySorted (fun i j => (sort_key ar i <= sort_key ar j)%Q) l ->
  StronglySorted (fun i j => (sort_key ar i <= sort_key ar j)%Q) (insert_by ar i l).
Proof.
  induction 1 as [|j l Hs IH Hj]; cbn [insert_by].
  - repeat constructor.
  - fold (sort_key ar i). fold (sort_key ar j).
    destruct (Qle_bool (sort_key ar i) (sort_key ar j)) eqn:Hle.
    + apply Qle_bool_iff in Hle. constructor; [by constructor|].
      constructor; [done|]. eapply Forall_impl; [exact Hj|].
      intros k Hk. cbn in Hk. eapply Qle_trans; eauto.
    + constructor; [exact IH|].
      rewrite insert_by_perm. constructor; [|done].
      destruct (Qlt_le_dec (sort_key ar j) (sort_key ar i)) as [Hlt|Hge].
      * by apply Qlt_le_weak.
      * apply Qle_bool_iff in Hge. congruence.
Qed.

Lemma argsort_sorted ar :
  StronglySorted (fun i j => (sort_key ar i <= sort_key ar j)%Q) (argsort ar).
Proof.
  unfold argsort. induction (seq 0 (length ar)) as [|i l IH]; cbn [foldr].
  - constructor.
  - by apply insert_by_sorted.
Qed.

Lemma take_idx_lookup {A} (l : list A) (ix : list nat) i :
  Forall (fun j => (j < length l)%nat) ix ->
  take_idx l ix !! i = ix !! i ≫= (l !!.).
Proof.
  unfold take_idx. intros Hall. revert i.
  induction Hall as [|j ix Hj _ IH]; intros i; [done|].
  cbn [omap list_omap]. destruct (lookup_lt_is_Some_2 l j Hj) as [x Hx].
  rewrite Hx. destruct i as [|i]; cbn; [done|]. apply IH.
Qed.

Lemma argsort_in_range ar : Forall (fun j => (j < length ar)%nat) (argsort ar).
Proof.
  rewrite argsort_perm. apply Forall_forall. intros j Hj%elem_of_seq. lia.
Qed.

Lemma take_idx_argsort_sorted (ar : list Q) :
  StronglySorted Qle (take_idx ar (argsort ar)).
Proof.
  pose proof (argsort_sorted ar) as Hs. pose proof (argsort_in_range ar) as Hr.
  unfold take_idx. induction Hs as [|j l Hs IH Hj]; cbn [omap list_omap]; [constructor|].
  apply Forall_cons in Hr as [Hjlt Hr].
  destruct (lookup_lt_is_Some_2 ar j Hjlt) as [x Hx]. rewrite Hx. cbn.
  constructor; [by apply IH|].
  apply Forall_forall. intros y Hy. apply list_elem_of_omap in Hy as (k & Hk & Hky).
  rewrite Forall_forall in Hj. specialize (Hj k Hk).
  unfold sort_key in Hj. by rewrite Hx, Hky in Hj.
Qed.

Lemma take_idx_fmap {A B} (g : A -> B) (l : list A) ix :
  g <$> take_idx l ix = take_idx (g <$> l) ix.
Proof.
  unfold take_idx. induction ix as [|j ix IH]; [done|].
  cbn [omap list_omap]. rewrite list_lookup_fmap.
  destruct (l !! j); cbn; [by rewrite IH|exact IH].
Qed.

Lemma take_idx_perm {A} (l : list A) ix :
  ix ≡ₚ seq 0 (length l) -> take_idx l ix ≡ₚ l.
Proof.
  intros Hp. unfold take_idx. rewrite Hp.
  exact (eq_ind _ (fun k => k ≡ₚ l) (reflexivity l) _ (eq_sym (take_idx_seq l []))).
Qed.

(** The aspect ratio [s[1] / s[0]] of a shape. *)
Definition aspect (s : Q * Q) : Q := (s.2 / s.1)%Q.

(** X5.  The arrays that construction takes from the cache stay aligned:
    the image files it keeps are a permutation of the ones it was given, and
    at every position the label file, the labels and the shape are the ones
    of the image at that position, as the cache holds them.  With [rect] the
    shapes are in ascending order of aspect ratio; without it the order of
    the files is unchanged. *)
Theorem arrange_keeps_samples_aligned (a : Args) (rect : bool) (bi : list Z) (nb : Z)
    (cache : gmap string centry) (f lf : list string) (ls : list LabelArr)
    (sh : list (Q * Q)) (bs : option (list (Z * Z)))
    (Hlen : length (a_label_files a) = length (a_img_files a))
    (Harr : arrange a rect bi nb cache = Ok (f, lf, ls, sh, bs)) :
  f ≡ₚ a_img_files a
  /\ (forall i x, f !! i = Some x ->
        exists j l z,
          a_img_files a !! j = Some x
          /\ lf !! i = a_label_files a !! j
          /\ ls !! i = Some l
          /\ sh !! i = Some (inject_Z z.1, inject_Z z.2)
          /\ cache !! x = Some (CItem (Some (l, z))))
  /\ (rect = true -> StronglySorted Qle (aspect <$> sh))
  /\ (rect = false -> f = a_img_files a /\ lf = a_label_files a).
Proof.
  unfold arrange in Harr.
  destruct (cache_items cache (a_img_files a)) as [items|e] eqn:Hitems;
    cbn [mbind result_bind] in Harr; [|discriminate].
  unfold unzip_items in Harr.
  destruct (mapM _ items) as [pairs|e] eqn:Hpairs; cbn [mbind result_bind] in Harr;
    [|discriminate].
  apply mapM_result_Forall2 in Hitems. apply mapM_result_Forall2 in Hpairs.
  set (shapes0 := map (fun s : Z * Z => (inject_Z s.1, inject_Z s.2)) (map snd pairs)) in *.
  set (labels0 := map fst pairs) in *.
  pose proof (Forall2_length _ _ _ Hitems) as Hl1.
  pose proof (Forall2_length _ _ _ Hpairs) as Hl2.
  assert (Hbase : forall j x, a_img_files a !! j = Some x ->
            exists l z, labels0 !! j = Some l
                        /\ shapes0 !! j = Some (inject_Z z.1, inject_Z z.2)
                        /\ cache !! x = Some (CItem (Some (l, z)))).
  { intros j x Hj.
    destruct (Forall2_lookup_l _ _ _ _ _ Hitems Hj) as (v & Hv & Hcv).
    destruct (Forall2_lookup_l _ _ _ _ _ Hpairs Hv) as ([l z] & Hp & Hvp).
    exists l, z. subst labels0 shapes0.
    rewrite !list_lookup_fmap, Hp. cbn. split; [done|]. split; [done|].
    destruct (cache !! x) as [v'|]; [|discriminate]. injection Hcv as ->.
    destruct v as [|[p|]]; try discriminate. by injection Hvp as ->. }
  destruct rect.
  - destruct (rect_batch_shapes _ _ _ _ _ _) as [[irect bs']|e] eqn:Hrect;
      cbn [mbind result_bind] in Harr; [|discriminate].
    injection Harr as <- <- <- <- <-.
    unfold rect_batch_shapes in Hrect.
    set (ar := map (fun s : Q * Q => (s.2 / s.1)%Q) shapes0) in *.
    destruct (mapM _ (seqZ 0 nb)) as [rel|e]; cbn [mbind result_bind] in Hrect;
      [|discriminate].
    injection Hrect as <- _.
    assert (Har : length ar = length (a_img_files a)).
    { subst ar shapes0. rewrite !length_map. lia. }
    assert (Hrange : forall (A : Type) (l : list A), length l = length (a_img_files a) ->
              Forall (fun j => (j < length l)%nat) (argsort ar)).
    { intros A l Hl. rewrite Hl, <- Har. apply argsort_in_range. }
    split; [|split; [|split]].
    + apply take_idx_perm. rewrite argsort_perm. by rewrite Har.
    + intros i x Hi.
      rewrite take_idx_lookup in Hi by (by apply Hrange).
      destruct (argsort ar !! i) as [j|] eqn:Hj; [|discriminate]. cbn in Hi.
      destruct (Hbase j x Hi) as (l & z & Hl & Hz & Hc).
      exists j, l, z. split; [done|].
      rewrite !take_idx_lookup, Hj; cbn.
      * done.
      * apply Hrange. subst shapes0. rewrite !length_map. lia.
      * apply Hrange. subst labels0. rewrite length_map. lia.
      * by apply Hrange.
    + intros _. rewrite take_idx_fmap. apply take_idx_argsort_sorted.
    + discriminate.
  - injection Harr as <- <- <- <- <-.
    split; [done|]. split; [|split; [discriminate|done]].
    intros i x Hi. destruct (Hbase i x Hi) as (l & z & Hl & Hz & Hc).
    by exists i, l, z.
Qed.

Lemma arrange_keeps_samples_aligned_witness :
  exists f lf ls sh bs,
    arrange args_rect true (init_bi args_rect) (init_nb args_rect) cache_rect
    = Ok (f, lf, ls, sh, bs)
    /\ f ≡ₚ a_img_files args_rect
    /\ StronglySorted Qle (aspect <$> sh).
Proof.
  assert (exists f lf ls sh bs,
            arrange args_rect true (init_bi args_rect) (init_nb args_rect) cache_rect
            = Ok (f, lf, ls, sh, bs)) as (f & lf & ls & sh & bs & Harr)
    by (eexists _, _, _, _, _; vm_compute; reflexivity).
  exists f, lf, ls, sh, bs. split; [exact Harr|].
  destruct (arrange_keeps_samples_aligned args_rect true _ _ cache_rect f lf ls sh bs
              eq_refl Harr) as (Hperm & _ & Hsorted & _).
  split; [exact Hperm|exact (Hsorted eq_refl)].
Defined.

(** ** Bounds of the batch shapes *)

Lemma batch_rel_shape_le_1 ari a b :
  batch_rel_shape ari = Ok (a, b) ->
  (a <= 1)%Q /\ (b <= 1)%Q /\ (a = 1%Q \/ b = 1%Q).
Proof.
  unfold batch_rel_shape.
  destruct (Qlist_min ari) as [mini|]; [|discriminate].
  destruct (Qlist_max ari) as [maxi|]; [|discriminate].
  destruct (Qltb maxi 1) eqn:Hmax.
  - intros [= <- <-]. apply Qltb_true in Hmax.
    split; [by apply Qlt_le_weak|]. split; [apply Qle_refl|by right].
  - destruct (Qltb 1 mini) eqn:Hmin; intros [= <- <-].
    + apply Qltb_true in Hmin. split; [apply Qle_refl|]. split; [|by left].
      apply Qle_shift_div_r; lra.
    + split; [apply Qle_refl|]. split; [apply Qle_refl|by left].
Qed.

Lemma to_batch_side_le (img_size stride : Z) (pad v : Q) :
  0 < stride -> 0 <= img_size -> (v <= 1)%Q ->
  Qceiling (v * inject_Z img_size / inject_Z stride + pad) * stride
  <= Qceiling (1 * inject_Z img_size / inject_Z stride + pad) * stride.
Proof.
  intros Hs Hi Hv. apply Z.mul_le_mono_nonneg_r; [lia|].
  apply Qceiling_resp_le.
  assert (0 <= inject_Z img_size / inject_Z stride)%Q as Ht.
  { apply Qle_shift_div_l.
    - change 0%Q with (inject_Z 0). rewrite <- Zlt_Qlt. lia.
    - rewrite Qmult_0_l. change 0%Q with (inject_Z 0). rewrite <- Zle_Qle. lia. }
  set (t := (inject_Z img_size / inject_Z stride)%Q) in *.
  assert (forall x : Q, x * inject_Z img_size / inject_Z stride == x * t)%Q as Hx
    by (intros x; subst t; unfold Qdiv; ring).
  rewrite !Hx. apply Qplus_le_compat; [|apply Qle_refl].
  by apply Qmult_le_compat_r.
Qed.

(** X6.  For a positive stride and an image size that is not negative, the
    rectangular batch shapes are one per batch; both sides of each are
    multiples of the stride, neither exceeds the side
    [ceil(img_size / stride + pad) * stride] of the square shape, and one of
    them is equal to it. *)
Theorem rect_batch_shapes_bounded (shapes : list (Q * Q)) (bi : list Z) (nb : Z)
    (img_size stride : Z) (pad : Q) (irect : list nat) (bs : list (Z * Z))
    (Hstride : 0 < stride) (Hsize : 0 <= img_size)
    (Hrect : rect_batch_shapes shapes bi nb img_size stride pad = Ok (irect, bs)) :
  let side := Qceiling (1 * inject_Z img_size / inject_Z stride + pad) * stride in
  length bs = Z.to_nat nb
  /\ Forall (fun s : Z * Z =>
              (stride | s.1) /\ (stride | s.2) /\ s.1 <= side /\ s.2 <= side
              /\ (s.1 = side \/ s.2 = side)) bs.
Proof.
  intros side. unfold rect_batch_shapes in Hrect.
  destruct (mapM _ (seqZ 0 nb)) as [rel|e] eqn:Hrel; cbn [mbind result_bind] in Hrect;
    [|discriminate].
  injection Hrect as _ <-.
  pose proof (mapM_result_length _ _ _ Hrel) as Hlen.
  apply mapM_result_Forall2 in Hrel.
  split; [by rewrite length_map, Hlen, length_seqZ|].
  apply Forall_map, Forall_forall. intros [u v] Huv.
  apply list_elem_of_lookup in Huv as [i Hi].
  destruct (Forall2_lookup_r _ _ _ _ _ Hrel Hi) as (k & _ & Hk).
  apply batch_rel_shape_le_1 in Hk as (Hu & Hv & Hone).
  unfold to_batch_shape. cbn [fst snd].
  split; [by apply Z.divide_factor_r|]. split; [by apply Z.divide_factor_r|].
  split; [by apply to_batch_side_le|]. split; [by apply to_batch_side_le|].
  destruct Hone as [->| ->]; [by left|by right].
Qed.

Lemma rect_batch_shapes_bounded_witness :
  exists irect,
    rect_batch_shapes shapes_wide (batch_index 2 16) 1 640 32 0 = Ok (irect, [(384, 640)])
    /\ (32 | 384) /\ 384 <= 640.
Proof.
  assert (exists irect,
            rect_batch_shapes shapes_wide (batch_index 2 16) 1 640 32 0
            = Ok (irect, [(384, 640)])) as [irect Hrect]
    by (eexists; vm_compute; reflexivity).
  exists irect. split; [exact Hrect|].
  destruct (rect_batch_shapes_bounded shapes_wide _ 1 640 32 0 irect _
              ltac:(done) ltac:(done) Hrect) as [_ Hall].
  apply Forall_cons in Hall as [(Hd & _ & Hle & _) _].
  split; [exact Hd|exact Hle].
Defined.

(** ** Letterbox without [auto] *)

Lemma py_round_le (x : Q) (n : Z) : (x <= inject_Z n)%Q -> py_round x <= n.
Proof.
  intros Hx. unfold py_round.
  pose proof (Qfloor_le x) as Hf.
  set (f := Qfloor x) in *.
  assert (f <= n) as Hfn by (rewrite Zle_Qle; lra).
  assert ((0 < x - inject_Z f)%Q -> f + 1 <= n) as Hlt.
  { intros Hd. apply Z.lt_succ_r. unfold Z.succ. rewrite Zlt_Qlt. push_inj. lra. }
  destruct (Qlt_le_dec (x - inject_Z f) (1 # 2)) as [_|H1]; [done|].
  destruct (Qlt_le_dec (1 # 2) (x - inject_Z f)) as [_|_]; [apply Hlt; lra|].
  destruct (Z.even f); [done|apply Hlt; lra].
Qed.

Lemma py_round_exact (x : Q) (n : Z) : (x == inject_Z n)%Q -> py_round x = n.
Proof. intros Hx. apply py_round_near; lra. Qed.

Lemma inject_Z_pos (z : Z) : 0 < z -> (0 < inject_Z z)%Q.
Proof. intros Hz. change 0%Q with (inject_Z 0). by rewrite <- Zlt_Qlt. Qed.

Lemma Qmult_div_cancel (a b : Q) : (0 < b)%Q -> (b * (a / b) == a)%Q.
Proof. intros Hb. field. lra. Qed.

Lemma scaled_size_bounds (img : Image) (nh nw : Z) (scaleup : bool)
    (Hh : 0 < rows img) (Hw : 0 < cols img) :
  let '(uw, uh) := scaled_size img nh nw scaleup in
  uw <= nw /\ uh <= nh
  /\ (scaleup = true -> uw = nw \/ uh = nh)
  /\ (scaleup = false -> uw <= cols img /\ uh <= rows img).
Proof.
  unfold scaled_size, scale_ratio.
  pose proof (inject_Z_pos _ Hh) as Hhq. pose proof (inject_Z_pos _ Hw) as Hwq.
  set (rh := (inject_Z nh / inject_Z (rows img))%Q).
  set (rw := (inject_Z nw / inject_Z (cols img))%Q).
  assert (Eh : (inject_Z (rows img) * rh == inject_Z nh)%Q) by (by apply Qmult_div_cancel).
  assert (Ew : (inject_Z (cols img) * rw == inject_Z nw)%Q) by (by apply Qmult_div_cancel).
  pose proof (Q.le_min_l rh rw) as Hml. pose proof (Q.le_min_r rh rw) as Hmr.
  set (r0 := Qmin rh rw) in *.
  assert (Hr : forall r : Q, (r <= r0)%Q ->
            py_round (inject_Z (cols img) * r) <= nw
            /\ py_round (inject_Z (rows img) * r) <= nh).
  { intros r Hle. split; apply py_round_le.
    - rewrite <- Ew. apply Qmult_le_l; [done|lra].
    - rewrite <- Eh. apply Qmult_le_l; [done|lra]. }
  destruct scaleup; cbn [negb].
  - destruct (Hr r0 (Qle_refl _)) as [H1 H2]. split; [done|]. split; [done|].
    split; [|discriminate]. intros _.
    destruct (Q.min_dec rh rw) as [Hm|Hm]; fold r0 in Hm.
    + right. apply py_round_exact. by rewrite Hm.
    + left. apply py_round_exact. by rewrite Hm.
  - pose proof (Q.le_min_l r0 1) as Hc1. pose proof (Q.le_min_r r0 1) as Hc2.
    destruct (Hr (Qmin r0 1) Hc1) as [H1 H2]. split; [done|]. split; [done|].
    split; [discriminate|]. intros _. split; apply py_round_le.
    + rewrite <- (Qmult_1_r (inject_Z (cols img))) at 2. apply Qmult_le_l; [done|lra].
    + rewrite <- (Qmult_1_r (inject_Z (rows img))) at 2. apply Qmult_le_l; [done|lra].
Qed.

(** X7.  The size to which [letterbox] scales an image never exceeds the
    target on either axis; with [scaleup] it is equal to the target on one
    axis, and without [scaleup] it never exceeds the size of the image
    either. *)
Theorem scaled_size_fits_target (img : Image) (nh nw : Z) (scaleup : bool)
    (Hh : 0 < rows img) (Hw : 0 < cols img) :
  let '(uw, uh) := scaled_size img nh nw scaleup in
  uw <= nw /\ uh <= nh
  /\ (scaleup = true -> uw = nw \/ uh = nh)
  /\ (scaleup = false -> uw <= cols img /\ uh <= rows img).
Proof. by eapply scaled_size_bounds. Qed.

Lemma border_ok (dw dh : Z) :
  0 <= dw -> 0 <= dh ->
  (dh / 2 <? 0) || (dh - dh / 2 <? 0) || (dw / 2 <? 0) || (dw - dw / 2 <? 0) = false.
Proof.
  intros Hw Hh.
  pose proof (Z.div_pos dh 2). pose proof (Z.div_pos dw 2).
  pose proof (Z.div_le_upper_bound dh 2 dh). pose proof (Z.div_le_upper_bound dw 2 dw).
  repeat (apply orb_false_intro); apply Z.ltb_ge; lia.
Qed.


(** X9.  With [scaleFill] and without [auto], [letterbox] stretches the
    image to exactly the target shape: the ratio it returns is the one of each
    axis, and the pad is zero. *)
Theorem letterbox_scale_fill_stretches `{Cv2} (img : Image) (nh nw : Z)
    (color : pixel) (scaleup : bool)
    (Hh : 0 < rows img) (Hw : 0 < cols img) (Hnh : 0 < nh) (Hnw : 0 < nw) :
  exists img',
    letterbox img (inr (nh, nw)) color false true scaleup
    = Ok (img', ((inject_Z nw / inject_Z (cols img))%Q,
                 (inject_Z nh / inject_Z (rows img))%Q), ((0 / 2)%Q, (0 / 2)%Q))
    /\ rows img' = nh /\ cols img' = nw.
Proof.
  unfold letterbox. cbv zeta. cbn [fst snd].
  replace ((rows img =? 0) || (cols img =? 0)) with false
    by (symmetry; apply orb_false_intro; apply Z.eqb_neq; lia).
  assert (exists img0,
            (if bool_decide ((cols img, rows img) = (nw, nh)) then Ok img
             else cv2_resize img (nw, nh) INTER_LINEAR) = Ok img0
            /\ cols img0 = nw /\ rows img0 = nh) as (img0 & -> & Hc0 & Hr0).
  { case_bool_decide as Heq.
    - injection Heq as Hc Hr. by exists img.
    - unfold cv2_resize. cbn [fst snd].
      assert ((0 <? nw) && (0 <? nh) = true) as ->
        by (apply andb_true_intro; split; apply Z.ltb_lt; lia).
      eexists. split; [reflexivity|]. by cbn. }
  cbn [mbind result_bind].
  change (py_round (0 / 2 - 0.1)) with 0. change (py_round (0 / 2 + 0.1)) with 0.
  unfold copyMakeBorder. cbn [Z.ltb Z.compare orb].
  cbn [mbind result_bind]. eexists. split; [reflexivity|]. cbn [rows cols]. lia.
Qed.

Lemma scaled_size_fits_target_witness :
  0 < rows (blank 100 200) /\ 0 < cols (blank 100 200)
  /\ (scaled_size (blank 100 200) 640 640 true).1 <= 640
  /\ (scaled_size (blank 100 200) 640 640 true).2 <= 640.
Proof.
  split; [done|]. split; [done|].
  pose proof (scaled_size_fits_target (blank 100 200) 640 640 true
                ltac:(done) ltac:(done)) as (Hw & Hh & _).
  split; [exact Hw|exact Hh].
Defined.


Lemma letterbox_scale_fill_stretches_witness :
  exists img' ratio pad,
    @letterbox sample_cv2 (blank 100 200) (inr (640, 640)) gray114 false true true
    = Ok (img', ratio, pad)
    /\ rows img' = 640 /\ cols img' = 640.
Proof.
  destruct (letterbox_scale_fill_stretches (H := sample_cv2) (blank 100 200) 640 640
              gray114 true ltac:(done) ltac:(done) ltac:(done) ltac:(done))
    as (img' & Hlb & Hr & Hc).
  eexists img', _, _. split; [exact Hlb|]. split; [exact Hr|exact Hc].
Defined.

(** ** The perspective transform in general *)


Lemma Qclip_bounds (hi x : Q) : (0 <= hi)%Q -> (0 <= Qclip 0 hi x <= hi)%Q.
Proof.
  intros Hhi. unfold Qclip. split.
  - apply Q.min_glb; [apply Q.le_max_r|done].
  - apply Q.le_min_r.
Qed.


Lemma set_box_cols (r : list Q) (x1 y1 x2 y2 : Q) :
  (5 <= length r)%nat ->
  length (set_box r (x1, y1, x2, y2)) = length r
  /\ col (set_box r (x1, y1, x2, y2)) 0 = col r 0
  /\ col (set_box r (x1, y1, x2, y2)) 1 = x1
  /\ col (set_box r (x1, y1, x2, y2)) 2 = y1
  /\ col (set_box r (x1, y1, x2, y2)) 3 = x2
  /\ col (set_box r (x1, y1, x2, y2)) 4 = y2
  /\ drop 5 (set_box r (x1, y1, x2, y2)) = drop 5 r.
Proof.
  intros Hlen.
  destruct r as [|c0 [|a [|b [|c [|d rest]]]]]; cbn in Hlen; try lia.
  cbn. repeat split; reflexivity.
Qed.






(** ** Placement in the mosaic *)

(** X11.  For an image size and a source of sides that are not negative,
    the rectangle that [load_mosaic] gives a source on the canvas lies within
    the canvas of side [2 * img_size], the rectangle it reads lies within the
    source, and the two have one shape: the assignment of the pixels never
    raises, it leaves the shape of the canvas as it was, and it copies every
    pixel of the canvas rectangle from the source at the offset
    [(padw, padh)] by which the labels are moved.  That offset is
    [img_size - w] (or [- h]) for the quadrants left of (above) the centre
    and [img_size] for the others. *)
Theorem mosaic_place_fits (i : Quadrant) (s h w : Z) (canvas src : Image)
    (Hs : 0 <= s) (Hh : 0 <= h) (Hw : 0 <= w)
    (Hcanvas : rows canvas = s * 2 /\ cols canvas = s * 2)
    (Hsrc : rows src = h /\ cols src = w) :
  let '((x1a, y1a, x2a, y2a), (x1b, y1b, x2b, y2b)) := mosaic_place i s s s h w in
  (0 <= x1a <= x2a /\ x2a <= s * 2) /\ (0 <= y1a <= y2a /\ y2a <= s * 2)
  /\ (0 <= x1b <= w /\ 0 <= y1b <= h)
  /\ x2a - x1a = Z.min x2b w - x1b /\ y2a - y1a = Z.min y2b h - y1b
  /\ x1a - x1b = match i with TopLeft | BottomLeft => s - w | _ => s end
  /\ y1a - y1b = match i with TopLeft | TopRight => s - h | _ => s end
  /\ exists img4,
       slice_assign canvas (x1a, y1a, x2a, y2a) src (x1b, y1b, x2b, y2b) = Ok img4
       /\ rows img4 = s * 2 /\ cols img4 = s * 2
       /\ forall y x,
            px img4 y x = if (y1a <=? y) && (y <? y2a) && (x1a <=? x) && (x <? x2a)
                          then px src (y - (y1a - y1b)) (x - (x1a - x1b))
                          else px canvas y x.
Proof.
  destruct Hcanvas as [Hcr Hcc], Hsrc as [Hsr Hsc].
  destruct i; cbn [mosaic_place]; (repeat split; try lia);
    unfold slice_assign, slice_range; rewrite Hcr, Hcc, Hsr, Hsc;
    (match goal with
     | |- context [if ?c then Ok _ else Err _] =>
         assert (c = true) as -> by (apply andb_true_intro; split; apply Z.eqb_eq; lia)
     end);
    (eexists; split; [reflexivity|]; cbn [rows cols px]; split; [done|]; split; [done|];
     intros y x;
     match goal with
     | |- (if ?c then _ else _) = (if ?d then _ else _) =>
         assert (c = d) as Hcd; [|rewrite Hcd; destruct d; [f_equal; lia|done]]
     end;
     apply eq_true_iff_eq; rewrite !andb_true_iff, !Z.leb_le, !Z.ltb_lt; lia).
Qed.

(** The pixel [(y, x)] lies in the rectangle [(x1, y1, x2, y2)]. *)
Definition in_rect (a : Z * Z * Z * Z) (y x : Z) : Prop :=
  let '(x1, y1, x2, y2) := a in x1 <= x < x2 /\ y1 <= y < y2.

(** X12.  The canvas rectangles of two different quadrants share no pixel,
    whatever the sizes of their sources: a source that is placed later never
    overwrites one that was placed before. *)
Theorem mosaic_quadrants_disjoint (i j : Quadrant) (s h w h' w' y x : Z)
    (Hij : i <> j)
    (Hi : in_rect (mosaic_place i s s s h w).1 y x) :
  ~ in_rect (mosaic_place j s s s h' w').1 y x.
Proof.
  destruct i, j; try done; cbn in *; lia.
Qed.

Lemma Qclip_cases (H v : Q) :
  (0 <= H)%Q ->
  (v <= 0 /\ Qclip 0 H v == 0)%Q \/ (0 <= v <= H /\ Qclip 0 H v == v)%Q
  \/ (H <= v /\ Qclip 0 H v == H)%Q.
Proof.
  intros HH. unfold Qclip.
  destruct (Qlt_le_dec v 0) as [Hneg|Hpos].
  - left. split; [lra|]. rewrite (Q.max_r v 0) by lra. apply Q.min_l. exact HH.
  - rewrite (Q.max_l v 0) by lra.
    destruct (Qlt_le_dec H v) as [Hbig|Hsmall].
    + right. right. split; [lra|]. apply Q.min_r. lra.
    + right. left. split; [lra|]. apply Q.min_l. lra.
Qed.

(** One axis of lines 585-588 and 592: the two ends of a box that lies
    within its image of extent [w], moved by [pad] and clipped to the canvas,
    stay between the clipped ends of the image. *)
Lemma placed_axis (s w pad : Z) (c b : Q) :
  0 <= s -> 0 <= w ->
  (0 <= b)%Q -> (0 <= c - b / 2)%Q -> (c + b / 2 <= 1)%Q ->
  let v1 := Qclip 0 (inject_Z (2 * s)) (inject_Z w * (c - b / 2) + inject_Z pad) in
  let v2 := Qclip 0 (inject_Z (2 * s)) (inject_Z w * (c + b / 2) + inject_Z pad) in
  (v1 <= v2
   /\ (inject_Z pad <= 0 -> 0 <= v1)
   /\ (0 <= inject_Z pad -> inject_Z pad <= inject_Z (2 * s) -> inject_Z pad <= v1)
   /\ v2 <= inject_Z (2 * s)
   /\ (0 <= inject_Z (pad + w) -> v2 <= inject_Z (pad + w)))%Q.
Proof.
  intros Hs Hw Hb Hlo Hhi v1 v2.
  assert (0 <= inject_Z (2 * s))%Q as HS
    by (change 0%Q with (inject_Z 0); rewrite <- Zle_Qle; lia).
  assert (0 <= inject_Z w)%Q as HW
    by (change 0%Q with (inject_Z 0); rewrite <- Zle_Qle; lia).
  rewrite inject_Z_plus.
  set (W := inject_Z w) in *. set (P := inject_Z pad) in *. set (S2 := inject_Z (2 * s)) in *.
  unfold Qdiv in *. change (/ 2)%Q with (1 # 2)%Q in *.
  assert (0 <= W * (c - b * (1 # 2)))%Q as H1 by (apply Qmult_le_0_compat; lra).
  assert (W * (c - b * (1 # 2)) <= W * (c + b * (1 # 2)))%Q as H2
    by nra.
  assert (W * (c + b * (1 # 2)) <= W * 1)%Q as H3 by nra.
  destruct (Qclip_cases S2 (W * (c - b * (1 # 2)) + P) HS) as [[? E1]|[[? E1]|[? E1]]];
  destruct (Qclip_cases S2 (W * (c + b * (1 # 2)) + P) HS) as [[? E2]|[[? E2]|[? E2]]];
  subst v1 v2; rewrite E1, E2; repeat split; intros; lra.
Qed.

(** A label row [(class, cx, cy, w, h)] whose box lies within its image. *)
Definition box_in_image (r : list Q) : Prop :=
  (0 <= col r 3 /\ 0 <= col r 1 - col r 3 / 2 /\ col r 1 + col r 3 / 2 <= 1
   /\ 0 <= col r 4 /\ 0 <= col r 2 - col r 4 / 2 /\ col r 2 + col r 4 / 2 <= 1)%Q.

Lemma placed_left (s w : Z) (c b : Q) :
  0 <= s -> 0 <= w ->
  (0 <= b)%Q -> (0 <= c - b / 2)%Q -> (c + b / 2 <= 1)%Q ->
  let v1 := Qclip 0 (inject_Z (2 * s)) (inject_Z w * (c - b / 2) + inject_Z (s - w)) in
  let v2 := Qclip 0 (inject_Z (2 * s)) (inject_Z w * (c + b / 2) + inject_Z (s - w)) in
  (inject_Z (Z.max (s - w) 0) <= v1 /\ v1 <= v2 /\ v2 <= inject_Z s)%Q.
Proof.
  intros Hs Hw Hb Hlo Hhi v1 v2.
  destruct (placed_axis s w (s - w) c b Hs Hw Hb Hlo Hhi) as (H12 & Hneg & Hpos & _ & Hend).
  fold v1 v2 in H12, Hneg, Hpos, Hend.
  replace (s - w + w) with s in Hend by lia.
  assert (0 <= inject_Z s)%Q as HS
    by (change 0%Q with (inject_Z 0); rewrite <- Zle_Qle; lia).
  split; [|split; [done|by apply Hend]].
  destruct (Z.max_spec (s - w) 0) as [[Hlt ->]|[Hle ->]].
  - apply Hneg. change 0%Q with (inject_Z 0). rewrite <- Zle_Qle. lia.
  - apply Hpos; [change 0%Q with (inject_Z 0)|]; rewrite <- Zle_Qle; lia.
Qed.

Lemma placed_right (s w : Z) (c b : Q) :
  0 <= s -> 0 <= w ->
  (0 <= b)%Q -> (0 <= c - b / 2)%Q -> (c + b / 2 <= 1)%Q ->
  let v1 := Qclip 0 (inject_Z (2 * s)) (inject_Z w * (c - b / 2) + inject_Z s) in
  let v2 := Qclip 0 (inject_Z (2 * s)) (inject_Z w * (c + b / 2) + inject_Z s) in
  (inject_Z s <= v1 /\ v1 <= v2 /\ v2 <= inject_Z (Z.min (s + w) (s * 2)))%Q.
Proof.
  intros Hs Hw Hb Hlo Hhi v1 v2.
  destruct (placed_axis s w s c b Hs Hw Hb Hlo Hhi) as (H12 & _ & Hpos & Htop & Hend).
  fold v1 v2 in H12, Hpos, Htop, Hend.
  split; [|split; [done|]].
  - apply Hpos; [change 0%Q with (inject_Z 0)|]; rewrite <- Zle_Qle; lia.
  - destruct (Z.min_spec (s + w) (s * 2)) as [[Hlt ->]|[Hle ->]].
    + apply Hend. change 0%Q with (inject_Z 0). rewrite <- Zle_Qle. lia.
    + by replace (s * 2) with (2 * s) by lia.
Qed.

(** X13.  A label whose box lies within its own image (its width and
    height are not negative and its four sides are between 0 and 1) lies,
    once moved by the offset of its quadrant and clipped to the canvas,
    within the canvas rectangle of its source; its class and its number of
    columns are unchanged. *)
Theorem mosaic_box_inside_placement (i : Quadrant) (s h w : Z) (r : list Q)
    (Hs : 0 <= s) (Hh : 0 <= h) (Hw : 0 <= w)
    (Hlen : (5 <= length r)%nat) (Hbox : box_in_image r) :
  let '((x1a, y1a, x2a, y2a), (x1b, y1b, x2b, y2b)) := mosaic_place i s s s h w in
  let r' := clip_row s (place_row w h (x1a - x1b) (y1a - y1b) r) in
  (inject_Z x1a <= col r' 1 /\ col r' 1 <= col r' 3 /\ col r' 3 <= inject_Z x2a
   /\ inject_Z y1a <= col r' 2 /\ col r' 2 <= col r' 4 /\ col r' 4 <= inject_Z y2a)%Q
  /\ col r' 0 = col r 0 /\ length r' = length r.
Proof.
  destruct Hbox as (Hbw & Hx1 & Hx2 & Hbh & Hy1 & Hy2).
  destruct r as [|c0 [|cx [|cy [|bw [|bh rest]]]]]; cbn in Hlen; try lia.
  unfold col in *. cbn in Hbw, Hx1, Hx2, Hbh, Hy1, Hy2.
  pose proof (placed_left s w cx bw Hs Hw Hbw Hx1 Hx2) as HxL.
  pose proof (placed_right s w cx bw Hs Hw Hbw Hx1 Hx2) as HxR.
  pose proof (placed_left s h cy bh Hs Hh Hbh Hy1 Hy2) as HyL.
  pose proof (placed_right s h cy bh Hs Hh Hbh Hy1 Hy2) as HyR.
  cbv zeta in HxL, HxR, HyL, HyR.
  destruct i; cbn [mosaic_place]; cbv zeta; unfold place_row, set_box, clip_row, col;
    cbn [lookup list_lookup insert list_insert default from_option id map length];
    repeat match goal with
    | |- context [inject_Z (Z.max (s - ?u) 0 - (?u - (s - Z.max (s - ?u) 0)))] =>
        replace (Z.max (s - u) 0 - (u - (s - Z.max (s - u) 0))) with (s - u) by lia
    | |- context [inject_Z (s - 0)] => replace (s - 0) with s by lia
    end;
    (split; [|split; [reflexivity|cbn; rewrite ?length_map; reflexivity]]);
    cbn [list_fmap fmap]; rewrite ?(Z.min_comm (s * 2)); tauto.
Qed.

Lemma mosaic_place_fits_witness :
  exists img4,
    slice_assign (np_full 1280 1280 gray114) (0, 160, 640, 640)
      (blank 480 640) (0, 0, 640, 480) = Ok img4
    /\ rows img4 = 1280 /\ cols img4 = 1280.
Proof.
  destruct (mosaic_place_fits TopLeft 640 480 640 (np_full 1280 1280 gray114)
              (blank 480 640) ltac:(done) ltac:(done) ltac:(done)
              (conj eq_refl eq_refl) (conj eq_refl eq_refl))
    as (_ & _ & _ & _ & _ & _ & _ & img4 & Hsl & Hr & Hc & _).
  exists img4. split; [exact Hsl|]. split; [exact Hr|exact Hc].
Defined.

Lemma mosaic_quadrants_disjoint_witness :
  in_rect (mosaic_place TopLeft 640 640 640 480 640).1 200 100
  /\ ~ in_rect (mosaic_place TopRight 640 640 640 300 400).1 200 100.
Proof.
  assert (Hin : in_rect (mosaic_place TopLeft 640 640 640 480 640).1 200 100)
    by (cbn; lia).
  split; [exact Hin|].
  apply (mosaic_quadrants_disjoint TopLeft TopRight 640 480 640 300 400 200 100);
    [discriminate|exact Hin].
Defined.

Lemma mosaic_box_inside_placement_witness :
  box_in_image fair_label
  /\ (inject_Z 0 <= col (clip_row 640 (place_row 640 480 0 160 fair_label)) 1)%Q
  /\ (col (clip_row 640 (place_row 640 480 0 160 fair_label)) 3 <= inject_Z 640)%Q.
Proof.
  assert (Hbox : box_in_image fair_label)
    by (repeat split; vm_compute; discriminate).
  split; [exact Hbox|].
  destruct (mosaic_box_inside_placement TopLeft 640 480 640 fair_label
              ltac:(done) ltac:(done) ltac:(done) ltac:(cbn; lia) Hbox)
    as ((Hx1 & _ & Hx2 & _) & _).
  split; [exact Hx1|exact Hx2].
Defined.

(** ** The mosaic as a whole *)

Lemma rand_bind_inv {A B} (m : Rand A) (f : A -> Rand B) g r :
  (m ≫= f) g = Ok r -> exists a g1, m g = Ok (a, g1) /\ f a g1 = Ok r.
Proof.
  unfold mbind, Rand_bind. destruct (m g) as [[a g1]|e]; [eauto|discriminate].
Qed.

Lemma randint_run a b g v g' :
  randint a b g = Ok (v, g') -> a <= v <= b /\ g' = advance 1 g.
Proof.
  unfold randint. destruct (b <? a) eqn:Hba; [discriminate|].
  apply Z.ltb_ge in Hba. intros [= <- <-]. split; [|reflexivity].
  pose proof (Z.mod_pos_bound (Z.of_N (draws g (pos g))) (b - a + 1) ltac:(lia)). lia.
Qed.

Lemma randint_ok a b g :
  a <= b -> exists v, randint a b g = Ok (v, advance 1 g) /\ (a <= v <= b).
Proof.
  intros Hab. unfold randint.
  assert ((b <? a) = false) as -> by (apply Z.ltb_ge; lia).
  eexists. split; [reflexivity|].
  pose proof (Z.mod_pos_bound (Z.of_N (draws g (pos g))) (b - a + 1) ltac:(lia)). lia.
Qed.

Lemma lift_inv {A} (r : result A) g a g' : lift r g = Ok (a, g') -> r = Ok a /\ g' = g.
Proof. destruct r; cbn; [by intros [= <- <-]|discriminate]. Qed.

Lemma for_each_inv {A B} (f : A -> B -> result A) (P : A -> Prop) (l : list B) a0 a :
  (forall a b a', P a -> f a b = Ok a' -> P a') ->
  P a0 -> for_each f a0 l = Ok a -> P a.
Proof.
  intros Hstep. revert a0. induction l as [|b l IH]; intros a0 H0; cbn [for_each].
  - by intros [= <-].
  - destruct (f a0 b) as [a1|e] eqn:Hf; cbn; [|discriminate]. eauto.
Qed.

Lemma for_each_count {A B} (f : A -> B -> result A) (len : A -> nat) (l : list B) a0 a :
  (forall a b a', f a b = Ok a' -> len a' = S (len a)) ->
  for_each f a0 l = Ok a -> len a = (len a0 + length l)%nat.
Proof.
  intros Hstep. revert a0. induction l as [|b l IH]; intros a0; cbn [for_each].
  - intros [= <-]. cbn [length]. lia.
  - destruct (f a0 b) as [a1|e] eqn:Hf; cbn [mbind result_bind]; [|discriminate].
    intros Hl. apply IH in Hl. pose proof (Hstep _ _ _ Hf) as H1. cbn [length]. lia.
Qed.

Lemma slice_assign_shape dst a src b img :
  slice_assign dst a src b = Ok img -> rows img = rows dst /\ cols img = cols dst.
Proof.
  unfold slice_assign. destruct a as [[[? ?] ?] ?], b as [[[? ?] ?] ?].
  destruct (slice_range _ _ _), (slice_range _ _ _), (slice_range _ _ _), (slice_range _ _ _).
  destruct (_ && _); [|discriminate]. by intros [= <-].
Qed.

Lemma mosaic_step_inv `{Cv2} fs self img4 labels4 placed q idx img4' labels4' placed' :
  mosaic_step fs self (img4, labels4, placed) (q, idx) = Ok (img4', labels4', placed') ->
  rows img4' = rows img4 /\ cols img4' = cols img4
  /\ length placed' = S (length placed)
  /\ (idx < length (labels self))%nat.
Proof.
  unfold mosaic_step.
  destruct (load_image fs self idx) as [[[img hw0] [h w]]|e]; cbn [mbind result_bind];
    [|discriminate].
  destruct (mosaic_place q _ _ _ h w) as [a b].
  destruct (slice_assign img4 a img b) as [img5|e] eqn:Hsl; cbn [mbind result_bind];
    [|discriminate].
  destruct (labels self !! idx) as [x|] eqn:Hx; cbn [index_error mbind result_bind];
    [|discriminate].
  destruct (place_labels _ _ _ _ x) as [lbl|e]; cbn [mbind result_bind]; [|discriminate].
  intros [= <- <- <-]. apply slice_assign_shape in Hsl as [-> ->].
  rewrite length_app. cbn. apply lookup_lt_Some in Hx. repeat split; try done; lia.
Qed.

Lemma clip_row_bounds (s : Z) (r : list Q) :
  0 <= s ->
  Forall (fun v => (0 <= v <= inject_Z (2 * s))%Q) (drop 1 (clip_row s r)).
Proof.
  intros Hs. destruct r as [|c rest]; [constructor|]. cbn.
  apply Forall_map, Forall_forall. intros v _. cbn. apply Qclip_bounds.
  change 0%Q with (inject_Z 0). rewrite <- Zle_Qle. lia.
Qed.

Lemma mosaic_compose_inv `{Cv2} (fs : gmap string file) (self : Dataset)
    (index : nat) (g g' : Rng) (img4 : Image) (labels4 : LabelArr)
    (indices : list nat) (placed : list (Z * Z * Z * Z))
    (Hs : 0 <= img_size self)
    (Hrun : mosaic_compose fs self index g = Ok ((img4, labels4, indices, placed), g')) :
  let s := img_size self in
  g' = advance 3 g
  /\ rows img4 = s * 2 /\ cols img4 = s * 2
  /\ (exists i1 i2 i3, indices = [index; i1; i2; i3])
  /\ Forall (fun i => (i < length (labels self))%nat) indices
  /\ length placed = 4%nat
  /\ Forall (fun r => Forall (fun v => (0 <= v <= inject_Z (2 * s))%Q) (drop 1 r)) labels4.
Proof.
  intros s. unfold mosaic_compose in Hrun. fold s in Hrun.
  apply rand_bind_inv in Hrun as (i1 & g1 & Hi1 & Hrun).
  apply rand_bind_inv in Hrun as (i2 & g2 & Hi2 & Hrun).
  apply rand_bind_inv in Hrun as (i3 & g3 & Hi3 & Hrun).
  apply randint_run in Hi1 as [Hb1 ->], Hi2 as [Hb2 ->], Hi3 as [Hb3 ->].
  apply rand_bind_inv in Hrun as ([[img5 lbls] pl] & g4 & Hloop & Hrun).
  apply lift_inv in Hloop as [Hloop ->].
  injection Hrun as <- <- <- <- <-.
  split; [reflexivity|].
  set (indices := [index; Z.to_nat i1; Z.to_nat i2; Z.to_nat i3]) in *.
  assert (Hr : rows img5 = s * 2 /\ cols img5 = s * 2).
  { apply (for_each_inv (mosaic_step fs self)
             (fun acc => rows acc.1.1 = s * 2 /\ cols acc.1.1 = s * 2) _ _ _)
      in Hloop; [exact Hloop| |done].
    intros [[i l] p] [q idx] [[i' l'] p'] [Hi Hj] Hst. cbn [fst snd] in *.
    apply mosaic_step_inv in Hst as (Hst1 & Hst2 & _). by rewrite Hst1, Hst2. }
  destruct Hr as [Hr Hc].
  assert (Hlen : length pl = 4%nat).
  { apply (for_each_count (mosaic_step fs self) (fun acc => length acc.2)) in Hloop;
      [exact Hloop|].
    intros [[i l] p] [q idx] [[i' l'] p'] Hst. cbn [fst snd].
    by apply mosaic_step_inv in Hst as (_ & _ & ? & _). }
  cbn [fst snd] in Hr, Hc, Hlen.
  split; [done|]. split; [done|]. split; [by exists (Z.to_nat i1), (Z.to_nat i2), (Z.to_nat i3)|].
  split; [|split; [done|]].
  - assert (Hn : (0 < length (labels self))%nat).
    { cbn [for_each zip zip_with quadrants indices] in Hloop.
      destruct (mosaic_step fs self _ (TopLeft, index)) as [[[i l] p]|e] eqn:Hst;
        [|discriminate].
      apply mosaic_step_inv in Hst as (_ & _ & _ & ?). lia. }
    assert (Hlt : (index < length (labels self))%nat).
    { cbn [for_each zip zip_with quadrants indices] in Hloop.
      destruct (mosaic_step fs self _ (TopLeft, index)) as [[[i l] p]|e] eqn:Hst;
        [|discriminate].
      by apply mosaic_step_inv in Hst as (_ & _ & _ & ?). }
    subst indices. repeat constructor; try done; lia.
  - apply Forall_map, Forall_forall. intros r _. by apply clip_row_bounds.
Qed.

(** X14.  When the composition of a mosaic succeeds it has drawn three
    numbers; the canvas is a square of side [2 * img_size]; the sources are
    the requested index followed by three indices, all of them indices of the
    dataset; four rectangles were placed; and every coordinate of every label
    is between 0 and [2 * img_size]. *)
Theorem mosaic_compose_result `{Cv2} (fs : gmap string file) (self : Dataset)
    (index : nat) (g g' : Rng) (img4 : Image) (labels4 : LabelArr)
    (indices : list nat) (placed : list (Z * Z * Z * Z))
    (Hs : 0 <= img_size self)
    (Hrun : mosaic_compose fs self index g = Ok ((img4, labels4, indices, placed), g')) :
  let s := img_size self in
  g' = advance 3 g
  /\ rows img4 = s * 2 /\ cols img4 = s * 2
  /\ (exists i1 i2 i3, indices = [index; i1; i2; i3])
  /\ Forall (fun i => (i < length (labels self))%nat) indices
  /\ length placed = 4%nat
  /\ Forall (fun r => Forall (fun v => (0 <= v <= inject_Z (2 * s))%Q) (drop 1 r)) labels4.
Proof. by eapply mosaic_compose_inv. Qed.

Lemma mosaic_compose_result_witness :
  exists img4 labels4 indices placed g',
    @mosaic_compose sample_cv2 fs_ab ds_two 0 sample_rng
    = Ok ((img4, labels4, indices, placed), g')
    /\ rows img4 = 64 /\ cols img4 = 64 /\ length placed = 4%nat.
Proof.
  destruct (@mosaic_compose sample_cv2 fs_ab ds_two 0 sample_rng)
    as [[[[[img4 labels4] indices] placed] g']|e] eqn:Hrun;
    [|exfalso; vm_compute in Hrun; discriminate].
  exists img4, labels4, indices, placed, g'. split; [reflexivity|].
  destruct (mosaic_compose_result (H := sample_cv2) fs_ab ds_two 0 sample_rng g'
              img4 labels4 indices placed ltac:(done) Hrun)
    as (_ & Hr & Hc & _ & _ & Hp & _).
  split; [exact Hr|]. split; [exact Hc|exact Hp].
Defined.




(** X17.  [load_mosaic] raises on a dataset without hyperparameters and on
    a dataset without samples. *)
Theorem load_mosaic_needs_hyp_and_labels `{Cv2} `{MathLib}
    (fs : gmap string file) (self : Dataset) (index : nat) (g : Rng)
    (Hmiss : hyp self = None \/ labels self = []) :
  exists e, load_mosaic fs self index g = Err e.
Proof.
  destruct (load_mosaic fs self index g) as [[[img lbls] g']|e] eqn:Hrun; [|eauto].
  exfalso. destruct Hmiss as [Hh|Hl].
  - unfold load_mosaic in Hrun.
    apply rand_bind_inv in Hrun as ([[[img4 labels4] indices] placed] & g1 & _ & Hrun).
    rewrite Hh in Hrun. by apply lift_inv in Hrun as [? _].
  - unfold load_mosaic, mosaic_compose in Hrun. rewrite Hl in Hrun.
    apply rand_bind_inv in Hrun as (? & ? & Hrun & _).
    apply rand_bind_inv in Hrun as (? & ? & Hrun & _). discriminate.
Qed.



Lemma load_mosaic_needs_hyp_and_labels_witness :
  hyp ds_inference = None
  /\ exists e, @load_mosaic sample_cv2 sample_math fs_ab ds_inference 0 sample_rng = Err e.
Proof.
  split; [reflexivity|].
  apply (load_mosaic_needs_hyp_and_labels (H := sample_cv2) (H0 := sample_math)
           fs_ab ds_inference 0 sample_rng).
  left. reflexivity.
Defined.

(** ** Cutout *)


(** A mask of [cutout] on an image of [h] x [w]: a rectangle within the
    image, not larger than the share [m_scale] of either side, in one of the
    gray levels. *)
Definition mask_ok (h w : Z) (m : Mask) : Prop :=
  let '(xmin, ymin, xmax, ymax) := m_box m in
  let '(c0, c1, c2) := m_color m in
  (0 <= xmin <= xmax /\ xmax <= w) /\ (0 <= ymin <= ymax /\ ymax <= h)
  /\ (inject_Z (xmax - xmin) <= inject_Z w * m_scale m)%Q
  /\ (inject_Z (ymax - ymin) <= inject_Z h * m_scale m)%Q
  /\ (64 <= c0 <= 191 /\ 64 <= c1 <= 191 /\ 64 <= c2 <= 191).

(** The label [r] is covered by less than [0.6] of its area by every mask. *)
Definition survives (masks : list Mask) (r : list Q) : bool :=
  forallb (fun m => Qltb (bbox_ioa (mask_boxQ m) r) 0.6) masks.

Lemma py_int_le (x : Q) : (0 <= x)%Q -> (inject_Z (py_int x) <= x)%Q.
Proof.
  intros Hx. unfold py_int. destruct (Qlt_le_dec x 0); [lra|apply Qfloor_le].
Qed.

Lemma py_int_ge_1 (x : Q) : 1 <= py_int x <-> (1 <= x)%Q.
Proof.
  unfold py_int. destruct (Qlt_le_dec x 0) as [Hneg|Hpos].
  - split; [|lra]. intros Hc.
    assert (Qceiling x <= 0); [|lia].
    unfold Qceiling. pose proof (Qfloor_le (- x)).
    assert (0 <= Qfloor (- x)); [|lia].
    change 0 with (Qfloor 0). apply Qfloor_resp_le. lra.
  - split.
    + intros Hf. pose proof (Qfloor_le x). rewrite Zle_Qle in Hf.
      change (inject_Z 1) with 1%Q in Hf. lra.
    + intros Hx. change 1 with (Qfloor 1). by apply Qfloor_resp_le.
Qed.

Lemma cutout_mask_inv h w s g m g' :
  cutout_mask h w s g = Ok (m, g') ->
  m_scale m = s /\ mask_ok h w m /\ g' = advance 7 g
  /\ (1 <= inject_Z h * s)%Q /\ (1 <= inject_Z w * s)%Q.
Proof.
  unfold cutout_mask. intros Hrun.
  apply rand_bind_inv in Hrun as (mh & g1 & Hmh & Hrun). apply randint_run in Hmh as [Hmh ->].
  apply rand_bind_inv in Hrun as (mw & g2 & Hmw & Hrun). apply randint_run in Hmw as [Hmw ->].
  apply rand_bind_inv in Hrun as (rx & g3 & Hrx & Hrun). apply randint_run in Hrx as [Hrx ->].
  apply rand_bind_inv in Hrun as (ry & g4 & Hry & Hrun). apply randint_run in Hry as [Hry ->].
  apply rand_bind_inv in Hrun as (c0 & g5 & Hc0 & Hrun). apply randint_run in Hc0 as [Hc0 ->].
  apply rand_bind_inv in Hrun as (c1 & g6 & Hc1 & Hrun). apply randint_run in Hc1 as [Hc1 ->].
  apply rand_bind_inv in Hrun as (c2 & g7 & Hc2 & Hrun). apply randint_run in Hc2 as [Hc2 ->].
  injection Hrun as <- <-.
  assert (1 <= py_int (inject_Z h * s)) as Hh1 by lia.
  assert (1 <= py_int (inject_Z w * s)) as Hw1 by lia.
  apply py_int_ge_1 in Hh1, Hw1.
  pose proof (py_int_le (inject_Z h * s) ltac:(lra)) as Hhle.
  pose proof (py_int_le (inject_Z w * s) ltac:(lra)) as Hwle.
  split; [reflexivity|]. split; [|split; [reflexivity|split; assumption]].
  unfold mask_ok. cbn [m_box m_color m_scale].
  assert (inject_Z mh <= inject_Z h * s)%Q
    by (eapply Qle_trans; [|exact Hhle]; rewrite <- Zle_Qle; lia).
  assert (inject_Z mw <= inject_Z w * s)%Q
    by (eapply Qle_trans; [|exact Hwle]; rewrite <- Zle_Qle; lia).
  pose proof (Z.div_pos mw 2 ltac:(lia) ltac:(lia)).
  pose proof (Z.div_pos mh 2 ltac:(lia) ltac:(lia)).
  split; [lia|]. split; [lia|].
  split; [eapply Qle_trans; [|eassumption]; rewrite <- Zle_Qle; lia|].
  split; [eapply Qle_trans; [|eassumption]; rewrite <- Zle_Qle; lia|].
  lia.
Qed.

Lemma cutout_mask_ok h w s g :
  (1 <= inject_Z h * s)%Q -> (1 <= inject_Z w * s)%Q -> 0 <= h -> 0 <= w ->
  exists m, cutout_mask h w s g = Ok (m, advance 7 g).
Proof.
  intros Hh Hw Hh0 Hw0. apply py_int_ge_1 in Hh, Hw. unfold cutout_mask.
  destruct (randint_ok 1 (py_int (inject_Z h * s)) g Hh) as (mh & Hmh & _).
  rewrite (rand_bind_ok _ _ _ _ _ Hmh).
  destruct (randint_ok 1 (py_int (inject_Z w * s)) (advance 1 g) Hw) as (mw & Hmw & _).
  rewrite (rand_bind_ok _ _ _ _ _ Hmw).
  destruct (randint_ok 0 w (advance 1 (advance 1 g)) Hw0) as (rx & Hrx & _).
  rewrite (rand_bind_ok _ _ _ _ _ Hrx).
  destruct (randint_ok 0 h (advance 1 (advance 1 (advance 1 g))) Hh0) as (ry & Hry & _).
  rewrite (rand_bind_ok _ _ _ _ _ Hry).
  destruct (randint_ok 64 191 (advance 1 (advance 1 (advance 1 (advance 1 g)))) ltac:(lia))
    as (c0 & Hc0 & _).
  rewrite (rand_bind_ok _ _ _ _ _ Hc0).
  destruct (randint_ok 64 191 (advance 1 (advance 1 (advance 1 (advance 1 (advance 1 g)))))
              ltac:(lia)) as (c1 & Hc1 & _).
  rewrite (rand_bind_ok _ _ _ _ _ Hc1).
  destruct (randint_ok 64 191
              (advance 1 (advance 1 (advance 1 (advance 1 (advance 1 (advance 1 g))))))
              ltac:(lia)) as (c2 & Hc2 & _).
  rewrite (rand_bind_ok _ _ _ _ _ Hc2).
  eexists. reflexivity.
Qed.

(** The image after the mask [m] was painted. *)
Definition paint (image : Image) (m : Mask) : Image :=
  let '(xmin, ymin, xmax, ymax) := m_box m in
  fill_rect image ymin ymax xmin xmax (m_color m).

Definition five_cols (labels : LabelArr) : bool :=
  forallb (fun r => (5 <=? length r)%nat) labels.

Lemma five_cols_filter (P : list Q -> Prop) `{forall r, Decision (P r)}
    (labels : list (list Q)) :
  five_cols labels = true -> five_cols (filter P labels) = true.
Proof.
  unfold five_cols. induction labels as [|r l IH]; [done|].
  cbn [forallb]. intros [Hr Hl]%andb_prop. rewrite filter_cons.
  destruct (decide (P r)); cbn [forallb]; [rewrite Hr|]; auto.
Qed.

Lemma filter_survives_nil (l : list (list Q)) :
  filter (fun r => survives [] r = true) l = l.
Proof.
  induction l as [|r l IH]; [done|].
  rewrite filter_cons.
  destruct (decide (survives [] r = true)) as [_|Hn]; [by rewrite IH|by destruct Hn].
Qed.

Lemma filter_survives_cons m ms (l : list (list Q)) :
  filter (fun r => survives ms r = true)
    (filter (fun r => Qltb (bbox_ioa (mask_boxQ m) r) 0.6 = true) l)
  = filter (fun r => survives (m :: ms) r = true) l.
Proof.
  induction l as [|r l IH]; [done|].
  rewrite !filter_cons. cbn [survives forallb].
  destruct (decide (Qltb (bbox_ioa (mask_boxQ m) r) 0.6 = true)) as [Hm|Hm].
  - rewrite filter_cons, Hm. cbn [andb]. fold (survives ms r).
    destruct (decide (survives ms r = true)); by rewrite IH.
  - apply not_true_is_false in Hm. rewrite Hm. cbn [andb].
    destruct (decide (false = true)); [done|]. apply IH.
Qed.

Lemma cutout_step_inv h w img lbls masks s g img' lbls' masks' g' :
  Qltb 0.03 s = true ->
  cutout_step h w (img, lbls, masks) s g = Ok (img', lbls', masks', g') ->
  exists m, m_scale m = s /\ mask_ok h w m /\ masks' = masks ++ [m]
    /\ img' = paint img m
    /\ lbls' = filter (fun r => Qltb (bbox_ioa (mask_boxQ m) r) 0.6 = true) lbls
    /\ g' = advance 7 g /\ five_cols lbls = true
    /\ (1 <= inject_Z h * s)%Q /\ (1 <= inject_Z w * s)%Q.
Proof.
  intros Hs. unfold cutout_step. intros Hrun.
  apply rand_bind_inv in Hrun as (m & g1 & Hm & Hrun).
  apply cutout_mask_inv in Hm as (Hsc & Hok & -> & Hh & Hw).
  exists m. unfold paint.
  destruct (m_box m) as [[[xmin ymin] xmax] ymax] eqn:Hbox.
  rewrite Hs, andb_true_r in Hrun.
  fold (five_cols lbls) in Hrun.
  destruct (0 <? length lbls)%nat eqn:Hlen.
  - destruct (five_cols lbls) eqn:H5; [|by apply lift_inv in Hrun as [? _]].
    injection Hrun as <- <- <- <-. by repeat split.
  - destruct lbls; [|discriminate Hlen].
    injection Hrun as <- <- <- <-. by repeat split.
Qed.

Lemma cutout_step_ok h w img lbls masks s g :
  (1 <= inject_Z h * s)%Q -> (1 <= inject_Z w * s)%Q -> 0 <= h -> 0 <= w ->
  five_cols lbls = true ->
  exists img' lbls' masks',
    cutout_step h w (img, lbls, masks) s g = Ok (img', lbls', masks', advance 7 g)
    /\ five_cols lbls' = true.
Proof.
  intros Hh Hw Hh0 Hw0 H5. unfold cutout_step.
  destruct (cutout_mask_ok h w s g Hh Hw Hh0 Hw0) as (m & Hm).
  rewrite (rand_bind_ok _ _ _ _ _ Hm).
  destruct (m_box m) as [[[xmin ymin] xmax] ymax].
  fold (five_cols lbls). rewrite H5.
  destruct ((0 <? length lbls)%nat && Qltb 0.03 s).
  - do 3 eexists. split; [reflexivity|]. by apply five_cols_filter.
  - do 3 eexists. split; [reflexivity|done].
Qed.

Lemma cutout_steps_inv h w ss :
  Forall (fun s => Qltb 0.03 s = true) ss ->
  forall img lbls masks g img' lbls' masks' g',
  for_each_rand (cutout_step h w) (img, lbls, masks) ss g = Ok (img', lbls', masks', g') ->
  exists ms, masks' = masks ++ ms /\ map m_scale ms = ss /\ Forall (mask_ok h w) ms
    /\ img' = foldl paint img ms
    /\ lbls' = filter (fun r => survives ms r = true) lbls
    /\ g' = advance (7 * length ss) g
    /\ (ss <> [] -> five_cols lbls = true)
    /\ Forall (fun s => 1 <= inject_Z h * s /\ 1 <= inject_Z w * s)%Q ss.
Proof.
  induction 1 as [|s ss Hs Hss IH]; intros img lbls masks g img' lbls' masks' g' Hrun.
  - cbn in Hrun. injection Hrun as <- <- <- <-. exists []. rewrite app_nil_r.
    repeat split; try done; [symmetry; apply filter_survives_nil|by destruct g].
  - cbn [for_each_rand] in Hrun.
    apply rand_bind_inv in Hrun as ([[img1 lbls1] masks1] & g1 & Hstep & Hrun).
    apply (cutout_step_inv _ _ _ _ _ _ _ _ _ _ _ Hs) in Hstep
      as (m & Hsc & Hok & -> & -> & -> & -> & H5 & Hh & Hw).
    apply IH in Hrun as (ms & -> & Hmap & Hall & -> & -> & -> & _ & Hbounds).
    exists (m :: ms). rewrite <- app_assoc. cbn [app map foldl length].
    split; [done|]. split; [by rewrite Hsc, Hmap|]. split; [by constructor|].
    split; [done|]. split; [apply filter_survives_cons|].
    split; [unfold advance; cbn; f_equal; lia|]. split; [done|]. by constructor.
Qed.

Lemma cutout_steps_ok h w ss :
  32 <= h -> 32 <= w -> Forall (fun s => (1 # 32) <= s)%Q ss ->
  forall img lbls masks g,
  five_cols lbls = true ->
  exists r, for_each_rand (cutout_step h w) (img, lbls, masks) ss g = Ok r.
Proof.
  intros Hh Hw. induction 1 as [|s ss Hs Hss IH]; intros img lbls masks g H5.
  - eexists. reflexivity.
  - cbn [for_each_rand].
    assert (1 <= inject_Z h * s)%Q as Hhs.
    { assert (32 <= inject_Z h)%Q by (change 32%Q with (inject_Z 32); by rewrite <- Zle_Qle).
      nra. }
    assert (1 <= inject_Z w * s)%Q as Hws.
    { assert (32 <= inject_Z w)%Q by (change 32%Q with (inject_Z 32); by rewrite <- Zle_Qle).
      nra. }
    destruct (cutout_step_ok h w img lbls masks s g Hhs Hws ltac:(lia) ltac:(lia) H5)
      as (img1 & lbls1 & masks1 & Hstep & H5').
    rewrite (rand_bind_ok _ _ _ _ _ Hstep). by apply IH.
Qed.

Lemma scales_range : Forall (fun s => (1 # 32) <= s /\ Qltb 0.03 s = true)%Q scales.
Proof. unfold scales. cbn. repeat constructor; discriminate. Qed.

Lemma cutout_loop_ok image labels g :
  32 <= rows image -> 32 <= cols image -> five_cols labels = true ->
  exists r, cutout_loop image labels g = Ok r.
Proof.
  intros Hh Hw H5. unfold cutout_loop. apply cutout_steps_ok; try done.
  eapply Forall_impl; [apply scales_range|]. by intros s [? _].
Qed.

Lemma cutout_inv image labels g img' labels' g' :
  cutout image labels g = Ok (img', labels', g') ->
  exists masks, cutout_loop image labels g = Ok (img', labels', masks, g').
Proof.
  unfold cutout. intros Hrun.
  apply rand_bind_inv in Hrun as ([[i l] ms] & g1 & Hloop & Hret).
  injection Hret as <- <- <-. by exists ms.
Qed.




Lemma cutout_ok image labels g :
  32 <= rows image -> 32 <= cols image -> five_cols labels = true ->
  exists r, cutout image labels g = Ok r.
Proof.
  intros Hh Hw H5. unfold cutout.
  destruct (cutout_loop_ok image labels g Hh Hw H5) as ([[[img' labels'] masks] g'] & Hloop).
  rewrite (rand_bind_ok _ _ _ _ _ Hloop). eexists. reflexivity.
Qed.

(** X18.  [cutout] returns exactly for an image of at least 32 x 32 pixels
    whose labels have their five columns: the last masks are drawn with a
    side between 1 and [int(h * 0.03125)], an empty range on a smaller
    image. *)
Theorem cutout_returns_iff (image : Image) (labels : LabelArr) (g : Rng) :
  is_ok (cutout image labels g) = true
  <-> 32 <= rows image /\ 32 <= cols image
      /\ forallb (fun r => (5 <=? length r)%nat) labels = true.
Proof.
  split.
  - destruct (cutout image labels g) as [[[img' labels'] g']|e] eqn:Hrun; [|discriminate].
    intros _. apply cutout_inv in Hrun as (masks & Hloop). unfold cutout_loop in Hloop.
    apply cutout_steps_inv in Hloop as (ms & _ & _ & _ & _ & _ & _ & H5 & Hb).
    2: { eapply Forall_impl; [apply scales_range|]. by intros s [_ ?]. }
    assert (In 0.03125%Q scales) as Hin by (unfold scales; cbn; tauto).
    rewrite Forall_forall in Hb. apply list_elem_of_In, Hb in Hin as [Hh Hw].
    split; [|split].
    + rewrite Zle_Qle. change (inject_Z 32) with 32%Q. lra.
    + rewrite Zle_Qle. change (inject_Z 32) with 32%Q. lra.
    + by apply H5.
  - intros (Hh & Hw & H5).
    destruct (cutout_ok image labels g Hh Hw H5) as (r & Hrun). by rewrite Hrun.
Qed.





(** ** Invariants of construction *)

Lemma arrange_sizes (a : Args) r bi nb cache f lf ls sh bs :
  length (a_label_files a) = length (a_img_files a) ->
  arrange a r bi nb cache = Ok (f, lf, ls, sh, bs) ->
  f ≡ₚ a_img_files a /\ lf ≡ₚ a_label_files a
  /\ length ls = length (a_img_files a) /\ length sh = length (a_img_files a)
  /\ (is_Some bs <-> r = true)
  /\ (forall bs', bs = Some bs' -> length bs' = Z.to_nat nb).
Proof.
  intros Hlen. unfold arrange.
  destruct (cache_items cache (a_img_files a)) as [items|e] eqn:Hitems;
    cbn [mbind result_bind]; [|discriminate].
  unfold unzip_items.
  destruct (mapM _ items) as [pairs|e] eqn:Hpairs; cbn [mbind result_bind];
    [|discriminate].
  apply mapM_result_length in Hitems. apply mapM_result_length in Hpairs.
  destruct r.
  - destruct (rect_batch_shapes _ _ _ _ _ _) as [[irect bs']|e] eqn:Hrect;
      cbn [mbind result_bind]; [|discriminate].
    intros [= <- <- <- <- <-].
    unfold rect_batch_shapes in Hrect.
    destruct (mapM _ (seqZ 0 nb)) as [rel|e] eqn:Hrel; cbn [mbind result_bind] in Hrect;
      [|discriminate].
    injection Hrect as <- <-.
    set (ar := map _ _).
    assert (length ar = length (a_img_files a)) as Har
      by (subst ar; rewrite !length_map; lia).
    assert (forall (A : Type) (l : list A), length l = length (a_img_files a) ->
              take_idx l (argsort ar) ≡ₚ l) as Hperm.
    { intros A l Hl. apply take_idx_perm. rewrite argsort_perm. by rewrite Har, Hl. }
    split; [by apply Hperm|]. split; [by apply Hperm|].
    split; [rewrite Hperm; rewrite length_map; lia|].
    split; [rewrite Hperm; rewrite !length_map; lia|].
    split; [split; [done|eauto]|].
    intros bs' [= <-]. rewrite length_map.
    apply mapM_result_length in Hrel. by rewrite Hrel, length_seqZ.
  - intros [= <- <- <- <- <-].
    split; [done|]. split; [done|]. rewrite !length_map.
    split; [lia|]. split; [lia|]. split; [|done].
    split; [by intros [? ?]|done].
Qed.

(** What the preloading of images leaves as it was. *)
Definition same_samples (d d' : Dataset) : Prop :=
  n d' = n d /\ batch d' = batch d /\ img_size d' = img_size d
  /\ augment d' = augment d /\ hyp d' = hyp d /\ image_weights d' = image_weights d
  /\ rect d' = rect d /\ mosaic d' = mosaic d /\ mosaic_border d' = mosaic_border d
  /\ stride d' = stride d /\ img_files d' = img_files d
  /\ label_files d' = label_files d /\ shapes d' = shapes d /\ labels d' = labels d
  /\ batch_shapes d' = batch_shapes d /\ length (imgs d') = length (imgs d).

Lemma cache_images_loop_same `{Cv2} fs self idx self' :
  cache_images_loop fs self idx = Ok self' -> same_samples self self'.
Proof.
  revert self. induction idx as [|i idx IH]; intros self; cbn [cache_images_loop].
  - intros [= <-]. by repeat split.
  - destruct (load_image fs self i) as [[[img hw0] hw]|e]; cbn [mbind result_bind];
      [|discriminate].
    intros Hl. apply IH in Hl. unfold same_samples in *. cbn in Hl.
    rewrite length_insert in Hl. exact Hl.
Qed.

Lemma count_if_split {A} (p : A -> bool) (l : list A) :
  (count_if p l + count_if (fun x => negb (p x)) l = length l)%nat.
Proof.
  unfold count_if. induction l as [|x l IH]; [done|].
  cbn. destruct (p x); cbn; lia.
Qed.

Lemma count_if_le {A} (p q : A -> bool) (l : list A) :
  (forall x, p x = true -> q x = true) -> (count_if p l <= count_if q l)%nat.
Proof.
  intros Hpq. unfold count_if. induction l as [|x l IH]; [done|].
  cbn. destruct (p x) eqn:Hp.
  - rewrite (Hpq x Hp). cbn. lia.
  - destruct (q x); cbn; lia.
Qed.

Lemma has_duplicate_nonempty l : has_duplicate l = true -> nonempty l = true.
Proof.
  unfold has_duplicate, nonempty. intros Hd%Nat.ltb_lt. apply Nat.ltb_lt. lia.
Qed.

Lemma label_loop_missing sc files labels st ls st' :
  label_loop sc files labels st = Ok (ls, st') -> nm st' = nm st /\ ns st' = ns st.
Proof.
  revert labels st ls st'.
  induction files as [|file files IH]; intros [|l labels] st ls st';
    cbn [label_loop]; try discriminate; try (by intros [= <- <-]).
  destruct (check_label sc file l st) as [[l1 st1]|e] eqn:Hc; cbn [mbind result_bind];
    [|discriminate].
  destruct (label_loop sc files labels st1) as [[ls1 st2]|e] eqn:Hl;
    cbn [mbind result_bind]; [|discriminate].
  intros [= <- <-]. apply IH in Hl as [-> ->].
  unfold check_label in Hc. destruct (0 <? length l)%nat.
  - destruct (py_assert (shape1 l =? 5)%nat _); cbn in Hc; [|discriminate].
    destruct (py_assert (all_nonneg l) _); cbn in Hc; [|discriminate].
    destruct (py_assert (coords_le_1 l) _); cbn in Hc; [|discriminate].
    by injection Hc as <- <-.
  - by injection Hc as <- <-.
Qed.

Lemma count_if_collapse sc (ls : list LabelArr) :
  count_if nonempty (map (collapse_cls sc) ls) = count_if nonempty ls.
Proof.
  unfold count_if. induction ls as [|l ls IH]; [done|]. cbn [map List.filter].
  assert (nonempty (collapse_cls sc l) = nonempty l) as ->.
  { unfold nonempty, collapse_cls. destruct sc; [by rewrite length_map|done]. }
  destruct (nonempty l); cbn [length]; by rewrite IH.
Qed.

Lemma init_finish_inv `{Cv2} a w f lf sh bs ls st ds st' w' :
  init_finish a w f lf sh bs ls st = (Ok (ds, st'), w') ->
  st' = st /\ (nf st =? 0)%nat && a_augment a = false
  /\ n ds = length (a_img_files a) /\ img_files ds = f /\ label_files ds = lf
  /\ shapes ds = sh /\ labels ds = ls /\ batch_shapes ds = bs
  /\ rect ds = init_rect a /\ mosaic ds = a_augment a && negb (init_rect a)
  /\ length (imgs ds) = length (a_img_files a)
  /\ img_size ds = a_img_size a /\ augment ds = a_augment a /\ hyp ds = a_hyp a
  /\ mosaic_border ds = ((- a_img_size a) / 2, (- a_img_size a) / 2).
Proof.
  unfold init_finish.
  destruct ((nf st =? 0)%nat && a_augment a); [discriminate|].
  destruct (a_cache_images a).
  - destruct (cache_images_loop _ _ _) as [self|e] eqn:Hc; [|discriminate].
    intros [= <- <- _]. apply cache_images_loop_same in Hc.
    unfold same_samples in Hc. cbn in Hc. rewrite length_replicate in Hc.
    destruct Hc as (? & ? & ? & ? & ? & ? & ? & ? & ? & ? & ? & ? & ? & ? & ? & ?).
    by repeat split.
  - intros [= <- <- _]. cbn. rewrite length_replicate. by repeat split.
Qed.

(** X21.  A dataset that construction returns has one entry for every image
    file it was given in each of its arrays, and its image files are a
    permutation of those; [rect] is off under [image_weights], [mosaic] is
    set for augmentation without [rect], and the batch shapes exist exactly
    under [rect], one for each batch.  Of the counters, [nm] and [ns] stay 0:
    an image without a label file counts as empty, so that found and empty
    add up to the number of images; the arrays with a duplicate are among the
    found ones; and a dataset for augmentation has a label. *)
Theorem init_invariants `{Pickle} `{Cv2} (a : Args) (w w' : World) (ds : Dataset)
    (st : Stats)
    (Hlen : length (a_label_files a) = length (a_img_files a))
    (Hinit : init a w = (Ok (ds, st), w')) :
  let n0 := length (a_img_files a) in
  ((0 < n0)%nat /\ n ds = n0)
  /\ (img_files ds ≡ₚ a_img_files a /\ label_files ds ≡ₚ a_label_files a
      /\ length (labels ds) = n0 /\ length (shapes ds) = n0 /\ length (imgs ds) = n0)
  /\ (rect ds = (a_rect a && negb (a_image_weights a))
      /\ mosaic ds = (a_augment a && negb (rect ds))
      /\ (is_Some (batch_shapes ds) <-> rect ds = true)
      /\ (forall bs, batch_shapes ds = Some bs -> length bs = Z.to_nat (init_nb a)))
  /\ (nm st = 0 /\ ns st = 0 /\ nf st + ne st = n0 /\ nd st <= nf st
      /\ nf st = count_if nonempty (labels ds)
      /\ (a_augment a = true -> 0 < nf st))%nat.
Proof.
  intros n0. subst n0. unfold init in Hinit.
  destruct (length (a_img_files a) =? 0)%nat eqn:Hn0; [discriminate|].
  apply Nat.eqb_neq in Hn0.
  destruct (load_or_scan _ _ _ w) as [[cache|e] w1]; [|discriminate].
  destruct (arrange _ _ _ _ _) as [[[[[f lf] ls] sh] bs]|e] eqn:Harr; [|discriminate].
  pose proof (arrange_lengths _ _ _ _ _ _ _ _ _ _ Hlen Harr) as Hlf.
  apply arrange_sizes in Harr as (Hf & Hlfp & Hls & Hsh & Hbs & Hnb); [|done].
  destruct (label_loop _ _ _ _) as [[ls' st0]|e] eqn:Hloop; [|discriminate].
  pose proof (label_loop_missing _ _ _ _ _ _ Hloop) as [Hnm Hns].
  apply label_loop_ok in Hloop as (_ & -> & Hnd & Hnf & Hne); [|done].
  cbn [nd nf ne nm ns Nat.add] in Hnd, Hnf, Hne, Hnm, Hns.
  pose proof (count_if_split nonempty ls) as Hsplit.
  pose proof (count_if_le has_duplicate nonempty ls has_duplicate_nonempty) as Hdup.
  apply init_finish_inv in Hinit
    as (-> & Haug & Hn & -> & -> & -> & Hl & -> & Hrect & Hmos & Himgs & _).
  split; [split; [lia|done]|].
  split.
  { rewrite Hl, length_map. by repeat split. }
  split.
  { rewrite Hmos, Hrect. split; [unfold init_rect; by destruct (a_image_weights a), (a_rect a)|].
    split; [done|]. split; [done|]. exact Hnb. }
  rewrite Hl, count_if_collapse.
  split; [done|]. split; [done|]. split; [lia|]. split; [lia|]. split; [done|].
  intros Ha. rewrite Ha, andb_true_r in Haug. apply Nat.eqb_neq in Haug. lia.
Qed.

Lemma init_invariants_witness :
  exists ds st w',
    @init sample_pickle sample_cv2 args_rect (mkWorld fs_rect []) = (Ok (ds, st), w')
    /\ n ds = 3%nat /\ length (labels ds) = 3%nat
    /\ (nf st + ne st = 3)%nat /\ nm st = 0%nat.
Proof.
  assert (exists ds st w',
            @init sample_pickle sample_cv2 args_rect (mkWorld fs_rect [])
            = (Ok (ds, st), w')) as (ds & st & w' & Hinit)
    by (vm_compute; eauto).
  exists ds, st, w'. split; [exact Hinit|].
  destruct (init_invariants (H := sample_pickle) (H0 := sample_cv2) args_rect
              (mkWorld fs_rect []) w' ds st eq_refl Hinit)
    as ((_ & Hn) & (_ & _ & Hl & _) & _ & (Hnm & _ & Hsum & _)).
  split; [exact Hn|]. split; [exact Hl|]. split; [exact Hsum|exact Hnm].
Defined.

(** ** Loading an image *)

Lemma py_int_scaled (a s m : Z) :
  0 <= a -> 0 <= s -> 0 < m ->
  py_int (inject_Z a * (inject_Z s / inject_Z m)) = a * s / m.
Proof.
  intros Ha Hs Hm.
  assert (inject_Z a * (inject_Z s / inject_Z m) == (a * s) # (Z.to_pos m))%Q as Heq.
  { unfold Qeq, Qmult, Qdiv, Qinv, inject_Z. cbn [Qnum Qden].
    destruct m as [|p|p]; try lia. cbn. rewrite !Pos.mul_1_l. ring. }
  assert (0 <= inject_Z a * (inject_Z s / inject_Z m))%Q as Hpos.
  { rewrite Heq. unfold Qle. cbn. nia. }
  unfold py_int. destruct (Qlt_le_dec _ 0) as [Hneg|_]; [lra|].
  rewrite Heq. cbn. by rewrite Z2Pos.id by lia.
Qed.

Lemma ratio_is_one (s m : Z) : 0 < m -> Qeq_bool (inject_Z s / inject_Z m) 1 = true <-> s = m.
Proof.
  intros Hm. rewrite Qeq_bool_iff.
  assert (0 < inject_Z m)%Q as Hq by (by apply inject_Z_pos).
  split.
  - intros Heq. pose proof (Qmult_div_cancel (inject_Z s) (inject_Z m) Hq) as Hc.
    rewrite Heq, Qmult_1_r in Hc. symmetry in Hc. exact (proj1 (inject_Z_injective s m) Hc).
  - intros ->. field. lra.
Qed.

Lemma load_image_uncached_run `{Cv2} (fs : gmap string file) (self : Dataset)
    (index : nat) (path : string) (img0 : Image)
    (Himg : imgs self !! index = Some None)
    (Hpath : img_files self !! index = Some path)
    (Hread : cv2_imread fs path = Some img0)
    (Hh : 0 < rows img0) (Hw : 0 < cols img0) (Hs : 0 < img_size self)
    (Hthin : Z.max (rows img0) (cols img0)
             <= img_size self * Z.min (rows img0) (cols img0)) :
  let m := Z.max (rows img0) (cols img0) in
  exists img,
    load_image fs self index = Ok (img, (rows img0, cols img0), (rows img, cols img))
    /\ rows img = rows img0 * img_size self / m
    /\ cols img = cols img0 * img_size self / m
    /\ Z.max (rows img) (cols img) = img_size self
    /\ (m = img_size self -> img = img0).
Proof.
  intros m. unfold load_image. rewrite Himg, Hpath. cbn. rewrite Hread.
  fold m. assert (0 < m) as Hm by lia.
  assert ((m =? 0) = false) as -> by lia.
  set (s := img_size self) in *.
  assert (rows img0 <= m /\ cols img0 <= m /\ (rows img0 = m \/ cols img0 = m)
          /\ m <= s * rows img0 /\ m <= s * cols img0) as (Hrm & Hcm & Hor & Htr & Htc)
    by (subst m; nia).
  clearbody m. clear Hthin.
  assert (Hdiv : forall a, 0 <= a -> a <= m -> a * s / m <= s).
  { intros a Ha Ham. apply Z.div_le_upper_bound; [lia|nia]. }
  assert (Hmax : m * s / m = s) by (rewrite Z.mul_comm; by apply Z.div_mul; lia).
  assert (Hmaxs : Z.max (rows img0 * s / m) (cols img0 * s / m) = s).
  { destruct Hor as [E|E]; rewrite E, Hmax.
    - apply Z.max_l. apply Hdiv; lia.
    - apply Z.max_r. apply Hdiv; lia. }
  destruct (Qeq_bool (inject_Z s / inject_Z m) 1) eqn:Hr.
  - apply ratio_is_one in Hr; [|done]. exists img0. rewrite <- Hr.
    rewrite !Z.div_mul by lia. split; [done|]. split; [done|]. split; [done|].
    split; [lia|done].
  - rewrite !py_int_scaled by lia.
    assert (1 <= rows img0 * s / m) as Hr1 by (apply Z.div_le_lower_bound; nia).
    assert (1 <= cols img0 * s / m) as Hc1 by (apply Z.div_le_lower_bound; nia).
    unfold cv2_resize. cbn [fst snd].
    assert ((0 <? cols img0 * s / m) && (0 <? rows img0 * s / m) = true) as ->
      by (apply andb_true_intro; split; lia).
    eexists. split; [reflexivity|]. cbn.
    split; [done|]. split; [done|]. split; [done|].
    intros Heq. assert (Qeq_bool (inject_Z s / inject_Z m) 1 = true); [|congruence].
    by apply ratio_is_one.
Qed.

(** X22.  For an image that was not preloaded, whose file decodes to a
    raster with positive sides that is less than [img_size] times longer than
    wide (or wider than long), [load_image] returns the shape of the file as
    [(h0, w0)] and an image with positive sides, each the side of the file
    times [img_size] over the longer one, rounded down, up to the one pixel
    that the truncation of a floating-point product can lose: the longer side
    of the result is [img_size] or one less.  A file whose longer side is
    [img_size] already is returned as it was decoded. *)
Theorem load_image_scales_longer_side `{Cv2} (fs : gmap string file) (self : Dataset)
    (index : nat) (path : string) (img0 : Image)
    (Himg : imgs self !! index = Some None)
    (Hpath : img_files self !! index = Some path)
    (Hread : cv2_imread fs path = Some img0)
    (Hh : 0 < rows img0) (Hw : 0 < cols img0) (Hs : 0 < img_size self)
    (Hthin : Z.max (rows img0) (cols img0)
             < img_size self * Z.min (rows img0) (cols img0)) :
  let m := Z.max (rows img0) (cols img0) in
  exists img,
    load_image fs self index = Ok (img, (rows img0, cols img0), (rows img, cols img))
    /\ (0 < rows img /\ 0 < cols img)
    /\ img_size self - 1 <= Z.max (rows img) (cols img) <= img_size self
    /\ rows img0 * img_size self / m - 1 <= rows img <= rows img0 * img_size self / m
    /\ cols img0 * img_size self / m - 1 <= cols img <= cols img0 * img_size self / m
    /\ (m = img_size self -> img = img0).
Proof.
  intros m.
  destruct (load_image_uncached_run fs self index path img0 Himg Hpath Hread Hh Hw Hs
              ltac:(lia)) as (img & Hrun & Hr & Hc & Hmax & Hsame).
  fold m in Hr, Hc, Hsame.
  exists img. split; [exact Hrun|].
  assert (1 <= rows img0 * img_size self / m)
    by (apply Z.div_le_lower_bound; subst m; nia).
  assert (1 <= cols img0 * img_size self / m)
    by (apply Z.div_le_lower_bound; subst m; nia).
  split; [lia|]. split; [lia|]. split; [lia|]. split; [lia|exact Hsame].
Qed.

Lemma load_image_scales_longer_side_witness :
  exists img,
    @load_image sample_cv2 fs_ab ds_two 0 = Ok (img, (20, 30), (rows img, cols img))
    /\ 31 <= Z.max (rows img) (cols img) <= 32.
Proof.
  destruct (load_image_scales_longer_side (H := sample_cv2) fs_ab ds_two 0
              "data/images/a.jpg" (blank 20 30))
    as (img & Hrun & _ & Hmax & _); try done.
  exists img. split; [exact Hrun|exact Hmax].
Defined.

(** ** Preloaded images *)

Lemma load_image_ext `{Cv2} fs (d d' : Dataset) i :
  imgs d' !! i = imgs d !! i -> img_hw0 d' !! i = img_hw0 d !! i ->
  img_hw d' !! i = img_hw d !! i -> img_files d' = img_files d ->
  img_size d' = img_size d -> augment d' = augment d ->
  load_image fs d' i = load_image fs d i.
Proof.
  intros Hi H0 Hw Hf Hs Ha. unfold load_image. by rewrite Hi, H0, Hw, Hf, Hs, Ha.
Qed.

Lemma load_image_cached `{Cv2} fs (d : Dataset) i img hw0 hw :
  imgs d !! i = Some (Some img) -> img_hw0 d !! i = Some (Some hw0) ->
  img_hw d !! i = Some (Some hw) -> load_image fs d i = Ok (img, hw0, hw).
Proof. intros Hi H0 Hw. unfold load_image. by rewrite Hi, H0, Hw. Qed.

(** The sample [i] of [d] is preloaded with what [load_image] returns
    for it on the dataset [d0] and the files [fs]. *)
Definition preloaded `{Cv2} (fs : gmap string file) (d0 d : Dataset) (i : nat) : Prop :=
  exists img hw0 hw,
    load_image fs d0 i = Ok (img, hw0, hw)
    /\ imgs d !! i = Some (Some img) /\ img_hw0 d !! i = Some (Some hw0)
    /\ img_hw d !! i = Some (Some hw).

Lemma cache_images_loop_spec `{Cv2} fs idx : forall self self',
  NoDup idx ->
  Forall (fun i => imgs self !! i = Some None
                   /\ (i < length (img_hw0 self))%nat /\ (i < length (img_hw self))%nat) idx ->
  cache_images_loop fs self idx = Ok self' ->
  Forall (preloaded fs self self') idx
  /\ (forall j, j ∉ idx ->
        imgs self' !! j = imgs self !! j /\ img_hw0 self' !! j = img_hw0 self !! j
        /\ img_hw self' !! j = img_hw self !! j).
Proof.
  induction idx as [|i idx IH]; intros self self' Hnd Hall; cbn [cache_images_loop].
  - intros [= <-]. split; [constructor|done].
  - apply NoDup_cons in Hnd as [Hi Hnd]. apply Forall_cons in Hall as [(Hnone & H0 & Hw) Hall].
    destruct (load_image fs self i) as [[[img hw0] hw]|e] eqn:Hload; cbn [mbind result_bind];
      [|discriminate].
    set (self1 := mkDataset _ _ _ _ _ _ _ _ _ _ _ _ _ _ _ _ _ _).
    intros Hloop.
    assert (Hother : forall j, j <> i ->
              imgs self1 !! j = imgs self !! j /\ img_hw0 self1 !! j = img_hw0 self !! j
              /\ img_hw self1 !! j = img_hw self !! j).
    { intros j Hj. subst self1. cbn. by rewrite !list_lookup_insert_ne. }
    apply IH in Hloop as [Hpre Hrest]; [|done|].
    2: { rewrite Forall_forall in Hall |- *. intros j Hj.
         assert (j <> i) as Hne by (intros ->; done).
         destruct (Hother j Hne) as (-> & _ & _). subst self1. cbn.
         rewrite !length_insert. by apply Hall. }
    split.
    + constructor.
      * destruct (Hrest i Hi) as (Hi1 & Hi2 & Hi3). exists img, hw0, hw.
        rewrite Hi1, Hi2, Hi3. subst self1. cbn.
        rewrite !list_lookup_insert_eq; [done|lia|lia|by eapply lookup_lt_Some].
      * rewrite Forall_forall in Hpre |- *. intros j Hj.
        destruct (Hpre j Hj) as (img' & hw0' & hw' & Hl & Hrestj).
        exists img', hw0', hw'. split; [|done]. rewrite <- Hl. symmetry.
        assert (j <> i) as Hne by (intros ->; done).
        destruct (Hother j Hne) as (? & ? & ?). by apply load_image_ext.
    + intros j Hj. apply not_elem_of_cons in Hj as [Hne Hj].
      destruct (Hrest j Hj) as (-> & -> & ->). by apply Hother.
Qed.

(** The dataset before its images were preloaded (lines 419 and 423). *)
Definition without_images (d : Dataset) : Dataset :=
  mkDataset (n d) (batch d) (img_size d) (augment d) (hyp d) (image_weights d) (rect d)
    (mosaic d) (mosaic_border d) (stride d) (img_files d) (label_files d) (shapes d)
    (labels d) (batch_shapes d)
    (replicate (n d) None) (replicate (n d) None) (replicate (n d) None).

Lemma init_finish_cached `{Cv2} a w f lf sh bs ls st ds st' w' :
  a_cache_images a = true ->
  init_finish a w f lf sh bs ls st = (Ok (ds, st'), w') ->
  fs w' = fs w /\ n ds = length (a_img_files a)
  /\ cache_images_loop (fs w) (without_images ds) (seq 0 (n ds)) = Ok ds.
Proof.
  intros Hc. unfold init_finish. rewrite Hc.
  destruct ((nf st =? 0)%nat && a_augment a); [discriminate|].
  destruct (nf st =? 0)%nat;
    (cbn [fs]; destruct (cache_images_loop _ _ _) as [self|e] eqn:Hloop; [|discriminate];
     intros [= <- <- <-]; cbn [fs];
     pose proof (cache_images_loop_same _ _ _ _ Hloop) as Hsame;
     unfold same_samples in Hsame; cbn in Hsame;
     destruct Hsame as (Hn & Hb & Hs & Ha & Hh & Hi & Hr & Hm & Hmb & Hst & Hf & Hlf
                        & Hsh & Hl & Hbs & _);
     split; [done|]; split; [done|];
     unfold without_images;
     rewrite Hn, Hb, Hs, Ha, Hh, Hi, Hr, Hm, Hmb, Hst, Hf, Hlf, Hsh, Hl, Hbs; exact Hloop).
Qed.

(** X23.  With [cache_images], construction has read every image: each
    index of the dataset is preloaded with what [load_image] returned for it
    on the files of that time, and from then on [load_image] returns that
    image and those shapes whatever the files have become. *)
Theorem preloaded_images_are_served `{Pickle} `{Cv2} (a : Args) (w w' : World)
    (ds : Dataset) (st : Stats) (i : nat)
    (Hcache : a_cache_images a = true)
    (Hinit : init a w = (Ok (ds, st), w'))
    (Hi : (i < n ds)%nat) :
  exists img hw0 hw,
    load_image (fs w') (without_images ds) i = Ok (img, hw0, hw)
    /\ forall fs', load_image fs' ds i = Ok (img, hw0, hw).
Proof.
  unfold init in Hinit.
  destruct (length (a_img_files a) =? 0)%nat; [discriminate|].
  destruct (load_or_scan _ _ _ w) as [[cache|e] w1]; [|discriminate].
  destruct (arrange _ _ _ _ _) as [[[[[f lf] ls] sh] bs]|e]; [|discriminate].
  destruct (label_loop _ _ _ _) as [[ls' st0]|e]; [|discriminate].
  apply init_finish_cached in Hinit as (Hfs & Hn & Hloop); [|done].
  rewrite Hfs.
  apply cache_images_loop_spec in Hloop as [Hpre _].
  - rewrite Forall_forall in Hpre.
    destruct (Hpre i) as (img & hw0 & hw & Hload & H1 & H2 & H3);
      [apply elem_of_seq; lia|].
    exists img, hw0, hw. split; [exact Hload|].
    intros fs'. by apply load_image_cached.
  - apply NoDup_seq.
  - apply Forall_forall. intros j Hj%elem_of_seq. cbn.
    rewrite length_replicate. split; [|lia].
    apply lookup_replicate. split; [done|lia].
Qed.

Lemma preloaded_images_are_served_witness :
  exists ds st w' img hw0 hw,
    @init sample_pickle sample_cv2 args_preload world_ab = (Ok (ds, st), w')
    /\ forall fs', @load_image sample_cv2 fs' ds 1 = Ok (img, hw0, hw).
Proof.
  assert (exists ds st w',
            @init sample_pickle sample_cv2 args_preload world_ab = (Ok (ds, st), w')
            /\ n ds = 2%nat) as (ds & st & w' & Hinit & Hn)
    by (vm_compute; do 3 eexists; split; reflexivity).
  destruct (preloaded_images_are_served (H := sample_pickle) (H0 := sample_cv2)
              args_preload world_ab w' ds st 1 eq_refl Hinit ltac:(lia))
    as (img & hw0 & hw & _ & Hserved).
  by exists ds, st, w', img, hw0, hw.
Defined.

(** ** Batches of the rectangular mode *)

Lemma mapM_result_ok {A B} (f : A -> result B) (l : list A) :
  Forall (fun x => exists y, f x = Ok y) l -> exists k, mapM f l = Ok k.
Proof.
  induction 1 as [|x l [y Hy] _ [k Hk]]; cbn.
  - by eexists.
  - rewrite Hy. cbn. rewrite Hk. cbn. by eexists.
Qed.

Lemma batch_index_lookup n bsz j :
  (j < n)%nat -> batch_index n bsz !! j = Some (Z.of_nat j / bsz).
Proof.
  intros Hj. unfold batch_index. rewrite list_lookup_fmap, lookup_seq_lt by done. done.
Qed.

Lemma batch_index_last n bsz :
  (0 < n)%nat -> last (batch_index n bsz) = Some ((Z.of_nat n - 1) / bsz).
Proof.
  intros Hn. rewrite last_lookup. unfold batch_index at 1. rewrite length_map, length_seq.
  rewrite batch_index_lookup by lia. do 2 f_equal. lia.
Qed.

Lemma select_batch_nonempty bi (ar : list Q) j i x :
  bi !! j = Some i -> ar !! j = Some x -> select_batch bi ar i <> [].
Proof.
  unfold select_batch. revert ar j.
  induction bi as [|b bi IH]; intros [|y ar] [|j]; try discriminate; cbn.
  - intros [= ->] _. by rewrite Z.eqb_refl.
  - intros Hb Ha. destruct (b =? i); [done|]. by eapply IH.
Qed.

Lemma batch_rel_shape_ok ari : ari <> [] -> exists s, batch_rel_shape ari = Ok s.
Proof.
  intros Hne. unfold batch_rel_shape. destruct ari as [|x ari]; [done|]. cbn.
  destruct (Qltb _ 1); [by eexists|]. destruct (Qltb 1 _); by eexists.
Qed.

(** X24.  For a positive batch size and at least one image, the rectangular
    mode never fails: the number of batches is [(n - 1) // batch_size + 1],
    every batch holds an image, so that its minimum and maximum aspect ratio
    exist, and one shape is computed for each batch; the order [irect] is a
    permutation of the indices. *)
Theorem rect_batch_shapes_returns (shapes : list (Q * Q)) (bsz img_size stride : Z)
    (pad : Q)
    (Hb : 0 < bsz) (Hn : shapes <> []) :
  let n := length shapes in
  let bi := batch_index n bsz in
  let nb := default 0 (last bi) + 1 in
  nb = (Z.of_nat n - 1) / bsz + 1
  /\ exists irect bs,
       rect_batch_shapes shapes bi nb img_size stride pad = Ok (irect, bs)
       /\ irect ≡ₚ seq 0 n
       /\ length bs = Z.to_nat nb.
Proof.
  intros n bi nb.
  assert (0 < n)%nat as Hpos by (subst n; destruct shapes; [done|cbn; lia]).
  assert (nb = (Z.of_nat n - 1) / bsz + 1) as Hnb
    by (subst nb bi; by rewrite batch_index_last).
  split; [exact Hnb|].
  unfold rect_batch_shapes.
  set (ar := map (fun s : Q * Q => (s.2 / s.1)%Q) shapes).
  assert (length ar = n) as Har by (subst ar; by rewrite length_map).
  set (ar' := take_idx ar (argsort ar)).
  assert (length ar' = n) as Har'.
  { subst ar'. rewrite take_idx_argsort_perm. exact Har. }
  destruct (mapM_result_ok (fun i => batch_rel_shape (select_batch bi ar' i)) (seqZ 0 nb))
    as [rel Hrel].
  { apply Forall_forall. intros i Hi%elem_of_seqZ.
    apply batch_rel_shape_ok.
    assert (0 <= i * bsz <= Z.of_nat n - 1) as Hrange.
    { split; [nia|]. rewrite Hnb in Hi.
      assert (i <= (Z.of_nat n - 1) / bsz) as Hle by lia.
      pose proof (Z.mul_div_le (Z.of_nat n - 1) bsz Hb). nia. }
    destruct (lookup_lt_is_Some_2 ar' (Z.to_nat (i * bsz))) as [x Hx]; [lia|].
    apply (select_batch_nonempty bi ar' (Z.to_nat (i * bsz)) i x); [|exact Hx].
    subst bi. rewrite batch_index_lookup by lia. f_equal.
    rewrite Z2Nat.id by lia. apply Z.div_mul. lia. }
  rewrite Hrel. cbn. do 2 eexists. split; [reflexivity|].
  split; [by rewrite argsort_perm, Har|].
  rewrite length_map. apply mapM_result_length in Hrel. by rewrite Hrel, length_seqZ.
Qed.

Lemma rect_batch_shapes_returns_witness :
  exists irect bs,
    rect_batch_shapes shapes_mixed (batch_index 3 2)
      (default 0 (last (batch_index 3 2)) + 1) 640 32 0 = Ok (irect, bs)
    /\ length bs = 2%nat.
Proof.
  destruct (rect_batch_shapes_returns shapes_mixed 2 640 32 0 ltac:(lia) ltac:(done))
    as (_ & irect & bs & Hrun & _ & Hlen).
  exists irect, bs. split; [exact Hrun|exact Hlen].
Defined.

(** ** Labels in the letterboxed frame *)

Lemma py_round_half (x : Q) :
  (inject_Z (py_round x) - (1 # 2) <= x /\ x <= inject_Z (py_round x) + (1 # 2))%Q.
Proof.
  unfold py_round.
  pose proof (Qfloor_le x) as Hf1. pose proof (Qlt_floor x) as Hf2.
  set (f := Qfloor x) in *.
  assert (inject_Z (f + 1) == inject_Z f + 1)%Q as Hf by (by rewrite inject_Z_plus).
  rewrite Hf in Hf2.
  destruct (Qlt_le_dec (x - inject_Z f) (1 # 2)) as [Hlt|Hge]; [lra|].
  destruct (Qlt_le_dec (1 # 2) (x - inject_Z f)) as [Hgt|Hle]; [rewrite Hf; lra|].
  destruct (Z.even f); [lra|rewrite Hf; lra].
Qed.

Lemma py_round_pos (x : Q) : 0 < py_round x -> (0 < x)%Q.
Proof.
  intros Hp. destruct (py_round_half x) as [Hlo _].
  assert (1 <= inject_Z (py_round x))%Q
    by (change 1%Q with (inject_Z 1); rewrite <- Zle_Qle; lia).
  lra.
Qed.

Lemma letterbox_plain_inv `{Cv2} (img : Image) (nh nw : Z) (color : pixel)
    (scaleup : bool) img' ratio pad :
  0 < rows img -> 0 < cols img ->
  letterbox img (inr (nh, nw)) color false false scaleup = Ok (img', ratio, pad) ->
  let r := scale_ratio img nh nw scaleup in
  let uw := (scaled_size img nh nw scaleup).1 in
  let uh := (scaled_size img nh nw scaleup).2 in
  ratio = (r, r)
  /\ pad = ((inject_Z (nw - uw) / 2)%Q, (inject_Z (nh - uh) / 2)%Q)
  /\ rows img' = nh /\ cols img' = nw
  /\ 0 < uw <= nw /\ 0 < uh <= nh.
Proof.
  intros Hh Hw.
  pose proof (scaled_size_bounds img nh nw scaleup Hh Hw) as Hfit.
  unfold scaled_size, scale_ratio in *. cbn [fst snd] in *.
  set (r := if negb scaleup then _ else _) in *.
  set (uw := py_round (inject_Z (cols img) * r)) in *.
  set (uh := py_round (inject_Z (rows img) * r)) in *.
  destruct Hfit as (Hfw & Hfh & _).
  unfold letterbox. cbv zeta. cbn [fst snd].
  replace ((rows img =? 0) || (cols img =? 0)) with false
    by (symmetry; apply orb_false_intro; apply Z.eqb_neq; lia).
  fold r. fold uw uh.
  destruct (if bool_decide ((cols img, rows img) = (uw, uh)) then Ok img
            else cv2_resize img (uw, uh) INTER_LINEAR) as [img0|e] eqn:Hres;
    cbn [mbind result_bind]; [|discriminate].
  assert (cols img0 = uw /\ rows img0 = uh /\ 0 < uw /\ 0 < uh) as (Hc0 & Hr0 & Huw & Huh).
  { revert Hres. case_bool_decide as Heq.
    - injection Heq as Hc Hr. intros [= <-]. lia.
    - unfold cv2_resize. cbn [fst snd].
      destruct ((0 <? uw) && (0 <? uh)) eqn:Hpos; [|discriminate].
      apply andb_prop in Hpos as [?%Z.ltb_lt ?%Z.ltb_lt].
      intros [= <-]. by cbn. }
  destruct (pad_split (nw - uw) ltac:(lia)) as [-> ->].
  destruct (pad_split (nh - uh) ltac:(lia)) as [-> ->].
  unfold copyMakeBorder. rewrite border_ok by lia.
  cbn [mbind result_bind]. intros [= <- <- <-]. cbn [rows cols].
  split; [done|]. split; [done|]. lia.
Qed.

Lemma scale_ratio_le (img : Image) (nh nw : Z) (scaleup : bool) :
  0 < rows img -> 0 < cols img ->
  let r := scale_ratio img nh nw scaleup in
  (inject_Z (cols img) * r <= inject_Z nw /\ inject_Z (rows img) * r <= inject_Z nh)%Q.
Proof.
  intros Hh Hw. unfold scale_ratio.
  pose proof (inject_Z_pos _ Hh) as Hhq. pose proof (inject_Z_pos _ Hw) as Hwq.
  set (rh := (inject_Z nh / inject_Z (rows img))%Q).
  set (rw := (inject_Z nw / inject_Z (cols img))%Q).
  assert (Eh : (inject_Z (rows img) * rh == inject_Z nh)%Q) by (by apply Qmult_div_cancel).
  assert (Ew : (inject_Z (cols img) * rw == inject_Z nw)%Q) by (by apply Qmult_div_cancel).
  pose proof (Q.le_min_l rh rw) as Hml. pose proof (Q.le_min_r rh rw) as Hmr.
  set (r0 := Qmin rh rw) in *.
  assert (Hr : forall r : Q, (r <= r0)%Q ->
            (inject_Z (cols img) * r <= inject_Z nw
             /\ inject_Z (rows img) * r <= inject_Z nh)%Q).
  { intros r Hle. split.
    - rewrite <- Ew. apply Qmult_le_l; [done|lra].
    - rewrite <- Eh. apply Qmult_le_l; [done|lra]. }
  destruct scaleup; cbn [negb]; apply Hr; [apply Qle_refl|apply Q.le_min_l].
Qed.

(** One axis: a scaled side [s] within the target [n], its rounding [u],
    and the interval [[t1, t2]] of the unit interval. *)
Lemma framed_axis (s t1 t2 : Q) (u n : Z) :
  (0 <= s)%Q -> (s <= inject_Z n)%Q -> u <= n ->
  (inject_Z u - (1 # 2) <= s)%Q -> (s <= inject_Z u + (1 # 2))%Q ->
  (0 <= t1)%Q -> (t1 <= t2)%Q -> (t2 <= 1)%Q ->
  (0 <= s * t1 + inject_Z (n - u) / 2
   /\ s * t1 + inject_Z (n - u) / 2 <= s * t2 + inject_Z (n - u) / 2
   /\ s * t2 + inject_Z (n - u) / 2 <= inject_Z n)%Q.
Proof.
  intros Hs Hsn Hun Hlo Hhi H1 H12 H2.
  assert (0 <= inject_Z (n - u))%Q as Hd
    by (change 0%Q with (inject_Z 0); rewrite <- Zle_Qle; lia).
  assert (inject_Z (n - u) == inject_Z n - inject_Z u)%Q as Hnu
    by (unfold Z.sub; rewrite inject_Z_plus, inject_Z_opp; ring).
  unfold Qdiv. change (/ 2)%Q with (1 # 2)%Q.
  split; [nra|]. split; [nra|].
  assert (s * t2 <= s)%Q as Hst by nra.
  destruct (Z.eq_dec u n) as [->|Hne].
  - rewrite Hnu. lra.
  - assert (inject_Z u + 1 <= inject_Z n)%Q as Hstep.
    { change 1%Q with (inject_Z 1). rewrite <- inject_Z_plus, <- Zle_Qle. lia. }
    rewrite Hnu. lra.
Qed.

Lemma frame_row_inside (r0 : Q) (uw uh nw nh w h : Z) (r : list Q) :
  (0 <= inject_Z w * r0)%Q -> (0 <= inject_Z h * r0)%Q ->
  (inject_Z w * r0 <= inject_Z nw)%Q -> (inject_Z h * r0 <= inject_Z nh)%Q ->
  uw = py_round (inject_Z w * r0) -> uh = py_round (inject_Z h * r0) ->
  uw <= nw -> uh <= nh ->
  (5 <= length r)%nat -> box_in_image r ->
  let r' := frame_row (r0, r0) ((inject_Z (nw - uw) / 2)%Q, (inject_Z (nh - uh) / 2)%Q)
              w h r in
  (0 <= col r' 1 /\ col r' 1 <= col r' 3 /\ col r' 3 <= inject_Z nw
   /\ 0 <= col r' 2 /\ col r' 2 <= col r' 4 /\ col r' 4 <= inject_Z nh)%Q
  /\ col r' 0 = col r 0 /\ length r' = length r.
Proof.
  intros Hw0 Hh0 Hwn Hhn Huw Huh Hun Hvn Hlen (Hb3 & Hx1 & Hx2 & Hb4 & Hy1 & Hy2) r'.
  subst r'. unfold frame_row. cbn [fst snd].
  destruct (set_box_cols r
              (r0 * inject_Z w * (col r 1 - col r 3 / 2) + inject_Z (nw - uw) / 2)%Q
              (r0 * inject_Z h * (col r 2 - col r 4 / 2) + inject_Z (nh - uh) / 2)%Q
              (r0 * inject_Z w * (col r 1 + col r 3 / 2) + inject_Z (nw - uw) / 2)%Q
              (r0 * inject_Z h * (col r 2 + col r 4 / 2) + inject_Z (nh - uh) / 2)%Q
              Hlen) as (Hl & H0 & -> & -> & -> & -> & _).
  split; [|by split].
  destruct (py_round_half (inject_Z w * r0)) as [Hwlo Hwhi]. rewrite <- Huw in Hwlo, Hwhi.
  destruct (py_round_half (inject_Z h * r0)) as [Hhlo Hhhi]. rewrite <- Huh in Hhlo, Hhhi.
  destruct (framed_axis (inject_Z w * r0) (col r 1 - col r 3 / 2) (col r 1 + col r 3 / 2)
              uw nw) as (Ha & Hb & Hc); try done.
  { unfold Qdiv in *. change (/ 2)%Q with (1 # 2)%Q in *. lra. }
  destruct (framed_axis (inject_Z h * r0) (col r 2 - col r 4 / 2) (col r 2 + col r 4 / 2)
              uh nh) as (Hd & He & Hf); try done.
  { unfold Qdiv in *. change (/ 2)%Q with (1 # 2)%Q in *. lra. }
  assert (forall s t p : Q, (r0 * s * t + p == s * r0 * t + p)%Q) as Hcomm
    by (intros; ring).
  rewrite !Hcomm. by repeat split.
Qed.

(** X25.  Without mosaic, for a loaded image with positive sides that is
    recorded with its own shape, [__getitem__] returns an image of exactly
    the shape asked for, and every label whose box lies within its image
    becomes a box in pixels within that letterboxed image, with its class
    and one row for every label. *)
Theorem getitem_boxes_inside_image `{Cv2} (fs : gmap string file) (self : Dataset)
    (index : nat) (nh nw : Z) (img1 : Image) (hw0 : Z * Z) (x : LabelArr)
    (img : Image) (lbls : LabelArr) (shapes : (Z * Z) * ((Q * Q) * (Q * Q)))
    (Hload : load_image fs self index = Ok (img1, hw0, (rows img1, cols img1)))
    (Hpos : 0 < rows img1 /\ 0 < cols img1)
    (Hx : labels self !! index = Some x)
    (Hbox : Forall box_in_image x)
    (Hrun : getitem_letterbox fs self index (inr (nh, nw)) = Ok (img, lbls, shapes)) :
  rows img = nh /\ cols img = nw /\ shapes.1 = hw0
  /\ ((0 < arr_size x)%nat -> length lbls = length x)
  /\ Forall (fun r' =>
               (0 <= col r' 1 /\ col r' 1 <= col r' 3 /\ col r' 3 <= inject_Z nw
                /\ 0 <= col r' 2 /\ col r' 2 <= col r' 4 /\ col r' 4 <= inject_Z nh)%Q
               /\ exists r, r ∈ x /\ col r' 0 = col r 0 /\ length r' = length r) lbls.
Proof.
  destruct Hpos as [Hh Hw]. destruct hw0 as [h0 w0].
  unfold getitem_letterbox in Hrun. rewrite Hload in Hrun. cbn [mbind result_bind] in Hrun.
  destruct (letterbox img1 _ _ _ _ _) as [[[img' ratio] pad]|e] eqn:Hlb;
    cbn [mbind result_bind] in Hrun; [|discriminate].
  destruct ((h0 =? 0) || (w0 =? 0)); [discriminate|].
  rewrite Hx in Hrun. cbn [index_error mbind result_bind] in Hrun.
  destruct (frame_labels _ _ _ _ _) as [l|e] eqn:Hfl; cbn [mbind result_bind] in Hrun;
    [|discriminate].
  injection Hrun as <- <- <-.
  apply letterbox_plain_inv in Hlb as (-> & -> & Hr & Hc & Huw & Huh); [|done..].
  split; [done|]. split; [done|]. split; [done|].
  pose proof (scale_ratio_le img1 nh nw (augment self) Hh Hw) as [Hwn Hhn].
  unfold scaled_size in Huw, Huh. cbn [fst snd] in Huw, Huh.
  set (r0 := scale_ratio img1 nh nw (augment self)) in *.
  assert (0 < inject_Z (cols img1) * r0)%Q as Hwp by (apply py_round_pos; lia).
  assert (0 < inject_Z (rows img1) * r0)%Q as Hhp by (apply py_round_pos; lia).
  unfold frame_labels in Hfl. destruct (0 <? arr_size x)%nat eqn:Hsz.
  - destruct (forallb _ x) eqn:H5; [|discriminate]. injection Hfl as <-.
    split; [by rewrite length_map|].
    apply Forall_map, Forall_forall. intros r Hin.
    rewrite forallb_forall in H5.
    pose proof (H5 r ltac:(by apply list_elem_of_In)) as Hlen%Nat.leb_le.
    rewrite Forall_forall in Hbox.
    destruct (frame_row_inside r0 _ _ nw nh (cols img1) (rows img1) r
                ltac:(lra) ltac:(lra) Hwn Hhn eq_refl eq_refl
                ltac:(lia) ltac:(lia) Hlen (Hbox r Hin)) as (Hin' & H0 & Hl).
    split; [exact Hin'|]. by exists r.
  - injection Hfl as <-. split; [|constructor].
    intros Hlt. apply Nat.ltb_ge in Hsz. lia.
Qed.

Lemma getitem_boxes_inside_image_witness :
  exists img lbls shapes,
    @getitem_letterbox sample_cv2 fs_ab ds_inference 0 (inr (32, 32))
    = Ok (img, lbls, shapes)
    /\ rows img = 32 /\ cols img = 32 /\ length lbls = 1%nat.
Proof.
  assert (exists img1,
            @load_image sample_cv2 fs_ab ds_inference 0
            = Ok (img1, (20, 30), (rows img1, cols img1))
            /\ 0 < rows img1 /\ 0 < cols img1) as (img1 & Hload & Hpos)
    by (exists (blank 21 32); split; [vm_compute; reflexivity|split; reflexivity]).
  destruct (@getitem_letterbox sample_cv2 fs_ab ds_inference 0 (inr (32, 32)))
    as [[[img lbls] shapes]|e] eqn:Hrun; [|vm_compute in Hrun; discriminate].
  destruct (getitem_boxes_inside_image (H := sample_cv2) fs_ab ds_inference 0 32 32
              img1 (20, 30) [fair_label] img lbls shapes Hload Hpos eq_refl)
    as (Hr & Hc & _ & Hlen & _); [|exact Hrun|].
  - apply Forall_cons. split; [|constructor]. repeat split; vm_compute; discriminate.
  - exists img, lbls, shapes. split; [reflexivity|]. split; [exact Hr|].
    split; [exact Hc|]. apply Hlen. cbn. lia.
Defined.

(** ** Collation *)

(** The rows of a collated label tensor that carry the index [i]. *)
Definition rows_of (i : nat) (lbl : LabelArr) : LabelArr :=
  List.filter (fun r => Qeq_bool (col r 0) (inject_Z (Z.of_nat i))) lbl.

(** [l] with its column 0 set to [i]. *)
Definition with_index (i : nat) (l : LabelArr) : LabelArr :=
  map (fun r => <[0%nat := inject_Z (Z.of_nat i)]> r) l.

Lemma Qeq_bool_index (i j : nat) :
  Qeq_bool (inject_Z (Z.of_nat j)) (inject_Z (Z.of_nat i)) = bool_decide (j = i).
Proof.
  case_bool_decide as Hij.
  - subst. apply Qeq_bool_iff. reflexivity.
  - destruct (Qeq_bool _ _) eqn:Hq; [|done].
    apply Qeq_bool_iff in Hq. apply (proj1 (inject_Z_injective _ _)) in Hq. lia.
Qed.

Lemma set_index_inv i l l' :
  set_index i l = Ok l' ->
  l' = with_index i l /\ Forall (fun r => (0 < length r)%nat) l.
Proof.
  unfold set_index. destruct (forallb _ l) eqn:Hall; [|discriminate].
  intros [= <-]. split; [done|].
  apply Forall_forall. intros r Hr. rewrite forallb_forall in Hall.
  by apply Nat.ltb_lt, Hall, list_elem_of_In.
Qed.

Lemma rows_of_with_index i j (l : LabelArr) :
  Forall (fun r => (0 < length r)%nat) l ->
  rows_of i (with_index j l) = if bool_decide (j = i) then with_index j l else [].
Proof.
  unfold rows_of, with_index. induction 1 as [|r l Hr _ IH]; cbn [map List.filter].
  - by case_bool_decide.
  - assert (col (<[0%nat := inject_Z (Z.of_nat j)]> r) 0 = inject_Z (Z.of_nat j)) as ->.
    { unfold col. by rewrite list_lookup_insert_eq. }
    rewrite Qeq_bool_index, IH. by case_bool_decide.
Qed.

Lemma rows_of_app i (l1 l2 : LabelArr) : rows_of i (l1 ++ l2) = rows_of i l1 ++ rows_of i l2.
Proof. apply List.filter_app. Qed.

Lemma index_labels_inv k label out :
  index_labels k label = Ok out ->
  length out = length label
  /\ length (concat out) = sum_list (map length label)
  /\ forall i, rows_of i (concat out)
               = if bool_decide (k <= i)%nat
                 then from_option (with_index i) [] (label !! (i - k)%nat)
                 else [].
Proof.
  revert k out. induction label as [|l label IH]; intros k out; cbn [index_labels].
  - intros [= <-]. split; [done|]. split; [done|]. intros i. cbn.
    by case_bool_decide.
  - destruct (set_index k l) as [l'|e] eqn:Hset; cbn [mbind result_bind]; [|discriminate].
    destruct (index_labels (S k) label) as [out'|e] eqn:Hrest; cbn [mbind result_bind];
      [|discriminate].
    intros [= <-]. apply set_index_inv in Hset as [-> Hne].
    apply IH in Hrest as (Hlen & Hcat & Hrows).
    split; [cbn; lia|]. split.
    { cbn [concat map sum_list]. rewrite length_app, Hcat.
      unfold with_index. by rewrite length_map. }
    intros i. cbn [concat]. rewrite rows_of_app, rows_of_with_index, Hrows by done.
    repeat case_bool_decide; try lia.
    + subst. rewrite Nat.sub_diag. cbn. by rewrite app_nil_r.
    + replace (i - k)%nat with (S (i - S k)) by lia. done.
    + done.
Qed.

Lemma drop_with_index i (l : LabelArr) : map (drop 1) (with_index i l) = map (drop 1) l.
Proof.
  unfold with_index. rewrite map_map. apply map_ext. intros r. by destruct r.
Qed.

(** X26.  When [collate_fn] returns, the images, paths and shapes are those
    of the samples in their order, the label tensor has one row for every
    label of every sample, and the rows whose column 0 is [i] are exactly the
    labels of sample [i], in their order, with the further columns as they
    were: every label can be attributed to its image. *)
Theorem collate_fn_attributes_rows {P S : Type} (batch : list (Image * LabelArr * P * S))
    (img : list Image) (lbl : LabelArr) (path : list P) (shapes : list S)
    (Hrun : collate_fn batch = Ok (img, lbl, path, shapes)) :
  batch <> []
  /\ img = map (fun b => b.1.1.1) batch
  /\ path = map (fun b => b.1.2) batch
  /\ shapes = map (fun b => b.2) batch
  /\ length lbl = sum_list (map (fun b => length b.1.1.2) batch)
  /\ forall i b, batch !! i = Some b ->
       rows_of i lbl = with_index i b.1.1.2
       /\ map (drop 1) (rows_of i lbl) = map (drop 1) b.1.1.2.
Proof.
  unfold collate_fn in Hrun. destruct batch as [|b0 rest]; [discriminate|].
  remember (b0 :: rest) as batch eqn:Hb. cbv beta iota zeta in Hrun.
  destruct (index_labels 0 _) as [out|e] eqn:Hidx; cbn [mbind result_bind] in Hrun;
    [|discriminate].
  unfold paddle_stack, paddle_concat in Hrun.
  destruct (same_by _ (map _ batch)); cbn [mbind result_bind] in Hrun; [|discriminate].
  destruct (same_by length (concat out)); cbn [mbind result_bind] in Hrun; [|discriminate].
  injection Hrun as <- <- <- <-.
  apply index_labels_inv in Hidx as (Hlen & Hsum & Hrows).
  split; [by subst batch|]. split; [done|]. split; [done|]. split; [done|].
  split; [by rewrite Hsum, map_map|].
  intros i b Hi. rewrite Hrows. rewrite bool_decide_eq_true_2 by lia.
  rewrite Nat.sub_0_r, list_lookup_fmap, Hi. cbn [fmap option_fmap option_map from_option].
  split; [done|]. apply drop_with_index.
Qed.

Lemma collate_fn_attributes_rows_witness :
  exists img lbl path shapes,
    collate_fn batch_two = Ok (img, lbl, path, shapes)
    /\ length lbl = 3%nat
    /\ rows_of 1 lbl = with_index 1 [row6; row6].
Proof.
  destruct (collate_fn batch_two) as [[[[img lbl] path] shapes]|e] eqn:Hrun;
    [|vm_compute in Hrun; discriminate].
  destruct (collate_fn_attributes_rows batch_two img lbl path shapes Hrun)
    as (_ & _ & _ & _ & Hlen & Hrows).
  exists img, lbl, path, shapes. split; [reflexivity|]. split; [exact Hlen|].
  exact (proj1 (Hrows 1%nat _ eq_refl)).
Defined.

(** ** The random flips *)

(** The row [r'] is the row [r] mirrored: top to bottom when [ud] is set,
    left to right when [lr] is set. *)
Definition mirrored (ud lr : bool) (r r' : list Q) : Prop :=
  length r' = length r /\ col r' 0 = col r 0
  /\ col r' 1 = (if lr then 1 - col r 1 else col r 1)%Q
  /\ col r' 2 = (if ud then 1 - col r 2 else col r 2)%Q
  /\ col r' 3 = col r 3 /\ col r' 4 = col r 4.

Lemma random_run g : random g = Ok (peek g, advance 1 g).
Proof. reflexivity. Qed.

Lemma col_insert_eq (r : list Q) (k : nat) (v : Q) :
  (k < length r)%nat -> col (<[k := v]> r) k = v.
Proof. intros Hk. unfold col. by rewrite list_lookup_insert_eq. Qed.

Lemma col_insert_ne (r : list Q) (k j : nat) (v : Q) :
  k <> j -> col (<[k := v]> r) j = col r j.
Proof. intros Hk. unfold col. by rewrite list_lookup_insert_ne. Qed.

Lemma mirror_col_inv k labels labels' :
  mirror_col k labels = Ok labels' ->
  Forall2 (fun r r' => length r' = length r /\ col r' k = (1 - col r k)%Q
                       /\ forall j, j <> k -> col r' j = col r j) labels labels'.
Proof.
  unfold mirror_col. destruct (forallb _ labels) eqn:Hall; [|discriminate].
  intros [= <-]. rewrite forallb_forall in Hall.
  apply Forall2_fmap_r, Forall2_same_length_lookup_2; [done|].
  intros i r r' Hr Hr'. rewrite Hr in Hr'. injection Hr' as <-.
  assert (k < length r)%nat as Hk.
  { apply Nat.ltb_lt, Hall, list_elem_of_In. by eapply list_elem_of_lookup_2. }
  split; [by rewrite length_insert|]. split; [by apply col_insert_eq|].
  intros j Hj. by apply col_insert_ne.
Qed.

Lemma flip_with_inv p flip k img labels g img' labels' g' :
  flip_with p flip k (img, labels) g = Ok ((img', labels'), g') ->
  g' = advance 1 g
  /\ exists b : bool,
       (b = true <-> (peek g < p)%Q)
       /\ img' = (if b then flip img else img)
       /\ Forall2 (fun r r' => length r' = length r
                               /\ col r' k = (if b then 1 - col r k else col r k)%Q
                               /\ forall j, j <> k -> col r' j = col r j) labels labels'.
Proof.
  unfold flip_with. intros Hrun.
  apply rand_bind_inv in Hrun as (u & g1 & Hu & Hrun).
  rewrite random_run in Hu. injection Hu as <- <-.
  destruct (Qltb (peek g) p) eqn:Hlt.
  - apply rand_bind_inv in Hrun as (l1 & g2 & Hl & Hrun).
    apply lift_inv in Hl as [Hl ->]. injection Hrun as <- <- <-.
    split; [done|]. exists true. split; [by rewrite <- Qltb_true|]. split; [done|].
    destruct (0 <? length labels)%nat eqn:Hn.
    + by apply mirror_col_inv.
    + injection Hl as <-. destruct labels; [constructor|discriminate].
  - injection Hrun as <- <- <-. split; [done|]. exists false.
    split; [|split; [done|]].
    + split; [discriminate|]. intros Hp%Qltb_true. congruence.
    + apply Forall2_same_length_lookup_2; [done|].
      intros i r r' Hr Hr'. rewrite Hr in Hr'. by injection Hr' as <-.
Qed.

(** X27.  Under augmentation the flips of [__getitem__] draw two numbers,
    the first for the vertical and the second for the horizontal flip, and
    turn the image and the labels together: a flip takes place exactly when
    its draw is below the probability of the hyperparameters, the pixel
    [(y, x)] of the result is the pixel of the input at the mirrored row or
    column, and of every label the centre is mirrored on that axis while its
    class and its size are kept, so that a box within the image stays within
    the image. *)
Theorem flips_turn_image_and_labels (self : Dataset) (hy : Hyp) (img img' : Image)
    (labels labels' : LabelArr) (g g' : Rng)
    (Haug : augment self = true)
    (Hhyp : hyp self = Some hy)
    (Hrun : getitem_flips self img labels g = Ok ((img', labels'), g')) :
  g' = advance 2 g
  /\ exists ud lr : bool,
       (ud = true <-> (peek g < flipud hy)%Q)
       /\ (lr = true <-> (peek (advance 1 g) < fliplr hy)%Q)
       /\ rows img' = rows img /\ cols img' = cols img
       /\ (forall y x,
             px img' y x = px img (if ud then rows img - 1 - y else y)
                                  (if lr then cols img - 1 - x else x))
       /\ Forall2 (fun r r' => mirrored ud lr r r'
                               /\ (box_in_image r -> box_in_image r')) labels labels'.
Proof.
  unfold getitem_flips in Hrun. rewrite Haug, Hhyp in Hrun.
  apply rand_bind_inv in Hrun as ([img1 labels1] & g1 & H1 & H2).
  apply flip_with_inv in H1 as (-> & ud & Hud & -> & Hl1).
  apply flip_with_inv in H2 as (-> & lr & Hlr & -> & Hl2).
  split; [done|]. exists ud, lr. split; [done|]. split; [done|].
  split; [by destruct ud, lr|]. split; [by destruct ud, lr|].
  split; [by destruct ud, lr|].
  apply Forall2_same_length_lookup_2.
  { by rewrite (Forall2_length _ _ _ Hl1), (Forall2_length _ _ _ Hl2). }
  intros i r r' Hr Hr'.
  destruct (Forall2_lookup_l _ _ _ _ _ Hl1 Hr) as (r1 & Hr1 & Hlen1 & Hc1 & Ho1).
  destruct (Forall2_lookup_l _ _ _ _ _ Hl2 Hr1) as (r2 & Hr2 & Hlen2 & Hc2 & Ho2).
  rewrite Hr' in Hr2. injection Hr2 as <-.
  assert (Hm : mirrored ud lr r r').
  { unfold mirrored. split; [congruence|].
    rewrite (Ho2 0%nat), (Ho1 0%nat) by done.
    rewrite Hc2, (Ho1 1%nat) by done.
    rewrite (Ho2 2%nat), Hc1 by done.
    rewrite (Ho2 3%nat), (Ho1 3%nat) by done.
    rewrite (Ho2 4%nat), (Ho1 4%nat) by done. done. }
  split; [exact Hm|].
  destruct Hm as (_ & _ & Hx & Hy & Hw & Hh).
  unfold box_in_image. rewrite Hx, Hy, Hw, Hh.
  unfold Qdiv. change (/ 2)%Q with (1 # 2)%Q.
  intros (? & ? & ? & ? & ? & ?). destruct ud, lr; repeat split; lra.
Qed.

Lemma flips_turn_image_and_labels_witness :
  exists img' labels' g',
    getitem_flips ds_flip (blank 4 6) [fair_label] sample_rng = Ok ((img', labels'), g')
    /\ g' = advance 2 sample_rng /\ rows img' = 4 /\ cols img' = 6.
Proof.
  destruct (getitem_flips ds_flip (blank 4 6) [fair_label] sample_rng)
    as [[[img' labels'] g']|e] eqn:Hrun; [|vm_compute in Hrun; discriminate].
  destruct (flips_turn_image_and_labels ds_flip hyp_flip (blank 4 6) img' [fair_label]
              labels' sample_rng g' eq_refl eq_refl Hrun)
    as (Hg & ud & lr & _ & _ & Hr & Hc & _).
  exists img', labels', g'. split; [reflexivity|]. split; [exact Hg|].
  split; [exact Hr|exact Hc].
Defined.

(** ** The lookup tables of [augment_hsv] *)

Lemma Qmod_range (a m : Q) : (0 < m)%Q -> (0 <= Qmod a m /\ Qmod a m < m)%Q.
Proof.
  intros Hm. unfold Qmod.
  pose proof (Qfloor_le (a / m)) as Hlo. pose proof (Qlt_floor (a / m)) as Hhi.
  rewrite inject_Z_plus in Hhi. change (inject_Z 1) with 1%Q in Hhi.
  set (f := inject_Z (Qfloor (a / m))) in *.
  assert (m * (a / m) == a)%Q as Ha by (by apply Qmult_div_cancel).
  assert (m * f <= m * (a / m))%Q as H1 by (apply Qmult_le_l; [done|lra]).
  assert (m * (a / m) < m * (f + 1))%Q as H2 by (apply Qmult_lt_l; [done|lra]).
  rewrite Ha in H1, H2. split; lra.
Qed.

Lemma to_uint8_floor (v : Q) (n : Z) :
  (0 <= v)%Q -> (v < inject_Z (n + 1))%Q -> n <= 255 ->
  0 <= to_uint8 v <= n /\ to_uint8 v = Qfloor v.
Proof.
  intros H0 Hn H255. unfold to_uint8, py_int.
  destruct (Qlt_le_dec v 0) as [Hneg|_]; [lra|].
  assert (0 <= Qfloor v) by (change 0 with (Qfloor 0); by apply Qfloor_resp_le).
  assert (Qfloor v < n + 1).
  { rewrite Zlt_Qlt. eapply Qle_lt_trans; [apply Qfloor_le|done]. }
  rewrite Z.mod_small by lia. lia.
Qed.

Lemma to_uint8_exact (v : Q) (x : Z) :
  (v == inject_Z x)%Q -> 0 <= x <= 255 -> to_uint8 v = x.
Proof.
  intros Hv Hx.
  assert (0 <= v)%Q by (rewrite Hv; change 0%Q with (inject_Z 0); rewrite <- Zle_Qle; lia).
  destruct (to_uint8_floor v 255) as [_ ->]; [done| |lia|].
  - rewrite Hv, <- Zlt_Qlt. lia.
  - rewrite Hv. apply Qfloor_Z.
Qed.

Lemma lut_clip_floor (r : Q) (x : Z) :
  0 <= lut_clip r x <= 255
  /\ lut_clip r x = Qfloor (Qclip 0 255 (inject_Z x * r)).
Proof.
  unfold lut_clip.
  destruct (Qclip_bounds 255 (inject_Z x * r) ltac:(done)) as [Hlo Hhi].
  apply to_uint8_floor; [done| |lia].
  eapply Qle_lt_trans; [exact Hhi|]. done.
Qed.

Lemma Qclip_mono (lo hi a b : Q) : (a <= b)%Q -> (Qclip lo hi a <= Qclip lo hi b)%Q.
Proof.
  intros Hab. unfold Qclip.
  apply Q.min_le_compat_r. by apply Q.max_le_compat_r.
Qed.

(** X28.  For draws in [[-1, 1)] and gains between 0 and 1, the factor of a
    channel is between 0 and 2, and for every entry [x] of [0..255] the hue
    table holds a value of [0..179] and the saturation and value tables a
    value of [0..255], so that the cast to [uint8] never wraps; the tables of
    saturation and value are monotone in [x]; and with a gain of 0 they are
    the identity, the hue table being [x mod 180]. *)
Theorem hsv_luts_stay_in_range (u gain : Q) (x : Z)
    (Hu : (-1 <= u /\ u < 1)%Q) (Hg : (0 <= gain /\ gain <= 1)%Q)
    (Hx : 0 <= x <= 255) :
  let r := hsv_gain u gain in
  (0 <= r /\ r <= 2)%Q
  /\ 0 <= lut_hue r x <= 179
  /\ 0 <= lut_clip r x <= 255
  /\ (forall x', x <= x' <= 255 -> lut_clip r x <= lut_clip r x')
  /\ ((gain == 0)%Q -> lut_clip r x = x /\ lut_hue r x = x mod 180).
Proof.
  intros r. assert (0 <= r /\ r <= 2)%Q as Hr by (subst r; unfold hsv_gain; nra).
  split; [exact Hr|]. split; [|split; [|split]].
  - unfold lut_hue.
    destruct (Qmod_range (inject_Z x * r) 180 ltac:(done)) as [Hlo Hhi].
    by apply to_uint8_floor.
  - apply lut_clip_floor.
  - intros x' Hx'.
    destruct (lut_clip_floor r x) as [_ ->]. destruct (lut_clip_floor r x') as [_ ->].
    apply Qfloor_resp_le, Qclip_mono.
    assert (inject_Z x <= inject_Z x')%Q by (rewrite <- Zle_Qle; lia). nra.
  - intros Hg0.
    assert (r == 1)%Q as Hr1 by (subst r; unfold hsv_gain; rewrite Hg0; ring).
    assert (inject_Z x * r == inject_Z x)%Q as Hxr by (rewrite Hr1; ring).
    assert (0 <= inject_Z x)%Q as Hx0
      by (change 0%Q with (inject_Z 0); rewrite <- Zle_Qle; lia).
    assert (inject_Z x <= 255)%Q as Hx1
      by (change 255%Q with (inject_Z 255); rewrite <- Zle_Qle; lia).
    split.
    + unfold lut_clip. apply to_uint8_exact; [|done].
      by apply Qclip_inside.
    + unfold lut_hue. apply to_uint8_exact.
      * unfold Qmod.
        assert (Qfloor (inject_Z x * r / 180) = x / 180) as ->.
        { rewrite Hxr. change 180%Q with (inject_Z 180).
          assert (inject_Z x / inject_Z 180 == x # 180)%Q as -> by (symmetry; apply Qmake_Qdiv).
          reflexivity. }
        rewrite Hxr. rewrite (Z.mod_eq x 180) by lia.
        unfold Z.sub. rewrite inject_Z_plus, inject_Z_opp, inject_Z_mult.
        change (inject_Z 180) with 180%Q. ring.
      * pose proof (Z.mod_pos_bound x 180 ltac:(lia)). lia.
Qed.

Lemma hsv_luts_stay_in_range_witness :
  0 <= lut_hue (hsv_gain (1 # 2) (3 # 200)) 200 <= 179
  /\ 0 <= lut_clip (hsv_gain (1 # 2) (7 # 10)) 200 <= 255.
Proof.
  destruct (hsv_luts_stay_in_range (1 # 2) (3 # 200) 200) as (_ & Hh & _);
    [split; lra..|lia|].
  destruct (hsv_luts_stay_in_range (1 # 2) (7 # 10) 200) as (_ & _ & Hc & _);
    [split; lra..|lia|].
  split; [exact Hh|exact Hc].
Defined.
